(** * A shallow embedding of the graph container and the A* engine

    The development follows [graph/graph.hpp], [graph/details/priority_queue.hpp]
    and [graph/search/astar.hpp].  Vertices live in the identity-keyed vertex
    map; a [vertex_iterator] is modelled by the key it points at, so the
    references held by edges, predecessor lists, the open list and the parent
    links are keys into that one shared store and every in-place mutation is an
    update of the store.  [Transition] is instantiated at [int64_t]; the open
    list is a [PriorityQueue<VertexIterator>], whose priorities are [double]. *)

From Stdlib Require Import ZArith List Lia.
From stdpp Require Import gmap list fin_maps.

Local Open Scope Z_scope.

(** ** Machine arithmetic *)

(** A value of [Transition = int64_t] or of [Number = double] is modelled by
    the integer it denotes.  [wrap64] is the value of the 64-bit
    two's-complement word.  The language leaves a signed sum outside the
    range undefined; the model takes what the machine addition gives, the
    wrap-around. *)
Definition wrap64 (x : Z) : Z := (x + 2 ^ 63) mod 2 ^ 64 - 2 ^ 63.

(** [operator+] of [Transition]. *)
Definition Transition_add (a b : Z) : Z := wrap64 (a + b).

(** The conversion of a [Transition] to the [Number] of the open list, done
    at [openlist.put(successor, successor->f_cost_)]: a [double] carries 53
    significant bits, so the value is kept up to [2^53] in magnitude and
    beyond is rounded to the nearest multiple of the spacing of its binade,
    to the even multiple when it lies half-way. *)
Definition to_Number (x : Z) : Z :=
  let a := Z.abs x in
  if a <=? 2 ^ 53 then x
  else
    let ulp := 2 ^ (Z.log2 a - 52) in
    let q := a / ulp in
    let r := a mod ulp in
    let q' := if 2 * r <? ulp then q
              else if ulp <? 2 * r then q + 1
              else if Z.even q then q else q + 1 in
    Z.sgn x * (q' * ulp).

(** ** Data model *)

(** [StateIndexer]: the functor mapping a state to its 64-bit identity. *)
Class StateIndexer (State : Type) := GetStateIndex : State -> Z.
Global Arguments GetStateIndex : simpl never.

(** [DefaultIndexer] on an integral state: the state is its own identity. *)
#[export] Instance DefaultIndexer_Z : StateIndexer Z := fun s => s.

(** [struct Edge]: source and destination references and the transition. *)
Record Edge := mkEdge { src_ : Z; dst_ : Z; cost_ : Z }.

(** [struct Vertex]: the state, its identity, the owned outgoing edges, the
    predecessor back-references and the scratch fields of the search.  The
    source leaves the three cost fields without an initialiser; the search
    writes each of them before it reads it, and the model starts them at [0]. *)
Record Vertex {State : Type} := mkVertex {
  state_ : State;
  vertex_id_ : Z;
  edges_to_ : list Edge;
  vertices_from_ : list Z;
  is_checked_ : bool;
  is_in_openlist_ : bool;
  f_cost_ : Z;
  g_cost_ : Z;
  h_cost_ : Z;
  search_parent_ : option Z
}.
Arguments Vertex : clear implicits.
Arguments mkVertex {State}.

(** [VertexMapType]: the vertex map, keyed by identity. *)
Abbreviation Graph State := (gmap Z (Vertex State)).

Abbreviation Path State := (list State) (only parsing).

Section VertexFields.
Context {State : Type}.

Definition set_edges_to (f : list Edge -> list Edge) (v : Vertex State) : Vertex State :=
  mkVertex (state_ v) (vertex_id_ v) (f (edges_to_ v)) (vertices_from_ v)
           (is_checked_ v) (is_in_openlist_ v) (f_cost_ v) (g_cost_ v) (h_cost_ v)
           (search_parent_ v).

Definition set_vertices_from (f : list Z -> list Z) (v : Vertex State) : Vertex State :=
  mkVertex (state_ v) (vertex_id_ v) (edges_to_ v) (f (vertices_from_ v))
           (is_checked_ v) (is_in_openlist_ v) (f_cost_ v) (g_cost_ v) (h_cost_ v)
           (search_parent_ v).

(** [start_vtx->is_in_openlist_ = true; start_vtx->g_cost_ = 0;] *)
Definition seed_start (v : Vertex State) : Vertex State :=
  mkVertex (state_ v) (vertex_id_ v) (edges_to_ v) (vertices_from_ v)
           (is_checked_ v) true (f_cost_ v) 0 (h_cost_ v) (search_parent_ v).

(** [current_vertex->is_in_openlist_ = false; current_vertex->is_checked_ = true;] *)
Definition mark_checked (v : Vertex State) : Vertex State :=
  mkVertex (state_ v) (vertex_id_ v) (edges_to_ v) (vertices_from_ v)
           true false (f_cost_ v) (g_cost_ v) (h_cost_ v) (search_parent_ v).

(** The writes of one successful relaxation: parent, [g], [h], [f = g + h]
    added in [Transition], and the frontier flag. *)
Definition relaxed (parent : Z) (g h : Z) (v : Vertex State) : Vertex State :=
  mkVertex (state_ v) (vertex_id_ v) (edges_to_ v) (vertices_from_ v)
           (is_checked_ v) true (Transition_add g h) g h (Some parent).

(** Modelled from the spec: [Vertex::ClearVertexSearchInfo] (vertex_impl.hpp is
    not among the sources): clears the expanded and frontier flags and the cost
    fields. *)
Definition ClearVertexSearchInfo (v : Vertex State) : Vertex State :=
  mkVertex (state_ v) (vertex_id_ v) (edges_to_ v) (vertices_from_ v)
           false false 0 0 0 (search_parent_ v).

End VertexFields.

(** ** The graph container *)

Section GraphOps.
Context {State : Type} `{StateIndexer State}.

(** [Vertex(State s, int64_t id)] with the in-class initialisers. *)
Definition new_vertex (s : State) (id : Z) : Vertex State :=
  mkVertex s id [] [] false false 0 0 0 None.

(** [FindVertex(int64_t)]: [vertex_map_.find]; [None] is [vertex_end()]. *)
Definition FindVertex (vertex_id : Z) (g : Graph State) : option Z :=
  match g !! vertex_id with
  | Some _ => Some vertex_id
  | None => None
  end.

(** Modelled from the spec: [Graph::ObtainVertexFromVertexMap] (graph_impl.hpp
    is not among the sources): the iterator to the pair of the state's
    identity, created when it does not exist yet. *)
Definition ObtainVertexFromVertexMap (state : State) (g : Graph State) : Graph State * Z :=
  let id := GetStateIndex state in
  match g !! id with
  | Some _ => (g, id)
  | None => (<[id := new_vertex state id]> g, id)
  end.

(** Modelled from the spec: [Graph::AddVertex] (graph_impl.hpp is not among the
    sources): get-or-create; an existing vertex is returned unchanged. *)
Definition AddVertex (state : State) (g : Graph State) : Graph State * Z :=
  ObtainVertexFromVertexMap state g.

(** [Vertex::FindEdge(int64_t dst_id)] as a test: is there an edge to [dst_id]? *)
Definition has_edge_to (dst_id : Z) (es : list Edge) : bool :=
  existsb (fun e => dst_ e =? dst_id) es.

(** The cost update of the edge that [FindEdge] returns (the first one to
    [dst_id]). *)
Fixpoint update_edge_cost (dst_id trans : Z) (es : list Edge) : list Edge :=
  match es with
  | [] => []
  | e :: es' =>
      if dst_ e =? dst_id then mkEdge (src_ e) (dst_ e) trans :: es'
      else e :: update_edge_cost dst_id trans es'
  end.

(** Modelled from the spec: [Graph::AddEdge] (graph_impl.hpp is not among the
    sources): both endpoints are obtained (created if necessary); an edge of the
    ordered pair that exists has its cost updated, otherwise the edge is
    appended to the source's list and the source to the destination's
    predecessor list. *)
Definition AddEdge (sstate dstate : State) (trans : Z) (g : Graph State) : Graph State :=
  let '(g1, src) := ObtainVertexFromVertexMap sstate g in
  let '(g2, dst) := ObtainVertexFromVertexMap dstate g1 in
  match g2 !! src with
  | None => g2
  | Some sv =>
      if has_edge_to dst (edges_to_ sv)
      then alter (set_edges_to (update_edge_cost dst trans)) src g2
      else alter (set_vertices_from (fun l => l ++ [src])) dst
             (alter (set_edges_to (fun l => l ++ [mkEdge src dst trans])) src g2)
  end.

(** Removal of every reference to [id] from the edge list and the predecessor
    list of another vertex. *)
Definition scrub (id : Z) (v : Vertex State) : Vertex State :=
  set_vertices_from (filter (fun u => u ≠ id))
    (set_edges_to (filter (fun e => src_ e ≠ id ∧ dst_ e ≠ id)) v).

(** Modelled from the spec: [Graph::RemoveVertex(int64_t)] (graph_impl.hpp is
    not among the sources): a present vertex is removed with the edges it owns,
    and every reference to it is scrubbed from the other vertices; an absent
    identity changes nothing. *)
Definition RemoveVertex (state_id : Z) (g : Graph State) : Graph State :=
  match g !! state_id with
  | None => g
  | Some _ => scrub state_id <$> delete state_id g
  end.

(** Modelled from the spec: [Graph::GetAllEdges] (graph_impl.hpp is not among
    the sources): every directed edge stored, in vertex iteration order. *)
Definition GetAllEdges (g : Graph State) : list Edge :=
  map_to_list g ≫= (fun kv => edges_to_ kv.2).

(** [GetGraphVertexNumber]: [vertex_map_.size()]. *)
Definition GetGraphVertexNumber (g : Graph State) : Z := Z.of_nat (size g).

(** [GetGraphEdgeNumber]: [GetAllEdges().size()]. *)
Definition GetGraphEdgeNumber (g : Graph State) : Z := Z.of_nat (length (GetAllEdges g)).

(** Modelled from the spec: [Graph::ResetAllVertices], declared
    [ResetGraphVertices] in graph.hpp (graph_impl.hpp is not among the
    sources): clears the search information of every vertex. *)
Definition ResetAllVertices (g : Graph State) : Graph State :=
  ClearVertexSearchInfo <$> g.

End GraphOps.

(** ** The open list *)

(** [PQElement]: a (priority, item) pair; the item is a vertex reference. *)
Abbreviation PQElement := (Z * Z)%type (only parsing).

(** [std::priority_queue] keeps a heap; the model keeps the entries in
    insertion order.  Which of several entries of least priority [top()]
    yields is left to a policy, a function of the queue's content.  A
    priority is a [Number], a [double]; the priorities of a search are whole
    numbers, and each is modelled by the integer it denotes. *)
Abbreviation TiePolicy := (list PQElement -> nat) (only parsing).

Module PriorityQueue.

Definition empty (elements : list PQElement) : bool :=
  match elements with [] => true | _ => false end.

Definition size (elements : list PQElement) : nat := length elements.

(** [put]: [elements.emplace(priority, item)]. *)
Definition put (item : Z) (priority : Z) (elements : list PQElement) : list PQElement :=
  elements ++ [(priority, item)].

(** The least priority present. *)
Definition min_priority (elements : list PQElement) : option Z :=
  match elements with
  | [] => None
  | e :: es => Some (fold_left Z.min (map fst es) (fst e))
  end.

(** Positions (counted from [i]) of the entries of priority [m]. *)
Fixpoint positions_of (m : Z) (elements : list PQElement) (i : nat) : list nat :=
  match elements with
  | [] => []
  | e :: es =>
      if fst e =? m then i :: positions_of m es (S i) else positions_of m es (S i)
  end.

(** Position of the entry that [top()] yields. *)
Definition top_index (tie : TiePolicy) (elements : list PQElement) : option nat :=
  match min_priority elements with
  | None => None
  | Some m =>
      match positions_of m elements 0 with
      | [] => None
      | [i] => Some i
      | i :: cands => Some (nth (tie elements mod length (i :: cands))%nat (i :: cands) i)
      end
  end.

(** [get]: [best_item = elements.top().second; elements.pop()].  The source
    calls it on a non-empty queue only; on the empty queue the model yields
    [None]. *)
Definition get (tie : TiePolicy) (elements : list PQElement) : option (Z * list PQElement) :=
  i ← top_index tie elements;
  e ← elements !! i;
  Some (e.2, delete i elements).

End PriorityQueue.

(** [DynamicPriorityQueue]: its [PQElement] is declared
    [pair<ElmentType, PriorityType>] but filled by [emplace(priority, item)], so
    that the first component holds the priority and the second the item, each
    converted to the type of the other.  The model takes both types at the
    integers, where these conversions change nothing.  [std::greater] orders the
    pairs lexicographically, and [top()] is a least pair: ties of the priority
    are broken by the item. *)
Module DynamicPriorityQueue.

Definition empty (elements : list PQElement) : bool :=
  match elements with [] => true | _ => false end.

(** [put]: [elements.emplace(priority, item)]. *)
Definition put (item : Z) (priority : Z) (elements : list PQElement) : list PQElement :=
  elements ++ [(priority, item)].

(** [operator<=] of [std::pair]. *)
Definition pair_le (a b : PQElement) : bool :=
  (a.1 <? b.1) || ((a.1 =? b.1) && (a.2 <=? b.2)).

(** A least pair of [e :: es]. *)
Fixpoint least (e : PQElement) (es : list PQElement) : PQElement :=
  match es with
  | [] => e
  | x :: es' => least (if pair_le e x then e else x) es'
  end.

(** [pop()]: one copy of the pair that [top()] yields leaves the queue. *)
Fixpoint remove_first (e : PQElement) (elements : list PQElement) : list PQElement :=
  match elements with
  | [] => []
  | x :: es => if decide (x = e) then es else x :: remove_first e es
  end.

(** [get]: [best_item = elements.top().second; elements.pop()]; on the empty
    queue, where the source must not be called, the model yields [None]. *)
Definition get (elements : list PQElement) : option (Z * list PQElement) :=
  match elements with
  | [] => None
  | e :: es => let top := least e es in Some (top.2, remove_first top elements)
  end.

End DynamicPriorityQueue.

(** ** The A* engine *)

Abbreviation CalcHeuristicFunc State := (State -> State -> Z).
Abbreviation GetNeighbourFunc State := (State -> list (State * Z)).

Module AStar.
Section Engine.
Context {State : Type} `{StateIndexer State}.
Variable tie : TiePolicy.

(** The state of the main loop: the vertex store and the open list. *)
Abbreviation SearchState := (Graph State * list PQElement)%type.

(** The body of [for (auto &edge : current_vertex->edges_to_)] for one edge.
    [new_cost] and [f_cost_] are sums in [Transition]; the open list takes
    [f_cost_] as a [Number].  A reference that does not resolve in the store
    makes the step fail. *)
Definition relax_edge (CalcHeuristic : CalcHeuristicFunc State) (goal_vtx current_vertex : Z)
    (edge : Edge) (st : SearchState) : option SearchState :=
  let '(g, openlist) := st in
  let successor := dst_ edge in
  sv ← g !! successor;
  if is_checked_ sv then Some st
  else
    cv ← g !! current_vertex;
    let new_cost := Transition_add (g_cost_ cv) (cost_ edge) in
    if negb (is_in_openlist_ sv) || (new_cost <? g_cost_ sv)
    then
      gv ← g !! goal_vtx;
      let h := CalcHeuristic (state_ sv) (state_ gv) in
      let successor' := relaxed current_vertex new_cost h sv in
      Some (<[successor := successor']> g,
            PriorityQueue.put successor (to_Number (f_cost_ successor')) openlist)
    else Some st.

Fixpoint relax_edges (CalcHeuristic : CalcHeuristicFunc State) (goal_vtx current_vertex : Z)
    (edges : list Edge) (st : SearchState) : option SearchState :=
  match edges with
  | [] => Some st
  | edge :: rest =>
      st' ← relax_edge CalcHeuristic goal_vtx current_vertex edge st;
      relax_edges CalcHeuristic goal_vtx current_vertex rest st'
  end.

(** One pass through the body of the [while] loop of [PerformSearch]:
    [inl] is the state at the next loop test, [inr] the store at [break]. *)
Definition search_iter (CalcHeuristic : CalcHeuristicFunc State) (goal_vtx : Z)
    (st : SearchState) : option (SearchState + Graph State) :=
  let '(g, openlist) := st in
  '(current_vertex, openlist') ← PriorityQueue.get tie openlist;
  cv ← g !! current_vertex;
  if is_checked_ cv then Some (inl (g, openlist'))
  else if current_vertex =? goal_vtx then Some (inr g)
  else
    let g1 := <[current_vertex := mark_checked cv]> g in
    st' ← relax_edges CalcHeuristic goal_vtx current_vertex (edges_to_ cv) (g1, openlist');
    Some (inl st').

(** [while (!openlist.empty() && found_path != true)]: the result is the store
    and [found_path]; [None] when the fuel runs out or a step fails. *)
Fixpoint search_loop (CalcHeuristic : CalcHeuristicFunc State) (goal_vtx : Z)
    (fuel : nat) (st : SearchState) : option (Graph State * bool) :=
  if PriorityQueue.empty st.2 then Some (st.1, false)
  else
    match fuel with
    | O => None
    | S fuel' =>
        r ← search_iter CalcHeuristic goal_vtx st;
        match r with
        | inl st' => search_loop CalcHeuristic goal_vtx fuel' st'
        | inr g => Some (g, true)
        end
    end.

(** [ReconstructPath]: [acc] holds the way points pushed so far, goal first;
    the loop test comes before the fuel is looked at. *)
Fixpoint reconstruct_loop (g : Graph State) (start_vtx : Z) (fuel : nat)
    (waypoint : Z) (acc : list Z) : option (list Z) :=
  if waypoint =? start_vtx then Some (waypoint :: acc)
  else
    match fuel with
    | O => None
    | S fuel' =>
        wv ← g !! waypoint;
        parent ← search_parent_ wv;
        reconstruct_loop g start_vtx fuel' parent (waypoint :: acc)
    end.

(** The accumulator is consed, so it already is the reversed vector. *)
Definition ReconstructPath (g : Graph State) (start_vtx goal_vtx : Z) : option (list Z) :=
  reconstruct_loop g start_vtx (size g) goal_vtx [].

(** [for (auto &wp : path_vtx) path.push_back(wp->state_)] *)
Definition path_states (g : Graph State) (path_vtx : list Z) : option (Path State) :=
  mapM (fun wp => state_ <$> g !! wp) path_vtx.

(** The tail of [PerformSearch] and of [IncSearch]. *)
Definition finish (g : Graph State) (start_vtx goal_vtx : Z) (found_path : bool)
    : option (Graph State * Path State) :=
  if found_path
  then
    path_vtx ← ReconstructPath g start_vtx goal_vtx;
    path ← path_states g path_vtx;
    Some (g, path)
  else Some (g, []).

(** The open list and the store at the first loop test. *)
Definition seed (g : Graph State) (start_vtx : Z) : SearchState :=
  (alter seed_start start_vtx g, PriorityQueue.put start_vtx 0 []).

(** Every pass that goes on pops one entry, and only the expansion of a vertex
    pushes, one entry per outgoing edge at most: one more pass than there are
    edges suffices. *)
Definition search_fuel (g : Graph State) : nat := S (length (GetAllEdges g)).

(** [PerformSearch]: the store as the search leaves it, and the path. *)
Definition PerformSearch (g : Graph State) (start_vtx goal_vtx : Z)
    (CalcHeuristic : CalcHeuristicFunc State) : option (Graph State * Path State) :=
  '(g', found_path) ← search_loop CalcHeuristic goal_vtx (search_fuel g) (seed g start_vtx);
  finish g' start_vtx goal_vtx found_path.

(** [Search] on vertex ids. *)
Definition Search (g : Graph State) (start goal : Z)
    (calc_heuristic : CalcHeuristicFunc State) : option (Graph State * Path State) :=
  let g := ResetAllVertices g in
  match FindVertex start g, FindVertex goal g with
  | Some start_it, Some goal_it => PerformSearch g start_it goal_it calc_heuristic
  | _, _ => Some (g, [])
  end.

(** [for (auto &nb : neighbours) graph.AddEdge(current_vertex->state_, ...)] *)
Definition add_neighbours (s : State) (neighbours : list (State * Z)) (g : Graph State)
    : Graph State :=
  fold_left (fun g nb => AddEdge s nb.1 nb.2 g) neighbours g.

(** The state of the loop of [IncSearch]; its last component is a record of
    the states [get_neighbours] has been called with, latest first. *)
Abbreviation IncState := (Graph State * list PQElement * list State)%type.

(** One pass through the body of the [while] loop of [IncSearch]. *)
Definition inc_iter (get_neighbours : GetNeighbourFunc State)
    (calc_heuristic : CalcHeuristicFunc State) (goal_vtx : Z)
    (st : IncState) : option (IncState + Graph State * list State) :=
  let '(g, openlist, calls) := st in
  '(current_vertex, openlist') ← PriorityQueue.get tie openlist;
  cv ← g !! current_vertex;
  if is_checked_ cv then Some (inl (g, openlist', calls))
  else if current_vertex =? goal_vtx then Some (inr (g, calls))
  else
    let g1 := <[current_vertex := mark_checked cv]> g in
    let neighbours := get_neighbours (state_ cv) in
    let g2 := add_neighbours (state_ cv) neighbours g1 in
    cv2 ← g2 !! current_vertex;
    '(g3, openlist3) ← relax_edges calc_heuristic goal_vtx current_vertex (edges_to_ cv2) (g2, openlist');
    Some (inl (g3, openlist3, state_ cv :: calls)).

Fixpoint inc_loop (get_neighbours : GetNeighbourFunc State)
    (calc_heuristic : CalcHeuristicFunc State) (goal_vtx : Z)
    (fuel : nat) (st : IncState) : option (Graph State * list State * bool) :=
  if PriorityQueue.empty st.1.2 then Some (st.1.1, st.2, false)
  else
    match fuel with
    | O => None
    | S fuel' =>
        r ← inc_iter get_neighbours calc_heuristic goal_vtx st;
        match r with
        | inl st' => inc_loop get_neighbours calc_heuristic goal_vtx fuel' st'
        | inr (g, calls) => Some (g, calls, true)
        end
    end.

(** [IncSearch] with the graph it built and the record of the calls of
    [get_neighbours]; the neighbour function may describe a graph without
    end, so the number of passes is bounded by [fuel]. *)
Definition IncSearch_run (fuel : nat) (sstate gstate : State)
    (get_neighbours : GetNeighbourFunc State) (calc_heuristic : CalcHeuristicFunc State)
    : option (Graph State * Path State * list State) :=
  let '(g0, start_vtx) := AddVertex sstate ∅ in
  let '(g1, goal_vtx) := AddVertex gstate g0 in
  let '(g2, openlist) := seed g1 start_vtx in
  '(g', calls, found_path) ← inc_loop get_neighbours calc_heuristic goal_vtx fuel (g2, openlist, []);
  '(g'', path) ← finish g' start_vtx goal_vtx found_path;
  Some (g'', path, calls).

(** [IncSearch]: the path it returns. *)
Definition IncSearch (fuel : nat) (sstate gstate : State)
    (get_neighbours : GetNeighbourFunc State) (calc_heuristic : CalcHeuristicFunc State)
    : option (Path State) :=
  r ← IncSearch_run fuel sstate gstate get_neighbours calc_heuristic;
  Some r.1.2.

End Engine.
End AStar.

Global Arguments AStar.relax_edge : simpl never.
Global Arguments AStar.search_iter : simpl never.
Global Arguments AStar.inc_iter : simpl never.
Global Arguments PriorityQueue.get : simpl never.

(** ** Well-formed graphs, walks and the contract of the heuristic *)

Section Spec.
Context {State : Type} `{StateIndexer State}.

(** The predecessor list of the vertex [id] (empty when there is none). *)
Definition pred_of (g : Graph State) (id : Z) : list Z :=
  from_option vertices_from_ [] (g !! id).

(** What the mutators maintain for the vertex stored under [id]: the key is
    the identity of the state, no two edges go to the same destination, every
    edge starts here and its destination lists this vertex as a predecessor (so
    the destination is in the graph). *)
Definition vertex_wf (g : Graph State) (id : Z) (v : Vertex State) : Prop :=
  vertex_id_ v = id ∧ GetStateIndex (state_ v) = id ∧
  NoDup (dst_ <$> edges_to_ v) ∧
  Forall (fun e => src_ e = id ∧ id ∈ pred_of g (dst_ e)) (edges_to_ v).

Definition graph_wf (g : Graph State) : Prop := map_Forall (vertex_wf g) g.

(** [edge_in g u v c]: the vertex [u] owns an edge to [v] of cost [c]. *)
Definition edge_in (g : Graph State) (u v c : Z) : Prop :=
  ∃ uv e, g !! u = Some uv ∧ e ∈ edges_to_ uv ∧ dst_ e = v ∧ cost_ e = c.

(** [walk g u vs v c]: [vs] is the vertex sequence of a walk from [u] to [v]
    along stored edges whose costs add up to [c]. *)
Inductive walk (g : Graph State) : Z -> list Z -> Z -> Z -> Prop :=
| walk_one u : is_Some (g !! u) -> walk g u [u] u 0
| walk_cons u w vs v c1 c2 :
    edge_in g u w c1 -> walk g w vs v c2 -> walk g u (u :: vs) v (c1 + c2).

Definition reachable (g : Graph State) (u v : Z) : Prop := ∃ vs c, walk g u vs v c.

Definition nonneg_costs (g : Graph State) : Prop := ∀ u v c, edge_in g u v c -> 0 ≤ c.

(** The heuristic value of the vertex [u] for the goal vertex [goal]. *)
Definition h_at (g : Graph State) (h : CalcHeuristicFunc State) (goal u : Z) : option Z :=
  uv ← g !! u; gv ← g !! goal; Some (h (state_ uv) (state_ gv)).

(** Consistent: [h(u) ≤ cost(u,v) + h(v)] on every edge. *)
Definition consistent (g : Graph State) (h : CalcHeuristicFunc State) (goal : Z) : Prop :=
  ∀ u v c hu hv, edge_in g u v c -> h_at g h goal u = Some hu -> h_at g h goal v = Some hv ->
    hu ≤ c + hv.

(** Admissible: [h(u)] never exceeds the cost of a walk from [u] to the goal. *)
Definition admissible (g : Graph State) (h : CalcHeuristicFunc State) (goal : Z) : Prop :=
  ∀ u vs c hu, walk g u vs goal c -> h_at g h goal u = Some hu -> hu ≤ c.

(** The cost of the edge [FindEdge] gives for the ordered pair. *)
Definition edge_cost (g : Graph State) (u v : Z) : option Z :=
  uv ← g !! u; cost_ <$> find (fun e => dst_ e =? v) (edges_to_ uv).

(** The cost of a vertex sequence, edge by edge; [None] when it is empty or a
    step is not an edge of the graph. *)
Fixpoint path_cost (g : Graph State) (p : list Z) : option Z :=
  match p with
  | [] => None
  | u :: p' =>
      match p' with
      | [] => match g !! u with Some _ => Some 0 | None => None end
      | v :: _ => c ← edge_cost g u v; r ← path_cost g p'; Some (c + r)
      end
  end.

(** The vertex with its search fields left out. *)
Definition topology (v : Vertex State) : State * Z * list Edge * list Z :=
  (state_ v, vertex_id_ v, edges_to_ v, vertices_from_ v).

(** The two stores hold the same vertices with the same states and edges. *)
Definition same_topology (g g' : Graph State) : Prop :=
  ∀ id, topology <$> g' !! id = topology <$> g !! id.

(** C6 as the claim states it: the stored state after the two calls is [s1]. *)
Definition AddVertex_twice_claim (g : Graph State) (s1 s2 : State) : Prop :=
  let '(g1, r1) := AddVertex s1 g in
  let '(g2, r2) := AddVertex s2 g1 in
  r2 = r1 ∧ GetGraphVertexNumber g2 = GetGraphVertexNumber g1 ∧
  state_ <$> g2 !! r2 = Some s1.

(** The three per-search states of a vertex. *)
Inductive Phase := Unseen | Frontier | Expanded.

Definition phase (v : Vertex State) : Phase :=
  if is_checked_ v then Expanded else if is_in_openlist_ v then Frontier else Unseen.

Definition phase_le (p q : Phase) : Prop :=
  match p, q with
  | Unseen, _ => True
  | Frontier, (Frontier | Expanded) => True
  | Expanded, Expanded => True
  | _, _ => False
  end.

(** The entries of the open list for the vertex [id]. *)
Definition entries_of (id : Z) (openlist : list PQElement) : list PQElement :=
  filter (fun e => e.2 = id) openlist.

(** The search fields of a vertex. *)
Definition scratch (v : Vertex State) : bool * bool * Z * Z * Z * option Z :=
  (is_checked_ v, is_in_openlist_ v, f_cost_ v, g_cost_ v, h_cost_ v, search_parent_ v).

(** From the loop state [st] to the later loop state [st'], every vertex has
    moved forward or stayed, and a vertex that was expanded has kept its search
    fields and got no new entry in the open list. *)
Definition monotone_step (st st' : Graph State * list PQElement) : Prop :=
  ∀ id v, st.1 !! id = Some v ->
    ∃ v', st'.1 !! id = Some v' ∧ phase_le (phase v) (phase v') ∧
      (is_checked_ v = true ->
         scratch v' = scratch v ∧ entries_of id st'.2 `sublist_of` entries_of id st.2).

(** The loop states of [PerformSearch] that follow a given one. *)
Inductive search_steps (tie : TiePolicy) (h : CalcHeuristicFunc State) (goal_vtx : Z)
  : Graph State * list PQElement -> Graph State * list PQElement -> Prop :=
| search_steps_refl st : search_steps tie h goal_vtx st st
| search_steps_next st st' st'' :
    AStar.search_iter tie h goal_vtx st = Some (inl st') ->
    search_steps tie h goal_vtx st' st'' ->
    search_steps tie h goal_vtx st st''.

(** The loop states of [IncSearch] that follow a given one. *)
Inductive inc_steps (tie : TiePolicy) (nb : GetNeighbourFunc State)
    (h : CalcHeuristicFunc State) (goal_vtx : Z)
  : Graph State * list PQElement * list State ->
    Graph State * list PQElement * list State -> Prop :=
| inc_steps_refl st : inc_steps tie nb h goal_vtx st st
| inc_steps_next st st' st'' :
    AStar.inc_iter tie nb h goal_vtx st = Some (inl st') ->
    inc_steps tie nb h goal_vtx st' st'' ->
    inc_steps tie nb h goal_vtx st st''.

(** [parent_chain g start v vs]: following [search_parent_] from [v] back to
    [start] visits [vs], listed from [start] to [v]. *)
Inductive parent_chain (g : Graph State) (start : Z) : Z -> list Z -> Prop :=
| chain_start : parent_chain g start start [start]
| chain_step v vv u vs :
    v ≠ start -> g !! v = Some vv -> search_parent_ vv = Some u ->
    parent_chain g start u vs -> parent_chain g start v (vs ++ [v]).

(** The sums of a search from [start] are exact: the cost of a walk from
    [start] that visits no vertex twice, and that cost plus the heuristic
    value of its end, are at most [2^53] in magnitude, so that no sum in
    [Transition] wraps and no priority is rounded on its way to the open
    list. *)
Definition exact_costs (g : Graph State) (h : CalcHeuristicFunc State) (start goal : Z) : Prop :=
  ∀ vs v c hv, walk g start vs v c -> NoDup vs -> h_at g h goal v = Some hv ->
    Z.abs c ≤ 2 ^ 53 ∧ Z.abs (c + hv) ≤ 2 ^ 53.

(** The invariant of the loop of [PerformSearch] at the loop test, and, with a
    non-empty [pending], inside the [for] loop over the edges of the vertex
    [cur] under expansion.  [g0] is the store at the first loop test.  What
    the invariant says of the flags, the parents and the entries of the open
    list holds whatever the sums come to; what it says of the values of the
    costs holds when the sums are exact. *)
Record search_inv (g0 : Graph State) (h : CalcHeuristicFunc State) (start goal : Z)
    (cur : Z) (pending : list Edge) (g : Graph State) (q : list PQElement) : Prop := {
  inv_topo : same_topology g0 g;
  inv_wf : graph_wf g0;
  inv_start_in : is_Some (g0 !! start);
  inv_goal_in : is_Some (g0 !! goal);
  inv_goal : ∀ gv, g !! goal = Some gv -> is_checked_ gv = false;
  inv_start : ∀ sv, g !! start = Some sv ->
    g_cost_ sv = 0 ∧
    (is_checked_ sv = true ∨
     (is_in_openlist_ sv = true ∧ q = [(0, start)] ∧
      ∀ id v, g !! id = Some v ->
        is_checked_ v = false ∧ (is_in_openlist_ v = true -> id = start)));
  inv_queue : ∀ p id, (p, id) ∈ q ->
    ∃ v, g !! id = Some v ∧
      (is_checked_ v = true ∨
       (is_in_openlist_ v = true ∧
        (id = start ∨
         ∃ hv, h_at g0 h goal id = Some hv ∧
           (exact_costs g0 h start goal -> g_cost_ v + hv ≤ p))));
  inv_frontier : ∀ id v, g !! id = Some v ->
    is_checked_ v = false -> is_in_openlist_ v = true ->
    id = start ∨
    ∃ hv p, h_at g0 h goal id = Some hv ∧ (p, id) ∈ q ∧
      (exact_costs g0 h start goal -> p = g_cost_ v + hv);
  inv_chain : ∀ id v, g !! id = Some v ->
    is_checked_ v = true ∨ is_in_openlist_ v = true ->
    ∃ vs, parent_chain g start id vs ∧
      (∃ c, walk g0 start vs id c ∧ (exact_costs g0 h start goal -> g_cost_ v = c)) ∧
      NoDup vs ∧
      ∀ x, x ∈ vs -> x ≠ id -> ∃ xv, g !! x = Some xv ∧ is_checked_ xv = true;
  inv_relaxed : ∀ u uv e, g !! u = Some uv -> is_checked_ uv = true ->
    e ∈ edges_to_ uv ->
    (u = cur ∧ e ∈ pending) ∨
    ∃ dv, g !! dst_ e = Some dv ∧
      (is_checked_ dv = true ∨
       (is_in_openlist_ dv = true ∧
        (exact_costs g0 h start goal -> g_cost_ dv ≤ g_cost_ uv + cost_ e)));
  inv_pending : ∀ e, e ∈ pending ->
    ∃ cv, g !! cur = Some cv ∧ is_checked_ cv = true ∧ e ∈ edges_to_ cv
}.

(** The g-cost of an expanded vertex is the cost of a cheapest walk to it. *)
Definition opt_inv (g0 : Graph State) (start : Z) (g : Graph State) : Prop :=
  ∀ u uv, g !! u = Some uv -> is_checked_ uv = true ->
    ∀ vs c, walk g0 start vs u c -> g_cost_ uv ≤ c.

(** Edges yet to be looked at: those of the vertices not expanded. *)
Definition vertex_work (v : Vertex State) : nat :=
  if is_checked_ v then 0%nat else length (edges_to_ v).

Definition pending_work (g : Graph State) : nat :=
  sum_list_with (fun kv => vertex_work kv.2) (map_to_list g).

(** The loop state of [IncSearch] at the first loop test. *)
Definition inc_start (sstate gstate : State) : Graph State * list PQElement * list State :=
  (AStar.seed (AddVertex gstate (AddVertex sstate ∅).1).1 (GetStateIndex sstate), []).

(** Each vertex is stored under the identity of its state. *)
Definition keys_ok (g : Graph State) : Prop :=
  ∀ id v, g !! id = Some v -> GetStateIndex (state_ v) = id.

(** The store [gi] that [IncSearch] has built so far against the store [gb]
    of [PerformSearch] on a pre-built graph [G], at the same open list: the
    vertices [IncSearch] has created are vertices of [gb] in the same per-search
    state, own the edges of [gb] once they are expanded and none before, and
    the vertices it has not created are unseen in [gb]. *)
Record inc_sim (G : Graph State) (start goal : Z) (gi gb : Graph State)
    (q : list PQElement) : Prop := {
  sim_topo : same_topology G gb;
  sim_goal : is_Some (gi !! goal);
  sim_sub : ∀ id vi, gi !! id = Some vi ->
    ∃ vb, gb !! id = Some vb ∧ state_ vi = state_ vb ∧
      is_checked_ vi = is_checked_ vb ∧ is_in_openlist_ vi = is_in_openlist_ vb ∧
      (is_checked_ vi = true ∨ is_in_openlist_ vi = true ->
         g_cost_ vi = g_cost_ vb ∧ (id ≠ start -> search_parent_ vi = search_parent_ vb)) ∧
      edges_to_ vi = (if is_checked_ vi then edges_to_ vb else []);
  sim_unseen : ∀ id vb, gb !! id = Some vb -> gi !! id = None ->
    is_checked_ vb = false ∧ is_in_openlist_ vb = false;
  sim_queue : ∀ p id, (p, id) ∈ q ->
    ∃ vi, gi !! id = Some vi ∧ (is_checked_ vi = true ∨ is_in_openlist_ vi = true)
}.

(** What [AddEdge] does to the edge list of the source. *)
Definition upsert_edge (src dst c : Z) (es : list Edge) : list Edge :=
  if has_edge_to dst es then update_edge_cost dst c es else es ++ [mkEdge src dst c].

(** The edge list that the calls of [AddEdge] for the neighbours of a vertex
    build. *)
Definition edges_of_neighbours (src : Z) (neighbours : list (State * Z)) : list Edge :=
  fold_left (fun es nb => upsert_edge src (GetStateIndex nb.1) nb.2 es) neighbours [].

(** [prebuilt] but for the vertex [goal], whose neighbours no search asks
    for. *)
Definition prebuilt_off (goal : Z) (nb : GetNeighbourFunc State) (g : Graph State) : Prop :=
  ∀ id v, g !! id = Some v -> id ≠ goal ->
    edges_to_ v = edges_of_neighbours id (nb (state_ v)) ∧
    Forall (fun sc => state_ <$> g !! GetStateIndex sc.1 = Some sc.1) (nb (state_ v)).

(** [g] is a pre-built graph of the neighbour function: each vertex owns the
    edges that [AddEdge] builds from its neighbours, and each neighbour is the
    state of the vertex of its identity. *)
Definition prebuilt (nb : GetNeighbourFunc State) (g : Graph State) : Prop :=
  map_Forall (fun id v =>
    edges_to_ v = edges_of_neighbours id (nb (state_ v)) ∧
    Forall (fun sc => state_ <$> g !! GetStateIndex sc.1 = Some sc.1) (nb (state_ v))) g.

(** [g] holds exactly the vertices and edges that the neighbour function
    describes: each vertex owns the edges that [AddEdge] builds from its
    neighbours, in whatever order they were added, and each neighbour is the
    state of the vertex of its identity. *)
Definition describes (nb : GetNeighbourFunc State) (g : Graph State) : Prop :=
  map_Forall (fun id v =>
    edges_to_ v ≡ₚ edges_of_neighbours id (nb (state_ v)) ∧
    Forall (fun sc => state_ <$> g !! GetStateIndex sc.1 = Some sc.1) (nb (state_ v))) g.

(** C1 as the claim states it: with non-negative costs and a consistent and
    admissible heuristic, whatever the size of the costs, the path that
    [Search] returns to a reachable goal costs no more than any walk from the
    start to the goal. *)
Definition Search_shortest_claim (tie : TiePolicy) (h : CalcHeuristicFunc State)
    (g : Graph State) (start goal : Z) : Prop :=
  graph_wf g -> nonneg_costs g -> consistent g h goal -> admissible g h goal ->
  reachable g start goal ->
  ∃ g' path c, AStar.Search tie g start goal h = Some (g', path) ∧
    path_cost g (GetStateIndex <$> path) = Some c ∧
    ∀ vs w, walk g start vs goal w -> c ≤ w.


End Spec.

(** ** The graph of the concrete scenario *)

Definition scenario_graph : Graph Z :=
  AddEdge 4 5 1 (AddEdge 3 4 1 (AddEdge 1 3 5 (AddEdge 2 3 1 (AddEdge 1 2 1 ∅)))).

Definition zero_heuristic : CalcHeuristicFunc Z := fun _ _ => 0.

Definition scenario_neighbours : GetNeighbourFunc Z := fun s =>
  if s =? 1 then [(2, 1); (3, 5)]
  else if s =? 2 then [(3, 1)]
  else if s =? 3 then [(4, 1)]
  else if s =? 4 then [(5, 1)]
  else [].

(** A policy for ties: the entry put first. *)
Definition first_put : TiePolicy := fun _ => 0%nat.

(** Costs within [int64_t] whose sum along 1, 3, 2 leaves it: [2^62 + 2^62]
    wraps to [-2^63], below the cost [2^63 - 1] of the edge from 1 to 2. *)
Definition overflow_graph : Graph Z :=
  AddEdge 3 2 (2 ^ 62) (AddEdge 1 3 (2 ^ 62) (AddEdge 1 2 (2 ^ 63 - 1) ∅)).

(** Costs whose priorities meet in one [double]: [2^53 + 1] is rounded to
    [2^53]. *)
Definition rounding_graph : Graph Z :=
  AddEdge 4 2 0 (AddEdge 1 4 (2 ^ 53) (AddEdge 1 2 (2 ^ 53 + 1) ∅)).



(** States that carry a payload next to their identity. *)
#[export] Instance tagged_indexer : StateIndexer (Z * Z) := fun s => s.1.

(** A neighbour function that differs from [scenario_neighbours] at the goal
    state 5 only. *)
Definition detour_neighbours : GetNeighbourFunc Z := fun s =>
  if s =? 5 then [(1, 7)] else scenario_neighbours s.

(** A graph that already holds a vertex of identity 1. *)
Definition tagged_graph : Graph (Z * Z) := (AddVertex (1, 0) ∅).1.

(** ** Notions for the further properties of the engine *)

Section SearchNotions.
Context {State : Type} `{StateIndexer State}.

(** A vertex the search has reached: on the open list, or expanded. *)
Definition reached (v : Vertex State) : Prop :=
  is_checked_ v = true ∨ is_in_openlist_ v = true.

(** No vertex carries a flag of a search: the state [PerformSearch] expects
    the store in. *)
Definition flags_clear (g : Graph State) : Prop :=
  ∀ id v, g !! id = Some v -> is_checked_ v = false ∧ is_in_openlist_ v = false.

(** From the store [g] to the later store [g'], the g-cost of a reached vertex
    has not grown. *)
Definition cost_step (g g' : Graph State) : Prop :=
  ∀ id v, g !! id = Some v -> reached v ->
    ∃ v', g' !! id = Some v' ∧ reached v' ∧ g_cost_ v' ≤ g_cost_ v.

(** The cost fields of the reached vertices other than the start: [h_cost_]
    is the heuristic value for the goal, and [f_cost_] is the sum of the two
    others, taken in [Transition]. *)
Definition costs_booked (h : CalcHeuristicFunc State) (start goal : Z)
    (g : Graph State) : Prop :=
  ∀ id v, g !! id = Some v -> id ≠ start -> reached v ->
    h_at g h goal id = Some (h_cost_ v) ∧
    f_cost_ v = Transition_add (g_cost_ v) (h_cost_ v).

(** The f-value of an expanded vertex (its g-cost plus its heuristic value) is
    at most the cost of any walk of [g0] from the start to the goal, plus the
    heuristic value of the goal itself. *)
Definition within_optimum (g0 : Graph State) (h : CalcHeuristicFunc State)
    (start goal : Z) (g : Graph State) : Prop :=
  ∀ u uv hu hg vs w, g !! u = Some uv -> is_checked_ uv = true ->
    h_at g0 h goal u = Some hu -> h_at g0 h goal goal = Some hg ->
    walk g0 start vs goal w -> g_cost_ uv + hu ≤ w + hg.

(** Two stores of one topology that a search cannot tell apart: each vertex is
    in the same per-search state in both, and a reached vertex holds the same
    g-cost and, the start apart, the same parent; the cost fields and parents of
    the other vertices may differ.  The entries of the open list are of reached
    vertices. *)
Record stale_sim (start : Z) (g1 g2 : Graph State) (q : list PQElement) : Prop := {
  stale_topo : same_topology g1 g2;
  stale_flags : ∀ id v1 v2, g1 !! id = Some v1 -> g2 !! id = Some v2 ->
    is_checked_ v1 = is_checked_ v2 ∧ is_in_openlist_ v1 = is_in_openlist_ v2 ∧
    (reached v1 ->
       g_cost_ v1 = g_cost_ v2 ∧ (id ≠ start -> search_parent_ v1 = search_parent_ v2));
  stale_queue : ∀ p id, (p, id) ∈ q -> ∃ v1, g1 !! id = Some v1 ∧ reached v1
}.

(** The invariant of the loop of [IncSearch] on the graph it builds: each
    vertex is stored under the identity of its state, a vertex not yet expanded
    owns no edge, the entries of the open list are of reached vertices, and the
    parent of a reached vertex other than the start is an expanded vertex whose
    state has a neighbour of the identity of that vertex. *)
Record inc_inv (nb : GetNeighbourFunc State) (start : Z) (g : Graph State)
    (q : list PQElement) : Prop := {
  inc_keys : keys_ok g;
  inc_edgeless : ∀ id v, g !! id = Some v -> is_checked_ v = false -> edges_to_ v = [];
  inc_queue : ∀ p id, (p, id) ∈ q -> ∃ v, g !! id = Some v ∧ reached v;
  inc_parent : ∀ id v, g !! id = Some v -> reached v -> id ≠ start ->
    ∃ u uv sc, search_parent_ v = Some u ∧ g !! u = Some uv ∧ is_checked_ uv = true ∧
      sc ∈ nb (state_ uv) ∧ GetStateIndex sc.1 = id
}.

(** Each vertex of the store is the start, the goal, or of the identity of a
    neighbour listed for a state that [get_neighbours] has been called with. *)
Definition built_from_calls (nb : GetNeighbourFunc State) (start goal : Z)
    (g : Graph State) (calls : list State) : Prop :=
  ∀ id v, g !! id = Some v ->
    id = start ∨ id = goal ∨ ∃ s sc, s ∈ calls ∧ sc ∈ nb s ∧ GetStateIndex sc.1 = id.

(** The record of the calls of [get_neighbours] against the store of
    [IncSearch]: one call for each expanded vertex, on its state. *)
Definition calls_inv (g : Graph State) (calls : list State) : Prop :=
  NoDup (GetStateIndex <$> calls) ∧
  (∀ s, s ∈ calls ->
     ∃ v, g !! GetStateIndex s = Some v ∧ state_ v = s ∧ is_checked_ v = true) ∧
  (∀ id v, g !! id = Some v -> is_checked_ v = true -> state_ v ∈ calls).

(** The graphs that calls of the mutators build from the empty graph. *)
Inductive built : Graph State -> Prop :=
| built_empty : built ∅
| built_AddVertex s g : built g -> built (AddVertex s g).1
| built_AddEdge a b c g : built g -> built (AddEdge a b c g)
| built_RemoveVertex id g : built g -> built (RemoveVertex id g).

End SearchNotions.

(** The store that [Search(1,5)] leaves on the graph of the scenario. *)
Definition scenario_searched : Graph Z :=
  from_option fst ∅ (AStar.Search first_put scenario_graph 1 5 zero_heuristic).

(** ** Decidability of well-formedness *)

#[export] Instance Edge_eq_dec : EqDecision Edge.
Proof. solve_decision. Defined.

#[export] Instance prebuilt_dec {State : Type} `{StateIndexer State} `{EqDecision State}
  (nb : GetNeighbourFunc State) (g : Graph State) : Decision (prebuilt nb g).
Proof. unfold prebuilt. apply _. Defined.

#[export] Instance describes_dec {State : Type} `{StateIndexer State} `{EqDecision State}
  (nb : GetNeighbourFunc State) (g : Graph State) : Decision (describes nb g).
Proof. unfold describes. apply _. Defined.

#[export] Instance vertex_wf_dec {State : Type} `{StateIndexer State}
  (g : Graph State) id v : Decision (vertex_wf g id v).
Proof. unfold vertex_wf. apply _. Defined.

#[export] Instance graph_wf_dec {State : Type} `{StateIndexer State}
  (g : Graph State) : Decision (graph_wf g).
Proof. unfold graph_wf. apply _. Defined.

Lemma scenario_graph_wf : graph_wf scenario_graph.
Proof. apply (bool_decide_unpack _). vm_compute. reflexivity. Qed.

(** ** The concrete scenario and the degenerate search *)

(** C4: on the graph with vertices 1..5 and edges (1,2,1) (2,3,1) (1,3,5)
    (3,4,1) (4,5,1), with the zero heuristic and whatever the tie policy,
    [Search(1,5)] returns the path [1,2,3,4,5] and leaves the g-cost 4 at the
    goal vertex. *)
Theorem Search_scenario (tie : TiePolicy) :
  ∃ g', AStar.Search tie scenario_graph 1 5 zero_heuristic = Some (g', [1; 2; 3; 4; 5])
        ∧ g_cost_ <$> g' !! 5 = Some 4.
Proof.
  eexists. split.
  - vm_compute. reflexivity.
  - vm_compute. reflexivity.
Qed.

(** ** The graph container: vertices *)

Section ContainerFacts.
Context {State : Type} `{StateIndexer State}.
Implicit Types (g : Graph State) (v : Vertex State) (s : State).

Lemma ObtainVertex_present s g v :
  g !! GetStateIndex s = Some v ->
  ObtainVertexFromVertexMap s g = (g, GetStateIndex s).
Proof. intros Hv. unfold ObtainVertexFromVertexMap. by rewrite Hv. Qed.

Lemma ObtainVertex_absent s g :
  g !! GetStateIndex s = None ->
  ObtainVertexFromVertexMap s g =
    (<[GetStateIndex s := new_vertex s (GetStateIndex s)]> g, GetStateIndex s).
Proof. intros Hv. unfold ObtainVertexFromVertexMap. by rewrite Hv. Qed.

Lemma ObtainVertex_ref s g : (ObtainVertexFromVertexMap s g).2 = GetStateIndex s.
Proof. unfold ObtainVertexFromVertexMap. by destruct (g !! _). Qed.

Lemma ObtainVertex_is_Some s g :
  is_Some ((ObtainVertexFromVertexMap s g).1 !! GetStateIndex s).
Proof.
  unfold ObtainVertexFromVertexMap.
  destruct (g !! GetStateIndex s) eqn:E; simpl; [by rewrite E|].
  rewrite lookup_insert_eq. eauto.
Qed.

Lemma ObtainVertex_old s g id v :
  g !! id = Some v -> (ObtainVertexFromVertexMap s g).1 !! id = Some v.
Proof.
  intros Hv. unfold ObtainVertexFromVertexMap.
  destruct (g !! GetStateIndex s) eqn:E; simpl; [done|].
  rewrite lookup_insert_ne; [done|]. intros Heq. rewrite <- Heq in Hv. congruence.
Qed.

(** Whatever is stored after [ObtainVertexFromVertexMap] was there before or
    is the fresh vertex of the state. *)
Lemma ObtainVertex_lookup s g id v :
  (ObtainVertexFromVertexMap s g).1 !! id = Some v ->
  g !! id = Some v ∨
  (g !! id = None ∧ id = GetStateIndex s ∧ v = new_vertex s (GetStateIndex s)).
Proof.
  unfold ObtainVertexFromVertexMap.
  destruct (g !! GetStateIndex s) eqn:E; simpl; [by left|].
  rewrite lookup_insert. case_decide as Hd.
  - intros [= <-]. subst id. right. done.
  - by left.
Qed.

(** C6 as amended: for states [s1], [s2] of one identity, [AddVertex(s1)] then
    [AddVertex(s2)] return the same reference, the second call leaves the graph
    (so the vertex count and the stored vertex) as the first call left it, and
    the stored state is [s1] when the identity was absent before the first
    call and is the state that was there before otherwise. *)
Theorem AddVertex_idempotent g s1 s2 :
  GetStateIndex s1 = GetStateIndex s2 ->
  let '(g1, r1) := AddVertex s1 g in
  let '(g2, r2) := AddVertex s2 g1 in
  r2 = r1 ∧ g2 = g1 ∧
  GetGraphVertexNumber g2 = GetGraphVertexNumber g1 ∧
  state_ <$> g2 !! r2 = state_ <$> g1 !! r1 ∧
  (g !! GetStateIndex s1 = None -> state_ <$> g2 !! r2 = Some s1) ∧
  (∀ v, g !! GetStateIndex s1 = Some v -> g2 !! r2 = Some v).
Proof.
  intros Hid. unfold AddVertex.
  destruct (ObtainVertexFromVertexMap s1 g) as [g1 r1] eqn:E1.
  pose proof (ObtainVertex_is_Some s1 g) as [v1 Hv1]. rewrite E1 in Hv1. simpl in Hv1.
  pose proof (ObtainVertex_ref s1 g) as Hr1. rewrite E1 in Hr1. simpl in Hr1.
  rewrite Hid in Hv1. rewrite (ObtainVertex_present s2 g1 v1 Hv1).
  subst r1. rewrite Hid. repeat split; try done.
  - intros Hnone. rewrite <- Hid in Hnone.
    rewrite (ObtainVertex_absent _ _ Hnone) in E1. injection E1 as <-.
    rewrite <- Hid. by rewrite lookup_insert_eq.
  - intros v Hv. rewrite <- Hid in Hv.
    rewrite (ObtainVertex_present _ _ _ Hv) in E1. injection E1 as <-.
    by rewrite <- Hid.
Qed.

End ContainerFacts.

(** ** The graph container: edges *)

Section EdgeFacts.
Context {State : Type} `{StateIndexer State}.
Implicit Types (g : Graph State) (v : Vertex State) (s : State) (es : list Edge).

Lemma elem_of_GetAllEdges g e :
  e ∈ GetAllEdges g ↔ ∃ id v, g !! id = Some v ∧ e ∈ edges_to_ v.
Proof.
  unfold GetAllEdges. rewrite list_elem_of_bind. split.
  - intros [[id v] [He Hin]]. apply elem_of_map_to_list in Hin. eauto.
  - intros (id & v & Hv & He). exists (id, v). split; [done|].
    by apply elem_of_map_to_list.
Qed.

Lemma GetAllEdges_lookup g id v :
  g !! id = Some v -> GetAllEdges g ≡ₚ edges_to_ v ++ GetAllEdges (delete id g).
Proof.
  intros Hv. unfold GetAllEdges.
  rewrite <- (map_to_list_delete g id v Hv). by rewrite bind_cons.
Qed.

Lemma GetAllEdges_insert_new g id v :
  g !! id = None -> GetAllEdges (<[id := v]> g) ≡ₚ edges_to_ v ++ GetAllEdges g.
Proof.
  intros Hv. unfold GetAllEdges.
  rewrite (map_to_list_insert g id v Hv). by rewrite bind_cons.
Qed.

Lemma GetAllEdges_insert g id v v' :
  g !! id = Some v ->
  GetAllEdges (<[id := v']> g) ≡ₚ edges_to_ v' ++ GetAllEdges (delete id g).
Proof.
  intros Hv. rewrite <- (insert_delete_eq g).
  apply GetAllEdges_insert_new. apply lookup_delete_eq.
Qed.

Lemma alter_as_insert (f : Vertex State -> Vertex State) g id v :
  g !! id = Some v -> alter f id g = <[id := f v]> g.
Proof.
  intros Hv. apply map_eq. intros j. rewrite lookup_alter, lookup_insert.
  case_decide; [subst; by rewrite Hv|done].
Qed.

Lemma has_edge_to_true d es : has_edge_to d es = true ↔ d ∈ dst_ <$> es.
Proof.
  unfold has_edge_to. rewrite existsb_exists, list_elem_of_fmap. split.
  - intros (e & He & Hd). exists e. split; [lia|]. by apply list_elem_of_In.
  - intros (e & Hd & He). exists e. split; [by apply list_elem_of_In|lia].
Qed.

Lemma has_edge_to_false d es : has_edge_to d es = false ↔ d ∉ dst_ <$> es.
Proof.
  rewrite <- has_edge_to_true. destruct (has_edge_to d es); split; congruence.
Qed.

Lemma update_edge_cost_dst d c es : dst_ <$> update_edge_cost d c es = dst_ <$> es.
Proof.
  induction es as [|e es IH]; [done|]. csimpl.
  destruct (dst_ e =? d); csimpl; [done|]. by rewrite IH.
Qed.

Lemma update_edge_cost_length d c es : length (update_edge_cost d c es) = length es.
Proof.
  induction es as [|e es IH]; [done|]. simpl.
  destruct (dst_ e =? d); simpl; [done|]. by rewrite IH.
Qed.

Lemma update_edge_cost_elem d c es e :
  e ∈ update_edge_cost d c es -> ∃ e', e' ∈ es ∧ src_ e = src_ e' ∧ dst_ e = dst_ e'.
Proof.
  induction es as [|x es IH]; simpl; [by intros ?%elem_of_nil|].
  destruct (dst_ x =? d).
  - intros [->|Hin]%elem_of_cons.
    + exists x. split; [left|done].
    + exists e. split; [by right|done].
  - intros [->|Hin]%elem_of_cons.
    + exists x. split; [left|done].
    + destruct (IH Hin) as (e' & ? & ?). exists e'. split; [by right|done].
Qed.

(** With one edge per destination, the updated list holds one edge to [d],
    and it carries the new cost. *)
Lemma update_edge_cost_filter src d c es :
  NoDup (dst_ <$> es) -> d ∈ dst_ <$> es -> Forall (fun e => src_ e = src) es ->
  filter (fun e => src_ e = src ∧ dst_ e = d) (update_edge_cost d c es) = [mkEdge src d c].
Proof.
  induction es as [|x es IH]; csimpl; intros Hnd Hin Hsrc.
  - by apply elem_of_nil in Hin.
  - apply NoDup_cons in Hnd as [Hx Hnd]. apply Forall_cons in Hsrc as [Hxs Hsrc].
    destruct (Z.eqb_spec (dst_ x) d) as [Hd|Hd].
    + rewrite filter_cons_True by (simpl; done). subst d src. f_equal.
      clear IH Hin Hnd. induction es as [|y es IH]; [done|].
      rewrite filter_cons_False.
      * apply IH; [|by apply Forall_cons in Hsrc as [_ ?]].
        intros Hc. apply Hx. csimpl. by right.
      * intros [_ Hy]. apply Hx. csimpl. rewrite Hy. left.
    + rewrite filter_cons_False by (intros [_ ?]; done).
      apply IH; [done| |done].
      apply elem_of_cons in Hin as [Hin|Hin]; [congruence|done].
Qed.

Lemma pred_of_insert_new g id v d :
  g !! id = None -> is_Some (g !! d) -> pred_of (<[id := v]> g) d = pred_of g d.
Proof.
  intros Hid Hd. unfold pred_of. rewrite lookup_insert_ne; [done|].
  intros ->. rewrite Hid in Hd. by destruct Hd.
Qed.

Lemma pred_of_elem g id d : id ∈ pred_of g d -> is_Some (g !! d).
Proof.
  unfold pred_of. destruct (g !! d); [eauto|]. simpl. by intros ?%elem_of_nil.
Qed.

(** A vertex stays well formed when predecessor lists only grow. *)
Lemma vertex_wf_mono g g' id v :
  vertex_wf g id v -> (∀ d, pred_of g d ⊆ pred_of g' d) -> vertex_wf g' id v.
Proof.
  intros (Hid & Hst & Hnd & Hes) Hsub. repeat split; try done.
  eapply Forall_impl; [exact Hes|]. intros e [Hs Hp]. split; [done|]. by apply Hsub.
Qed.

Lemma graph_wf_empty : graph_wf (∅ : Graph State).
Proof. apply map_Forall_empty. Qed.

Lemma graph_wf_lookup g id v : graph_wf g -> g !! id = Some v -> vertex_wf g id v.
Proof. intros Hwf Hv. exact (Hwf id v Hv). Qed.

Lemma graph_wf_edge g id v e :
  graph_wf g -> g !! id = Some v -> e ∈ edges_to_ v ->
  src_ e = id ∧ is_Some (g !! dst_ e).
Proof.
  intros Hwf Hv He. destruct (Hwf id v Hv) as (_ & _ & _ & Hes).
  rewrite Forall_forall in Hes. destruct (Hes e He) as [Hs Hp].
  split; [done|]. by eapply pred_of_elem.
Qed.

Lemma graph_wf_ObtainVertex s g :
  graph_wf g -> graph_wf (ObtainVertexFromVertexMap s g).1.
Proof.
  intros Hwf. unfold ObtainVertexFromVertexMap.
  destruct (g !! GetStateIndex s) eqn:E; simpl; [done|].
  apply map_Forall_insert; [done|]. split.
  - repeat split; simpl; try done. apply NoDup_nil_2.
  - intros id v Hv. eapply vertex_wf_mono; [by apply Hwf|].
    intros d x Hx. rewrite pred_of_insert_new; [done..|]. by eapply pred_of_elem.
Qed.

Lemma pred_of_alter_edges (f : list Edge -> list Edge) g id d :
  pred_of (alter (set_edges_to f) id g) d = pred_of g d.
Proof.
  unfold pred_of. rewrite lookup_alter. case_decide; [subst|done].
  by destruct (g !! d).
Qed.

Lemma pred_of_alter_from (f : list Z -> list Z) g id d :
  (∀ l, l ⊆ f l) -> pred_of g d ⊆ pred_of (alter (set_vertices_from f) id g) d.
Proof.
  intros Hf. unfold pred_of. rewrite lookup_alter. case_decide; [subst|done].
  destruct (g !! d); simpl; [apply Hf|done].
Qed.

(** [AddEdge] keeps the graph well formed. *)
Lemma graph_wf_AddEdge a b c g : graph_wf g -> graph_wf (AddEdge a b c g).
Proof.
  intros Hwf. unfold AddEdge.
  destruct (ObtainVertexFromVertexMap a g) as [g1 src] eqn:E1.
  destruct (ObtainVertexFromVertexMap b g1) as [g2 dst] eqn:E2.
  pose proof (graph_wf_ObtainVertex a g Hwf) as Hwf1. rewrite E1 in Hwf1. simpl in Hwf1.
  pose proof (graph_wf_ObtainVertex b g1 Hwf1) as Hwf2. rewrite E2 in Hwf2. simpl in Hwf2.
  pose proof (ObtainVertex_is_Some b g1) as [dv Hdv]. rewrite E2 in Hdv. simpl in Hdv.
  pose proof (ObtainVertex_ref b g1) as Hdst. rewrite E2 in Hdst. simpl in Hdst.
  rewrite <- Hdst in Hdv. clear E1 E2 Hwf Hwf1 Hdst.
  destruct (g2 !! src) as [sv|] eqn:Hsv; [|done].
  destruct (Hwf2 src sv Hsv) as (Hid & Hst & Hnd & Hes).
  destruct (has_edge_to dst (edges_to_ sv)) eqn:Hhas.
  - intros id v Hv. rewrite lookup_alter in Hv. case_decide as Hd.
    + subst id. rewrite Hsv in Hv. injection Hv as <-.
      repeat split; simpl; try done.
      * by rewrite update_edge_cost_dst.
      * apply Forall_forall. intros e He.
        apply update_edge_cost_elem in He as (e' & He' & Hs & Hd).
        rewrite Forall_forall in Hes. destruct (Hes e' He') as [? ?].
        rewrite Hs, Hd, pred_of_alter_edges. done.
    + eapply vertex_wf_mono; [by apply Hwf2|].
      intros d. by rewrite pred_of_alter_edges.
  - apply has_edge_to_false in Hhas.
    assert (Hmono : ∀ d, pred_of g2 d ⊆
      pred_of (alter (set_vertices_from (fun l => l ++ [src])) dst
                 (alter (set_edges_to (fun l => l ++ [mkEdge src dst c])) src g2)) d).
    { intros d. etrans; [|apply pred_of_alter_from].
      - by rewrite pred_of_alter_edges.
      - intros l x Hx. apply elem_of_app. by left. }
    assert (Hnew : src ∈
      pred_of (alter (set_vertices_from (fun l => l ++ [src])) dst
                 (alter (set_edges_to (fun l => l ++ [mkEdge src dst c])) src g2)) dst).
    { unfold pred_of. rewrite lookup_alter_eq, lookup_alter.
      case_decide; [subst; rewrite Hsv|rewrite Hdv]; simpl;
        apply elem_of_app; right; apply list_elem_of_singleton; done. }
    intros id v Hv.
    assert (Hcase : (id = src ∧ topology v =
               (state_ sv, vertex_id_ sv, edges_to_ sv ++ [mkEdge src dst c], vertices_from_ v))
            ∨ (id ≠ src ∧ ∃ v0, g2 !! id = Some v0 ∧ state_ v = state_ v0 ∧
                 vertex_id_ v = vertex_id_ v0 ∧ edges_to_ v = edges_to_ v0)).
    { rewrite lookup_alter in Hv. case_decide as Hd1.
      - subst id. rewrite lookup_alter in Hv. case_decide as Hd2.
        + subst dst. rewrite Hsv in Hv. simpl in Hv. injection Hv as <-. by left.
        + rewrite Hdv in Hv. simpl in Hv. injection Hv as <-. right.
          split; [congruence|]. by exists dv.
      - rewrite lookup_alter in Hv. case_decide as Hd2.
        + subst id. rewrite Hsv in Hv. simpl in Hv. injection Hv as <-. by left.
        + right. split; [congruence|]. by exists v. }
    destruct Hcase as [[-> Ht]|(Hne & v0 & Hv0 & Hs0 & Hi0 & He0)].
    + unfold topology in Ht. injection Ht as Hs' Hi' He'.
      repeat split; try congruence.
      * rewrite He', fmap_app. apply NoDup_app. repeat split; [done| |apply NoDup_singleton].
        intros x Hx [= ->]%list_elem_of_singleton. done.
      * rewrite He'. apply Forall_app. split.
        -- eapply Forall_impl; [exact Hes|]. intros e [? ?]. split; [done|]. by apply Hmono.
        -- apply Forall_singleton. done.
    + destruct (Hwf2 id v0 Hv0) as (Hid0 & Hst0 & Hnd0 & Hes0).
      repeat split; try congruence.
      rewrite He0. eapply Forall_impl; [exact Hes0|].
      intros e [? ?]. split; [done|]. by apply Hmono.
Qed.

Lemma graph_wf_AddVertex s g : graph_wf g -> graph_wf (AddVertex s g).1.
Proof. apply graph_wf_ObtainVertex. Qed.

End EdgeFacts.

(** ** Edge upsert and vertex removal *)

Section UpsertRemove.
Context {State : Type} `{StateIndexer State}.
Implicit Types (g : Graph State) (v : Vertex State) (s : State) (es : list Edge).

Lemma filter_none {A} (P : A -> Prop) `{∀ x, Decision (P x)} (l : list A) :
  (∀ x, x ∈ l -> ¬ P x) -> filter P l = [].
Proof.
  induction l as [|x l IH]; intros Hl; [done|].
  rewrite filter_cons_False by (apply Hl; left).
  apply IH. intros y Hy. apply Hl. by right.
Qed.

(** After [AddEdge(a, b, c)] the vertex of [a] owns an edge to the vertex of [b]. *)
Lemma AddEdge_edge_present a b c g :
  ∃ sv, AddEdge a b c g !! GetStateIndex a = Some sv ∧
        GetStateIndex b ∈ dst_ <$> edges_to_ sv.
Proof.
  unfold AddEdge.
  destruct (ObtainVertexFromVertexMap a g) as [g1 src] eqn:E1.
  destruct (ObtainVertexFromVertexMap b g1) as [g2 dst] eqn:E2.
  pose proof (ObtainVertex_is_Some a g) as [sv0 Hsv0]. rewrite E1 in Hsv0. simpl in Hsv0.
  pose proof (ObtainVertex_ref a g) as Hsrc. rewrite E1 in Hsrc. simpl in Hsrc.
  pose proof (ObtainVertex_old b g1 _ _ Hsv0) as Hsv. rewrite E2 in Hsv. simpl in Hsv.
  pose proof (ObtainVertex_is_Some b g1) as [dv Hdv]. rewrite E2 in Hdv. simpl in Hdv.
  pose proof (ObtainVertex_ref b g1) as Hdst. rewrite E2 in Hdst. simpl in Hdst.
  subst src dst. rewrite Hsv.
  destruct (has_edge_to (GetStateIndex b) (edges_to_ sv0)) eqn:Hhas.
  - apply has_edge_to_true in Hhas. rewrite lookup_alter_eq, Hsv. simpl.
    eexists. split; [done|]. simpl. by rewrite update_edge_cost_dst.
  - rewrite lookup_alter. case_decide as Hd.
    + rewrite Hd, lookup_alter_eq, Hsv. simpl. eexists. split; [done|]. simpl.
      rewrite fmap_app. apply elem_of_app. right. apply list_elem_of_singleton. done.
    + rewrite lookup_alter_eq, Hsv. simpl. eexists. split; [done|]. simpl.
      rewrite fmap_app. apply elem_of_app. right. by apply list_elem_of_singleton.
Qed.

(** [AddEdge] on an ordered pair that is connected updates the cost in place. *)
Lemma AddEdge_existing a b c g sv :
  g !! GetStateIndex a = Some sv -> is_Some (g !! GetStateIndex b) ->
  GetStateIndex b ∈ dst_ <$> edges_to_ sv ->
  AddEdge a b c g =
    <[GetStateIndex a := set_edges_to (update_edge_cost (GetStateIndex b) c) sv]> g.
Proof.
  intros Hsv [dv Hdv] Hin. unfold AddEdge.
  rewrite (ObtainVertex_present a g sv Hsv), (ObtainVertex_present b g dv Hdv), Hsv.
  apply has_edge_to_true in Hin. rewrite Hin. by apply alter_as_insert.
Qed.

(** C5: on a well-formed graph, [AddEdge(a, b, c1)] then [AddEdge(a, b, c2)]
    leave exactly one edge for the ordered pair, of cost [c2]; the edge count is
    the one after the first call; and no vertex owns two edges to the same
    destination (the graph stays well formed). *)
Theorem AddEdge_upsert g a b c1 c2 :
  graph_wf g ->
  let g1 := AddEdge a b c1 g in
  let g2 := AddEdge a b c2 g1 in
  filter (fun e => src_ e = GetStateIndex a ∧ dst_ e = GetStateIndex b) (GetAllEdges g2)
    = [mkEdge (GetStateIndex a) (GetStateIndex b) c2] ∧
  GetGraphEdgeNumber g2 = GetGraphEdgeNumber g1 ∧
  graph_wf g2.
Proof.
  intros Hwf g1 g2.
  assert (Hwf1 : graph_wf g1) by by apply graph_wf_AddEdge.
  destruct (AddEdge_edge_present a b c1 g) as (sv & Hsv & Hin). fold g1 in Hsv.
  destruct (Hwf1 _ _ Hsv) as (_ & _ & Hnd & Hes).
  assert (Hb : is_Some (g1 !! GetStateIndex b)).
  { apply list_elem_of_fmap in Hin as (e & -> & He).
    by destruct (graph_wf_edge g1 _ _ e Hwf1 Hsv He). }
  assert (Hg2 : g2 = <[GetStateIndex a :=
            set_edges_to (update_edge_cost (GetStateIndex b) c2) sv]> g1).
  { unfold g2. by apply AddEdge_existing. }
  assert (Hrest : ∀ e, e ∈ GetAllEdges (delete (GetStateIndex a) g1) ->
            src_ e ≠ GetStateIndex a).
  { intros e (id & v & Hv & He)%elem_of_GetAllEdges.
    apply lookup_delete_Some in Hv as [Hne Hv].
    destruct (graph_wf_edge g1 _ _ e Hwf1 Hv He) as [-> _]. done. }
  split; [|split].
  - apply Permutation_singleton_r.
    rewrite Hg2, (GetAllEdges_insert g1 _ sv _ Hsv), filter_app. simpl.
    rewrite (update_edge_cost_filter (GetStateIndex a)); [|done|done|].
    + rewrite (filter_none _ (GetAllEdges _)); [done|].
      intros e He [Hs _]. by apply (Hrest e).
    + eapply Forall_impl; [exact Hes|]. by intros e [? _].
  - unfold GetGraphEdgeNumber. f_equal.
    rewrite Hg2, (GetAllEdges_insert g1 _ sv _ Hsv), (GetAllEdges_lookup g1 _ sv Hsv).
    rewrite !length_app. simpl. by rewrite update_edge_cost_length.
  - by apply graph_wf_AddEdge.
Qed.

Lemma scrub_edges id v e :
  e ∈ edges_to_ (scrub id v) ↔ e ∈ edges_to_ v ∧ src_ e ≠ id ∧ dst_ e ≠ id.
Proof. unfold scrub. simpl. rewrite list_elem_of_filter. tauto. Qed.

Lemma scrub_vertices_from id v u :
  u ∈ vertices_from_ (scrub id v) ↔ u ∈ vertices_from_ v ∧ u ≠ id.
Proof. unfold scrub. simpl. rewrite list_elem_of_filter. tauto. Qed.

Lemma RemoveVertex_lookup g id x u :
  is_Some (g !! id) ->
  RemoveVertex id g !! x = Some u ↔ x ≠ id ∧ ∃ u0, g !! x = Some u0 ∧ u = scrub id u0.
Proof.
  intros [v Hv]. unfold RemoveVertex. rewrite Hv, lookup_fmap, fmap_Some.
  split.
  - intros (u0 & [Hne Hu0]%lookup_delete_Some & ->). split; [done|]. eauto.
  - intros (Hne & u0 & Hu0 & ->). exists u0. split; [|done].
    apply lookup_delete_Some. done.
Qed.

(** C7: after [RemoveVertex(v)] of a present vertex, [v] is gone, no stored
    edge (none that [GetAllEdges] enumerates, each of which was in the graph
    before) has [v] as source or destination, and no predecessor list mentions
    [v]; for an absent identity the graph is left as it is. *)
Theorem RemoveVertex_scrubs g (v : Z) :
  (is_Some (g !! v) ->
     RemoveVertex v g !! v = None ∧
     (∀ e, e ∈ GetAllEdges (RemoveVertex v g) ->
        e ∈ GetAllEdges g ∧ src_ e ≠ v ∧ dst_ e ≠ v) ∧
     (∀ id u, RemoveVertex v g !! id = Some u ->
        (∀ e, e ∈ edges_to_ u -> src_ e ≠ v ∧ dst_ e ≠ v) ∧ v ∉ vertices_from_ u)) ∧
  (g !! v = None -> RemoveVertex v g = g).
Proof.
  split.
  - intros Hv. split; [|split].
    + destruct (RemoveVertex v g !! v) as [u|] eqn:E; [|done].
      apply (RemoveVertex_lookup g v v u Hv) in E as [? _]. done.
    + intros e (id & u & Hu & He)%elem_of_GetAllEdges.
      apply (RemoveVertex_lookup g v id u Hv) in Hu as (Hne & u0 & Hu0 & ->).
      apply scrub_edges in He as (He & Hs & Hd). split; [|done].
      apply elem_of_GetAllEdges. eauto.
    + intros id u Hu.
      apply (RemoveVertex_lookup g v id u Hv) in Hu as (Hne & u0 & Hu0 & ->).
      split.
      * intros e He. apply scrub_edges in He. tauto.
      * intros Hin. apply scrub_vertices_from in Hin. tauto.
  - intros Hv. unfold RemoveVertex. by rewrite Hv.
Qed.

(** [RemoveVertex] keeps the graph well formed. *)
Lemma graph_wf_RemoveVertex g (x : Z) : graph_wf g -> graph_wf (RemoveVertex x g).
Proof.
  intros Hwf. destruct (g !! x) as [xv|] eqn:Hx.
  2: { unfold RemoveVertex. by rewrite Hx. }
  intros id u Hu.
  apply (RemoveVertex_lookup g x id u) in Hu as (Hne & u0 & Hu0 & ->); [|eauto].
  destruct (Hwf id u0 Hu0) as (Hid & Hst & Hnd & Hes).
  repeat split; try done.
  - simpl. eapply sublist_NoDup; [exact Hnd|]. apply fmap_sublist, sublist_filter.
  - apply Forall_forall. intros e (He & Hs & Hd)%scrub_edges.
    rewrite Forall_forall in Hes. destruct (Hes e He) as [Hsrc Hp]. split; [done|].
    unfold pred_of in *. destruct (g !! dst_ e) as [dv|] eqn:Hdv.
    + assert (Hdv' : RemoveVertex x g !! dst_ e = Some (scrub x dv)).
      { apply RemoveVertex_lookup; [eauto|]. split; [done|]. eauto. }
      rewrite Hdv'. simpl in *. apply list_elem_of_filter. done.
    + simpl in Hp. by apply elem_of_nil in Hp.
Qed.

(** Well-formedness looks at the topology only. *)
Lemma graph_wf_same_topology g g' : same_topology g g' -> graph_wf g -> graph_wf g'.
Proof.
  intros Ht Hwf id v' Hv'.
  pose proof (Ht id) as Hid. rewrite Hv' in Hid. simpl in Hid.
  destruct (g !! id) as [v|] eqn:Hv; [|done]. simpl in Hid.
  unfold topology in Hid. injection Hid as Hs Hi He Hf.
  destruct (Hwf id v Hv) as (Hid & Hst & Hnd & Hes).
  repeat split; try congruence.
  rewrite He. eapply Forall_impl; [exact Hes|]. intros e [? Hp]. split; [done|].
  unfold pred_of in *. pose proof (Ht (dst_ e)) as Hd.
  destruct (g !! dst_ e) as [dv|], (g' !! dst_ e) as [dv'|]; simpl in *; try done.
  unfold topology in Hd. injection Hd as _ _ _ Hf'. by rewrite Hf'.
Qed.

Lemma same_topology_refl g : same_topology g g.
Proof. done. Qed.

Lemma same_topology_trans g1 g2 g3 :
  same_topology g1 g2 -> same_topology g2 g3 -> same_topology g1 g3.
Proof. intros H12 H23 id. by rewrite H23, H12. Qed.

Lemma same_topology_Reset g : same_topology g (ResetAllVertices g).
Proof.
  intros id. unfold ResetAllVertices. rewrite lookup_fmap.
  by destruct (g !! id).
Qed.

Lemma same_topology_insert g g' id v v' :
  same_topology g g' -> g' !! id = Some v -> topology v' = topology v ->
  same_topology g (<[id := v']> g').
Proof.
  intros Ht Hv Hv' j. rewrite lookup_insert. case_decide; [subst j|apply Ht].
  rewrite <- Ht, Hv. simpl. by rewrite Hv'.
Qed.

Lemma graph_wf_Reset g : graph_wf g -> graph_wf (ResetAllVertices g).
Proof. apply graph_wf_same_topology, same_topology_Reset. Qed.

End UpsertRemove.

(** ** The open list *)

Section QueueFacts.
Implicit Types (q : list (Z * Z)) (tie : list (Z * Z) -> nat).

Lemma fold_left_min_le (l : list Z) (a : Z) :
  fold_left Z.min l a ≤ a ∧ ∀ x, x ∈ l -> fold_left Z.min l a ≤ x.
Proof.
  revert a. induction l as [|y l IH]; intros a; simpl.
  - split; [lia|]. by intros x ?%elem_of_nil.
  - destruct (IH (Z.min a y)) as [H1 H2]. split; [lia|].
    intros x [->|Hx]%elem_of_cons; [lia|by apply H2].
Qed.

Lemma fold_left_min_attained (l : list Z) (a : Z) :
  fold_left Z.min l a = a ∨ fold_left Z.min l a ∈ l.
Proof.
  revert a. induction l as [|y l IH]; intros a; simpl; [by left|].
  destruct (IH (Z.min a y)) as [Hm|Hm].
  - rewrite Hm. destruct (Z.min_spec a y) as [[_ ->]|[_ ->]]; [by left|right; left].
  - right. by right.
Qed.

Lemma min_priority_spec q m :
  PriorityQueue.min_priority q = Some m ->
  (∀ e, e ∈ q -> m ≤ e.1) ∧ ∃ e, e ∈ q ∧ e.1 = m.
Proof.
  destruct q as [|e0 q]; simpl; [done|]. intros [= <-].
  destruct (fold_left_min_le (map fst q) e0.1) as [H0 Hq]. split.
  - intros e [->|He]%elem_of_cons; [done|].
    apply Hq. apply list_elem_of_In, in_map, list_elem_of_In, He.
  - destruct (fold_left_min_attained (map fst q) e0.1) as [Hm|Hm].
    + exists e0. split; [left|done].
    + apply list_elem_of_In, in_map_iff in Hm as (e & He & Hin).
      exists e. split; [right; by apply list_elem_of_In|done].
Qed.

Lemma positions_of_spec m q k i :
  i ∈ PriorityQueue.positions_of m q k ↔
  ∃ j e, i = (k + j)%nat ∧ q !! j = Some e ∧ e.1 = m.
Proof.
  revert k. induction q as [|e0 q IH]; intros k; simpl.
  - split; [by intros ?%elem_of_nil|]. by intros (j & e & _ & ? & _).
  - destruct (Z.eqb_spec e0.1 m) as [Hm|Hm].
    + rewrite elem_of_cons, IH. split.
      * intros [->|(j & e & -> & Hj & He)].
        -- exists 0%nat, e0. split; [lia|done].
        -- exists (S j), e. split; [lia|done].
      * intros ([|j] & e & -> & Hj & He).
        -- left. lia.
        -- right. exists j, e. split; [lia|done].
    + rewrite IH. split.
      * intros (j & e & -> & Hj & He). exists (S j), e. split; [lia|done].
      * intros ([|j] & e & -> & Hj & He).
        -- simpl in Hj. injection Hj as ->. done.
        -- exists j, e. split; [lia|done].
Qed.

Lemma nth_mod_elem (l : list nat) (d n : nat) :
  l ≠ [] -> nth (n mod length l) l d ∈ l.
Proof.
  intros Hl. apply list_elem_of_In, nth_In, Nat.mod_upper_bound.
  by destruct l.
Qed.

Lemma top_index_spec tie q i :
  PriorityQueue.top_index tie q = Some i ->
  ∃ e, q !! i = Some e ∧ ∀ e', e' ∈ q -> e.1 ≤ e'.1.
Proof.
  unfold PriorityQueue.top_index.
  destruct (PriorityQueue.min_priority q) as [m|] eqn:Hm; [|done].
  destruct (min_priority_spec q m Hm) as [Hle _].
  intros Hi.
  assert (Hin : i ∈ PriorityQueue.positions_of m q 0).
  { destruct (PriorityQueue.positions_of m q 0) as [|i0 [|i1 cands]]; [done| |].
    - injection Hi as <-. left.
    - injection Hi as <-. by apply (nth_mod_elem (i0 :: i1 :: cands) i0 (tie q)). }
  apply positions_of_spec in Hin as (j & e & -> & Hj & He).
  exists e. split; [done|]. intros e' He'. rewrite He. by apply Hle.
Qed.

Lemma top_index_is_Some tie q : q ≠ [] -> is_Some (PriorityQueue.top_index tie q).
Proof.
  intros Hq. unfold PriorityQueue.top_index.
  destruct (PriorityQueue.min_priority q) as [m|] eqn:Hm.
  - destruct (min_priority_spec q m Hm) as [_ (e & He & Hem)].
    apply list_elem_of_lookup in He as [j Hj].
    assert (Hin : (0 + j)%nat ∈ PriorityQueue.positions_of m q 0).
    { apply positions_of_spec. eauto. }
    destruct (PriorityQueue.positions_of m q 0) as [|i0 [|i1 cands]]; [|eauto..].
    by apply elem_of_nil in Hin.
  - by destruct q.
Qed.

(** [get] yields an entry of least priority and removes that entry. *)
Lemma get_spec tie q x q' :
  PriorityQueue.get tie q = Some (x, q') ->
  ∃ i p, q !! i = Some (p, x) ∧ q' = delete i q ∧ ∀ e, e ∈ q -> p ≤ e.1.
Proof.
  unfold PriorityQueue.get. intros Hget.
  destruct (PriorityQueue.top_index tie q) as [i|] eqn:Hi; [|done]. simpl in Hget.
  destruct (top_index_spec tie q i Hi) as ([p y] & Hq & Hmin).
  rewrite Hq in Hget. simpl in Hget. injection Hget as <- <-.
  exists i, p. done.
Qed.

Lemma get_is_Some tie q : q ≠ [] -> is_Some (PriorityQueue.get tie q).
Proof.
  intros Hq. unfold PriorityQueue.get.
  destruct (top_index_is_Some tie q Hq) as [i Hi]. rewrite Hi. simpl.
  destruct (top_index_spec tie q i Hi) as (e & -> & _). simpl. eauto.
Qed.

Lemma empty_true q : PriorityQueue.empty q = true ↔ q = [].
Proof. by destruct q. Qed.

Lemma empty_false q : PriorityQueue.empty q = false ↔ q ≠ [].
Proof. by destruct q. Qed.

Lemma elem_of_put q x p e :
  e ∈ PriorityQueue.put x p q ↔ e ∈ q ∨ e = (p, x).
Proof. unfold PriorityQueue.put. by rewrite elem_of_app, list_elem_of_singleton. Qed.

Lemma elem_of_delete_other {A} (l : list A) i x y :
  l !! i = Some x -> y ∈ l -> y = x ∨ y ∈ delete i l.
Proof.
  intros Hi Hy. apply (delete_Permutation l i x) in Hi.
  rewrite Hi in Hy. by apply elem_of_cons in Hy.
Qed.

End QueueFacts.

(** ** The machine sums where they are exact *)

Lemma wrap64_exact (x : Z) : - 2 ^ 63 ≤ x < 2 ^ 63 -> wrap64 x = x.
Proof.
  intros Hx. unfold wrap64. rewrite Z.mod_small; lia.
Qed.

Lemma wrap64_range (x : Z) : - 2 ^ 63 ≤ wrap64 x < 2 ^ 63.
Proof.
  unfold wrap64. pose proof (Z.mod_pos_bound (x + 2 ^ 63) (2 ^ 64)). lia.
Qed.

Lemma Transition_add_exact (a b : Z) : Z.abs (a + b) ≤ 2 ^ 53 -> Transition_add a b = a + b.
Proof.
  intros Hab. unfold Transition_add. apply wrap64_exact. lia.
Qed.

Lemma to_Number_exact (x : Z) : Z.abs x ≤ 2 ^ 53 -> to_Number x = x.
Proof.
  intros Hx. unfold to_Number. by destruct (Z.leb_spec (Z.abs x) (2 ^ 53)); [|lia].
Qed.

(** Beyond [2^53] the conversion yields a number of 53 significant bits in
    the binade of its argument, and one that is nearest to it. *)
Lemma to_Number_nearest (x : Z) :
  2 ^ 53 < Z.abs x ->
  let ulp := 2 ^ (Z.log2 (Z.abs x) - 52) in
  (∃ m, Z.abs m ≤ 2 ^ 53 ∧ to_Number x = m * ulp) ∧ 2 * Z.abs (to_Number x - x) ≤ ulp.
Proof.
  intros Hx ulp. unfold to_Number. fold ulp.
  destruct (Z.leb_spec (Z.abs x) (2 ^ 53)) as [?|_]; [lia|].
  set (a := Z.abs x) in *.
  assert (Hlog : 53 ≤ Z.log2 a) by (apply Z.log2_le_pow2; lia).
  assert (Hulp : 0 < ulp) by (apply Z.pow_pos_nonneg; lia).
  destruct (Z.log2_spec a) as [Hlo Hhi]; [lia|].
  assert (Hpow : 2 ^ Z.log2 a = 2 ^ 52 * ulp).
  { unfold ulp. rewrite <- Z.pow_add_r by lia. f_equal. lia. }
  assert (Hsucc : 2 ^ Z.succ (Z.log2 a) = 2 ^ 53 * ulp).
  { rewrite Z.pow_succ_r by lia. rewrite Hpow. lia. }
  pose proof (Z.div_mod a ulp ltac:(lia)) as Hdm.
  pose proof (Z.mod_pos_bound a ulp Hulp) as Hr.
  set (q := a / ulp) in *. set (r := a mod ulp) in *.
  assert (Hq : 2 ^ 52 ≤ q < 2 ^ 53) by nia.
  assert (Hsgn : x = Z.sgn x * a) by (unfold a; lia).
  assert (Hs1 : Z.sgn x = 1 ∨ Z.sgn x = -1) by lia.
  destruct (Z.ltb_spec (2 * r) ulp); [|destruct (Z.ltb_spec ulp (2 * r)); [|destruct (Z.even q)]].
  - split; [exists (Z.sgn x * q); split; [|lia]; destruct Hs1 as [-> | ->]; lia|].
    destruct Hs1 as [E|E]; rewrite E in *; lia.
  - split; [exists (Z.sgn x * (q + 1)); split; [|lia]; destruct Hs1 as [-> | ->]; lia|].
    destruct Hs1 as [E|E]; rewrite E in *; lia.
  - split; [exists (Z.sgn x * q); split; [|lia]; destruct Hs1 as [-> | ->]; lia|].
    destruct Hs1 as [E|E]; rewrite E in *; lia.
  - split; [exists (Z.sgn x * (q + 1)); split; [|lia]; destruct Hs1 as [-> | ->]; lia|].
    destruct Hs1 as [E|E]; rewrite E in *; lia.
Qed.

(** ** One relaxation, one pass of the loop *)

Section StepFacts.
Context {State : Type} `{StateIndexer State}.
Variable tie : list (Z * Z) -> nat.
Variable h : State -> State -> Z.
Variable goal : Z.
Implicit Types (g : Graph State) (q : list (Z * Z)) (e : Edge).

(** The two outcomes of relaxing an edge: nothing happens, or the successor
    is written and pushed. *)
Lemma relax_edge_inv cur e g q g' q' :
  AStar.relax_edge h goal cur e (g, q) = Some (g', q') ->
  ∃ sv, g !! dst_ e = Some sv ∧
    ((g' = g ∧ q' = q ∧
      (is_checked_ sv = true ∨
       ∃ cv, g !! cur = Some cv ∧ is_in_openlist_ sv = true ∧
             g_cost_ sv ≤ Transition_add (g_cost_ cv) (cost_ e)))
     ∨ (is_checked_ sv = false ∧
        ∃ cv gv, g !! cur = Some cv ∧ g !! goal = Some gv ∧
          (is_in_openlist_ sv = false ∨
           Transition_add (g_cost_ cv) (cost_ e) < g_cost_ sv) ∧
          g' = <[dst_ e := relaxed cur (Transition_add (g_cost_ cv) (cost_ e))
                             (h (state_ sv) (state_ gv)) sv]> g ∧
          q' = PriorityQueue.put (dst_ e)
                 (to_Number (Transition_add (Transition_add (g_cost_ cv) (cost_ e))
                                            (h (state_ sv) (state_ gv)))) q)).
Proof.
  unfold AStar.relax_edge. intros Hr.
  destruct (g !! dst_ e) as [sv|] eqn:Hsv; [|done]. simpl in Hr.
  exists sv. split; [done|].
  destruct (is_checked_ sv) eqn:Hck.
  { injection Hr as <- <-. left. auto. }
  destruct (g !! cur) as [cv|] eqn:Hcv; [|done]. simpl in Hr.
  destruct (is_in_openlist_ sv) eqn:Hop; simpl in Hr.
  - destruct (Z.ltb_spec (Transition_add (g_cost_ cv) (cost_ e)) (g_cost_ sv)) as [Hlt|Hge].
    + destruct (g !! goal) as [gv|] eqn:Hgv; [|done]. simpl in Hr.
      injection Hr as <- <-. right. split; [done|]. exists cv, gv. auto.
    + injection Hr as <- <-. left. do 2 (split; [done|]). right.
      exists cv. auto.
  - destruct (g !! goal) as [gv|] eqn:Hgv; [|done]. simpl in Hr.
    injection Hr as <- <-. right. split; [done|]. exists cv, gv. auto.
Qed.

Lemma relax_edge_is_Some cur e g q :
  is_Some (g !! dst_ e) -> is_Some (g !! cur) -> is_Some (g !! goal) ->
  is_Some (AStar.relax_edge h goal cur e (g, q)).
Proof.
  intros [sv Hsv] [cv Hcv] [gv Hgv]. unfold AStar.relax_edge.
  rewrite Hsv. simpl. destruct (is_checked_ sv); [eauto|].
  rewrite Hcv. simpl. destruct (_ || _); [|eauto]. rewrite Hgv. simpl. eauto.
Qed.

(** One pass of the loop of [PerformSearch]: an entry of least priority is
    popped; it is stale, or it is the goal, or its vertex is expanded. *)
Lemma search_iter_inv g q r :
  AStar.search_iter tie h goal (g, q) = Some r ->
  ∃ cur i p cv,
    q !! i = Some (p, cur) ∧ (∀ x, x ∈ q -> p ≤ x.1) ∧ g !! cur = Some cv ∧
    ((is_checked_ cv = true ∧ r = inl (g, delete i q))
     ∨ (is_checked_ cv = false ∧ cur = goal ∧ r = inr g)
     ∨ (is_checked_ cv = false ∧ cur ≠ goal ∧
        ∃ st', AStar.relax_edges h goal cur (edges_to_ cv)
                 (<[cur := mark_checked cv]> g, delete i q) = Some st' ∧
               r = inl st')).
Proof.
  unfold AStar.search_iter. intros Hr.
  destruct (PriorityQueue.get tie q) as [[cur q1]|] eqn:Hget; [|done]. simpl in Hr.
  apply get_spec in Hget as (i & p & Hi & -> & Hmin).
  destruct (g !! cur) as [cv|] eqn:Hcv; [|done]. simpl in Hr.
  exists cur, i, p, cv. do 3 (split; [done|]).
  destruct (is_checked_ cv) eqn:Hck.
  { injection Hr as <-. left. done. }
  destruct (Z.eqb_spec cur goal) as [Heq|Hne].
  { injection Hr as <-. right. left. done. }
  right. right. do 2 (split; [done|]).
  destruct (AStar.relax_edges _ _ _ _ _) as [st'|] eqn:Hrel; [|done]. simpl in Hr.
  injection Hr as <-. eauto.
Qed.

(** One pass of the loop of [IncSearch]. *)
Lemma inc_iter_inv (nb : State -> list (State * Z)) g q calls r :
  AStar.inc_iter tie nb h goal (g, q, calls) = Some r ->
  ∃ cur i p cv,
    q !! i = Some (p, cur) ∧ (∀ x, x ∈ q -> p ≤ x.1) ∧ g !! cur = Some cv ∧
    ((is_checked_ cv = true ∧ r = inl (g, delete i q, calls))
     ∨ (is_checked_ cv = false ∧ cur = goal ∧ r = inr (g, calls))
     ∨ (is_checked_ cv = false ∧ cur ≠ goal ∧
        ∃ cv2 g3 q3,
          AStar.add_neighbours (state_ cv) (nb (state_ cv)) (<[cur := mark_checked cv]> g)
            !! cur = Some cv2 ∧
          AStar.relax_edges h goal cur (edges_to_ cv2)
            (AStar.add_neighbours (state_ cv) (nb (state_ cv)) (<[cur := mark_checked cv]> g),
             delete i q) = Some (g3, q3) ∧
          r = inl (g3, q3, state_ cv :: calls))).
Proof.
  unfold AStar.inc_iter. intros Hr.
  destruct (PriorityQueue.get tie q) as [[cur q1]|] eqn:Hget; [|done]. simpl in Hr.
  apply get_spec in Hget as (i & p & Hi & -> & Hmin).
  destruct (g !! cur) as [cv|] eqn:Hcv; [|done]. simpl in Hr.
  exists cur, i, p, cv. do 3 (split; [done|]).
  destruct (is_checked_ cv) eqn:Hck.
  { injection Hr as <-. left. done. }
  destruct (Z.eqb_spec cur goal) as [Heq|Hne].
  { injection Hr as <-. right. left. done. }
  right. right. do 2 (split; [done|]).
  destruct (AStar.add_neighbours _ _ _ !! cur) as [cv2|] eqn:Hcv2; [|done]. simpl in Hr.
  destruct (AStar.relax_edges _ _ _ _ _) as [[g3 q3]|] eqn:Hrel; [|done]. simpl in Hr.
  injection Hr as <-. exists cv2, g3, q3. done.
Qed.

End StepFacts.

(** ** What [AddEdge] does to the store *)

Section AddEdgeLookups.
Context {State : Type} `{StateIndexer State}.
Implicit Types (g : Graph State) (s a b : State).

(** [AddEdge] looked up: the vertex that the two [ObtainVertexFromVertexMap]
    calls leave under [id], with its search fields, state and identity kept and
    the edge upserted when [id] is the source. *)
Lemma AddEdge_lookup a b c g id :
  ∃ f : Vertex State -> Vertex State,
    AddEdge a b c g !! id =
      f <$> (ObtainVertexFromVertexMap b (ObtainVertexFromVertexMap a g).1).1 !! id ∧
    ∀ v, (ObtainVertexFromVertexMap b (ObtainVertexFromVertexMap a g).1).1 !! id = Some v ->
      scratch (f v) = scratch v ∧ state_ (f v) = state_ v ∧
      vertex_id_ (f v) = vertex_id_ v ∧
      edges_to_ (f v) =
        if decide (id = GetStateIndex a)
        then upsert_edge (GetStateIndex a) (GetStateIndex b) c (edges_to_ v)
        else edges_to_ v.
Proof.
  unfold AddEdge.
  destruct (ObtainVertexFromVertexMap a g) as [g1 src] eqn:E1. cbn [fst snd].
  destruct (ObtainVertexFromVertexMap b g1) as [g2 dst] eqn:E2. cbn [fst snd].
  pose proof (ObtainVertex_is_Some a g) as [sv0 Hsv0]. rewrite E1 in Hsv0. simpl in Hsv0.
  pose proof (ObtainVertex_ref a g) as Hsrc. rewrite E1 in Hsrc. simpl in Hsrc.
  pose proof (ObtainVertex_old b g1 _ _ Hsv0) as Hsv. rewrite E2 in Hsv. simpl in Hsv.
  pose proof (ObtainVertex_ref b g1) as Hdst. rewrite E2 in Hdst. simpl in Hdst.
  subst src dst. rewrite Hsv. unfold upsert_edge.
  destruct (has_edge_to (GetStateIndex b) (edges_to_ sv0)) eqn:Hhas.
  - destruct (decide (id = GetStateIndex a)) as [->|Hne].
    + eexists. split; [apply lookup_alter_eq|].
      intros v Hv. rewrite Hsv in Hv. injection Hv as <-. by rewrite Hhas.
    + exists (fun v => v). split.
      * rewrite lookup_alter_ne by done. by destruct (g2 !! id).
      * done.
  - destruct (decide (id = GetStateIndex a)) as [->|Hne].
    + destruct (decide (GetStateIndex b = GetStateIndex a)) as [Hba|Hba].
      * eexists (fun v => set_vertices_from _ (set_edges_to _ v)). split.
        -- rewrite lookup_alter, decide_True by done.
           rewrite lookup_alter, decide_True by done.
           by destruct (g2 !! GetStateIndex a).
        -- intros v Hv. rewrite Hsv in Hv. injection Hv as <-. simpl. by rewrite Hhas.
      * eexists. split.
        -- rewrite lookup_alter_ne by done. apply lookup_alter_eq.
        -- intros v Hv. rewrite Hsv in Hv. injection Hv as <-. simpl. by rewrite Hhas.
    + destruct (decide (id = GetStateIndex b)) as [->|Hnb].
      * eexists. split.
        -- rewrite lookup_alter_eq, lookup_alter_ne by done. done.
        -- done.
      * exists (fun v => v). split.
        -- rewrite !lookup_alter_ne by done. by destruct (g2 !! id).
        -- done.
Qed.

(** A vertex that was in the graph before [AddEdge]. *)
Lemma AddEdge_lookup_old a b c g id v :
  g !! id = Some v ->
  ∃ v', AddEdge a b c g !! id = Some v' ∧ scratch v' = scratch v ∧
    state_ v' = state_ v ∧ vertex_id_ v' = vertex_id_ v ∧
    edges_to_ v' =
      if decide (id = GetStateIndex a)
      then upsert_edge (GetStateIndex a) (GetStateIndex b) c (edges_to_ v)
      else edges_to_ v.
Proof.
  intros Hv. destruct (AddEdge_lookup a b c g id) as (f & Hf & Hprop).
  assert (Hv2 : (ObtainVertexFromVertexMap b (ObtainVertexFromVertexMap a g).1).1 !! id
                = Some v) by by do 2 apply ObtainVertex_old.
  rewrite Hv2 in Hf. exists (f v). split; [done|]. by apply Hprop.
Qed.

(** A vertex that [AddEdge] created: it is the vertex of one of the two
    states, unseen, and it owns the new edge at most. *)
Lemma AddEdge_lookup_new a b c g id v' :
  g !! id = None -> AddEdge a b c g !! id = Some v' ->
  scratch v' = (false, false, 0, 0, 0, None) ∧ vertex_id_ v' = id ∧
  ((id = GetStateIndex a ∧ state_ v' = a ∧
    edges_to_ v' = [mkEdge (GetStateIndex a) (GetStateIndex b) c])
   ∨ (id = GetStateIndex b ∧ id ≠ GetStateIndex a ∧ state_ v' = b ∧ edges_to_ v' = [])).
Proof.
  intros Hnone Hv'. destruct (AddEdge_lookup a b c g id) as (f & Hf & Hprop).
  rewrite Hv' in Hf. symmetry in Hf. apply fmap_Some in Hf as (v0 & Hv0 & ->).
  destruct (Hprop v0 Hv0) as (Hsc & Hst & Hid & Hes).
  apply ObtainVertex_lookup in Hv0 as [Hv0|(Hn1 & -> & ->)].
  - apply ObtainVertex_lookup in Hv0 as [Hv0|(_ & -> & ->)]; [congruence|].
    rewrite Hsc, Hst, Hid, Hes. rewrite decide_True by done.
    repeat split; try done. left. done.
  - rewrite Hsc, Hst, Hid, Hes. repeat split; try done.
    destruct (decide (GetStateIndex b = GetStateIndex a)) as [Hba|Hba].
    + exfalso. rewrite Hba in Hn1.
      destruct (ObtainVertex_is_Some a g) as [x Hx]. congruence.
    + right. done.
Qed.

Lemma AddEdge_is_Some a b c g id :
  is_Some (g !! id) -> is_Some (AddEdge a b c g !! id).
Proof.
  intros [v Hv]. destruct (AddEdge_lookup_old a b c g id v Hv) as (v' & Hv' & _). eauto.
Qed.

End AddEdgeLookups.

(** ** Vertices only move forward *)

Section Monotone.
Context {State : Type} `{StateIndexer State}.
Variable tie : list (Z * Z) -> nat.
Variable h : State -> State -> Z.
Variable goal : Z.
Implicit Types (g : Graph State) (q : list (Z * Z)).

Lemma phase_le_refl (p : Phase) : phase_le p p.
Proof. by destruct p. Qed.

Lemma phase_le_trans (p1 p2 p3 : Phase) :
  phase_le p1 p2 -> phase_le p2 p3 -> phase_le p1 p3.
Proof. by destruct p1, p2, p3. Qed.

Lemma phase_scratch (v v' : Vertex State) : scratch v' = scratch v -> phase v' = phase v.
Proof. unfold scratch, phase. intros [= -> -> _ _ _ _]. done. Qed.

Lemma filter_sublist_mono {A} (P : A -> Prop) `{∀ x, Decision (P x)} (l1 l2 : list A) :
  l1 `sublist_of` l2 -> filter P l1 `sublist_of` filter P l2.
Proof.
  induction 1 as [|x l1 l2 _ IH|x l1 l2 _ IH]; [done| |].
  - rewrite !filter_cons. destruct (decide (P x)); [by constructor|done].
  - rewrite filter_cons. destruct (decide (P x)); [by constructor|done].
Qed.

Lemma monotone_step_refl (st : Graph State * list (Z * Z)) : monotone_step st st.
Proof. intros id v Hv. exists v. split; [done|]. split; [apply phase_le_refl|done]. Qed.

Lemma monotone_step_trans (st1 st2 st3 : Graph State * list (Z * Z)) :
  monotone_step st1 st2 -> monotone_step st2 st3 -> monotone_step st1 st3.
Proof.
  intros H12 H23 id v Hv.
  destruct (H12 id v Hv) as (v2 & Hv2 & Hp12 & Hf12).
  destruct (H23 id v2 Hv2) as (v3 & Hv3 & Hp23 & Hf23).
  exists v3. split; [done|]. split; [by eapply phase_le_trans|].
  intros Hck. destruct (Hf12 Hck) as [Hs12 He12].
  assert (Hck2 : is_checked_ v2 = true).
  { unfold scratch in Hs12. injection Hs12 as -> _ _ _ _ _. done. }
  destruct (Hf23 Hck2) as [Hs23 He23]. split; [congruence|by etrans].
Qed.

(** States that differ in the search fields of unexpanded vertices only, and
    in entries of the open list other than those of expanded vertices. *)
Lemma monotone_step_insert g q q' id v v' :
  g !! id = Some v -> is_checked_ v = false -> phase_le (phase v) (phase v') ->
  (∀ x, x ≠ id -> entries_of x q' `sublist_of` entries_of x q) ->
  monotone_step (g, q) (<[id := v']> g, q').
Proof.
  intros Hv Hck Hp Hq x u Hu. simpl in *.
  destruct (decide (x = id)) as [->|Hne].
  - rewrite Hv in Hu. injection Hu as <-. exists v'.
    rewrite lookup_insert_eq. split; [done|]. split; [done|]. congruence.
  - exists u. rewrite lookup_insert_ne by done. split; [done|].
    split; [apply phase_le_refl|]. intros _. split; [done|]. by apply Hq.
Qed.

Lemma entries_of_put x id p q : x ≠ id -> entries_of x (PriorityQueue.put id p q) = entries_of x q.
Proof.
  intros Hne. unfold entries_of, PriorityQueue.put. rewrite filter_app.
  rewrite (filter_cons_False _ (p, id)) by (simpl; congruence).
  by rewrite filter_nil, app_nil_r.
Qed.

Lemma entries_of_delete x i q : entries_of x (delete i q) `sublist_of` entries_of x q.
Proof. apply filter_sublist_mono, sublist_delete. Qed.

Lemma monotone_relax_edge cur e (st st' : Graph State * list (Z * Z)) :
  AStar.relax_edge h goal cur e st = Some st' -> monotone_step st st'.
Proof.
  destruct st as [g q], st' as [g' q']. intros Hr.
  apply relax_edge_inv in Hr as (sv & Hsv & [(-> & -> & _)|(Hck & cv & gv & _ & _ & _ & -> & ->)]).
  - apply monotone_step_refl.
  - apply (monotone_step_insert g q _ _ sv); [done|done| |].
    + unfold phase. simpl. rewrite Hck. by destruct (is_in_openlist_ sv).
    + intros x Hx. by rewrite entries_of_put.
Qed.

Lemma monotone_relax_edges cur es (st st' : Graph State * list (Z * Z)) :
  AStar.relax_edges h goal cur es st = Some st' -> monotone_step st st'.
Proof.
  revert st. induction es as [|e es IH]; intros st; simpl.
  - intros [= <-]. apply monotone_step_refl.
  - destruct (AStar.relax_edge h goal cur e st) as [st1|] eqn:E; [|done]. simpl.
    intros Hr. eapply monotone_step_trans; [by eapply monotone_relax_edge|by apply IH].
Qed.

Lemma monotone_skip g q i : monotone_step (g, q) (g, delete i q).
Proof.
  intros id v Hv. exists v. split; [done|]. split; [apply phase_le_refl|].
  intros _. split; [done|]. apply entries_of_delete.
Qed.

Lemma monotone_mark g q i cur cv :
  g !! cur = Some cv -> is_checked_ cv = false ->
  monotone_step (g, q) (<[cur := mark_checked cv]> g, delete i q).
Proof.
  intros Hcv Hck. apply (monotone_step_insert g q _ _ cv); [done|done| |].
  - unfold phase. simpl. rewrite Hck. by destruct (is_in_openlist_ cv).
  - intros x _. apply entries_of_delete.
Qed.

Lemma monotone_search_iter (st st' : Graph State * list (Z * Z)) :
  AStar.search_iter tie h goal st = Some (inl st') -> monotone_step st st'.
Proof.
  destruct st as [g q]. intros Hit.
  apply search_iter_inv in Hit
    as (cur & i & p & cv & Hi & Hmin & Hcv &
        [(Hck & [= ->])|[(Hck & _ & [=])|(Hck & Hne & st1 & Hrel & [= ->])]]).
  - apply monotone_skip.
  - eapply monotone_step_trans; [by apply (monotone_mark g q i cur cv)|].
    by eapply monotone_relax_edges.
Qed.

Lemma monotone_AddEdge a b c g q : monotone_step (g, q) (AddEdge a b c g, q).
Proof.
  intros id v Hv. simpl in *.
  destruct (AddEdge_lookup_old a b c g id v Hv) as (v' & Hv' & Hsc & _).
  exists v'. split; [done|]. split; [|done].
  rewrite (phase_scratch _ _ Hsc). apply phase_le_refl.
Qed.

Lemma monotone_add_neighbours s nbrs g q :
  monotone_step (g, q) (AStar.add_neighbours s nbrs g, q).
Proof.
  revert g. induction nbrs as [|[b c] nbrs IH]; intros g; simpl.
  - apply monotone_step_refl.
  - eapply monotone_step_trans; [apply (monotone_AddEdge s b c)|apply IH].
Qed.

Lemma monotone_inc_iter (nb : State -> list (State * Z))
    (st st' : Graph State * list (Z * Z) * list State) :
  AStar.inc_iter tie nb h goal st = Some (inl st') -> monotone_step st.1 st'.1.
Proof.
  destruct st as [[g q] calls]. intros Hit.
  apply inc_iter_inv in Hit
    as (cur & i & p & cv & Hi & Hmin & Hcv &
        [(Hck & [= ->])|[(Hck & _ & [=])|
         (Hck & Hne & cv2 & g3 & q3 & Hcv2 & Hrel & [= ->])]]); simpl.
  - apply monotone_skip.
  - eapply monotone_step_trans; [by apply (monotone_mark g q i cur cv)|].
    eapply monotone_step_trans; [apply monotone_add_neighbours|].
    by eapply monotone_relax_edges.
Qed.

(** The loop states of a run follow one another. *)
Lemma search_loop_steps fuel (st : Graph State * list (Z * Z)) g' found :
  AStar.search_loop tie h goal fuel st = Some (g', found) ->
  ∃ q', search_steps tie h goal st (g', q').
Proof.
  revert st. induction fuel as [|fuel IH]; intros [g q]; simpl.
  - destruct (PriorityQueue.empty q); [|done]. intros [= <- <-].
    eexists. apply search_steps_refl.
  - destruct (PriorityQueue.empty q).
    { intros [= <- <-]. eexists. apply search_steps_refl. }
    destruct (AStar.search_iter tie h goal (g, q)) as [[st1|g1]|] eqn:Hit; simpl; [| |done].
    + intros Hl. destruct (IH _ Hl) as [q' Hq']. exists q'.
      by eapply search_steps_next.
    + intros [= <- <-].
      apply search_iter_inv in Hit
        as (cur & i & p & cv & Hi & Hmin & Hcv &
            [(Hck & [=])|[(Hck & _ & [= <-])|(Hck & Hne & st1 & Hrel & [=])]]).
      eexists. apply search_steps_refl.
Qed.

Lemma inc_loop_steps (nb : State -> list (State * Z)) fuel
    (st : Graph State * list (Z * Z) * list State) g' calls' found :
  AStar.inc_loop tie nb h goal fuel st = Some (g', calls', found) ->
  ∃ q', inc_steps tie nb h goal st (g', q', calls').
Proof.
  revert st. induction fuel as [|fuel IH]; intros [[g q] calls]; simpl.
  - destruct (PriorityQueue.empty q); [|done]. intros [= <- <- <-].
    eexists. apply inc_steps_refl.
  - destruct (PriorityQueue.empty q).
    { intros [= <- <- <-]. eexists. apply inc_steps_refl. }
    destruct (AStar.inc_iter tie nb h goal (g, q, calls)) as [[st1|[g1 c1]]|] eqn:Hit;
      simpl; [| |done].
    + intros Hl. destruct (IH _ Hl) as [q' Hq']. exists q'.
      by eapply inc_steps_next.
    + intros [= <- <- <-].
      apply inc_iter_inv in Hit
        as (cur & i & p & cv & Hi & Hmin & Hcv &
            [(Hck & [=])|[(Hck & _ & [= <- <-])|
             (Hck & Hne & cv2 & g3 & q3 & Hcv2 & Hrel & [=])]]).
      eexists. apply inc_steps_refl.
Qed.

(** C8: between a loop state of [PerformSearch] or of [IncSearch] and any
    later loop state of the same run, every vertex stays in its per-search state
    or moves forward (unseen, frontier, expanded), and a vertex that is
    expanded keeps [is_checked_], [is_in_openlist_], its g-, h- and f-cost and
    its parent, and gets no new entry in the open list; the loop states of a
    run, and the store it ends with, do follow its first state. *)
Theorem expanded_is_final :
  (∀ st st', search_steps tie h goal st st' -> monotone_step st st') ∧
  (∀ nb st st', inc_steps tie nb h goal st st' -> monotone_step st.1 st'.1) ∧
  (∀ fuel st g' found, AStar.search_loop tie h goal fuel st = Some (g', found) ->
     ∃ q', search_steps tie h goal st (g', q')) ∧
  (∀ nb fuel st g' calls' found,
     AStar.inc_loop tie nb h goal fuel st = Some (g', calls', found) ->
     ∃ q', inc_steps tie nb h goal st (g', q', calls')).
Proof.
  split; [|split; [|split]].
  - induction 1 as [st|st st1 st2 Hit _ IH]; [apply monotone_step_refl|].
    eapply monotone_step_trans; [by apply monotone_search_iter|done].
  - intros nb. induction 1 as [st|st st1 st2 Hit _ IH]; [apply monotone_step_refl|].
    eapply monotone_step_trans; [by eapply monotone_inc_iter|done].
  - intros fuel st g' found. apply search_loop_steps.
  - intros nb fuel st g' calls' found. apply inc_loop_steps.
Qed.

End Monotone.

(** ** Start and goal at one vertex *)

Section SameEndpoints.
Context {State : Type} `{StateIndexer State}.
Implicit Types (g : Graph State) (q : list (Z * Z)).

Lemma get_singleton (tie : list (Z * Z) -> nat) p x :
  PriorityQueue.get tie [(p, x)] = Some (x, []).
Proof.
  unfold PriorityQueue.get, PriorityQueue.top_index. simpl.
  by rewrite Z.eqb_refl.
Qed.

Lemma reconstruct_loop_start g start fuel acc :
  AStar.reconstruct_loop g start fuel start acc = Some (start :: acc).
Proof. destruct fuel; simpl; by rewrite Z.eqb_refl. Qed.

Lemma search_loop_unfold tie (h : State -> State -> Z) goal fuel
    (st : Graph State * list (Z * Z)) :
  AStar.search_loop tie h goal (S fuel) st =
    if PriorityQueue.empty st.2 then Some (st.1, false)
    else r ← AStar.search_iter tie h goal st;
         match r with
         | inl st' => AStar.search_loop tie h goal fuel st'
         | inr g => Some (g, true)
         end.
Proof. done. Qed.

Lemma lookup_Reset g id :
  ResetAllVertices g !! id = ClearVertexSearchInfo <$> g !! id.
Proof. unfold ResetAllVertices. by rewrite lookup_fmap. Qed.

Lemma lookup_seed g start id :
  (AStar.seed g start).1 !! id =
    if decide (start = id) then seed_start <$> g !! start else g !! id.
Proof. unfold AStar.seed. simpl. apply lookup_alter. Qed.

Lemma search_iter_seed_goal tie (h : State -> State -> Z) g (v : Z) u :
  g !! v = Some u -> is_checked_ u = false ->
  AStar.search_iter tie h v (AStar.seed g v) = Some (inr (AStar.seed g v).1).
Proof.
  intros Hu Hck. unfold AStar.search_iter, AStar.seed, PriorityQueue.put. simpl.
  rewrite lookup_alter_eq, Hu. simpl.
  by rewrite Hck, Z.eqb_refl.
Qed.

(** C9: with start and goal at one vertex [v] of the graph, [Search] returns
    the one-vertex path of the state of [v]: the goal is popped in the first
    pass, before anything is expanded, so that the store is the seeded one, and
    the way back from the goal ends at once. *)
Theorem Search_same_endpoints tie g (v : Z) vv (h : State -> State -> Z) :
  g !! v = Some vv ->
  AStar.Search tie g v v h = Some ((AStar.seed (ResetAllVertices g) v).1, [state_ vv]).
Proof.
  intros Hv. unfold AStar.Search, FindVertex.
  rewrite lookup_Reset, Hv. simpl.
  unfold AStar.PerformSearch, AStar.search_fuel. rewrite search_loop_unfold.
  rewrite (search_iter_seed_goal tie h _ v (ClearVertexSearchInfo vv));
    [|by rewrite lookup_Reset, Hv|done].
  simpl. unfold AStar.ReconstructPath. rewrite reconstruct_loop_start. simpl.
  rewrite lookup_alter_eq, lookup_Reset, Hv. done.
Qed.

End SameEndpoints.

(** ** Walks, parent chains and the way back from the goal *)

Section WalkFacts.
Context {State : Type} `{StateIndexer State}.
Implicit Types (g : Graph State) (vs : list Z).

Lemma walk_first g u vs v c : walk g u vs v c -> is_Some (g !! u) ∧ ∃ tl, vs = u :: tl.
Proof.
  destruct 1 as [u Hu|u w vs v c1 c2 (uv & e & Huv & _) _]; split; eauto.
Qed.

Lemma walk_last_in g u vs v c : walk g u vs v c -> is_Some (g !! v) ∧ last vs = Some v.
Proof.
  induction 1 as [u Hu|u w vs v c1 c2 He Hw [IH1 IH2]]; [done|].
  split; [done|]. destruct (walk_first _ _ _ _ _ Hw) as [_ [tl ->]]. done.
Qed.

Lemma walk_elem g u vs v c x : walk g u vs v c -> x ∈ vs -> is_Some (g !! x).
Proof.
  induction 1 as [u Hu|u w vs v c1 c2 (uv & e & Huv & _) Hw IH].
  - by intros ->%list_elem_of_singleton.
  - intros [->|Hx]%elem_of_cons; [eauto|by apply IH].
Qed.

Lemma walk_snoc g u vs w v c c' :
  walk g u vs w c -> edge_in g w v c' -> is_Some (g !! v) ->
  walk g u (vs ++ [v]) v (c + c').
Proof.
  intros Hw He Hv. induction Hw as [u Hu|u x vs w c1 c2 Hux Hw IH].
  - replace (0 + c') with (c' + 0) by lia. simpl.
    apply walk_cons with v; [done|]. by apply walk_one.
  - replace (c1 + c2 + c') with (c1 + (c2 + c')) by lia. simpl.
    apply walk_cons with x; [done|]. by apply IH.
Qed.

Lemma walk_nonneg g u vs v c : nonneg_costs g -> walk g u vs v c -> 0 ≤ c.
Proof.
  intros Hnn. induction 1 as [u Hu|u w vs v c1 c2 He Hw IH]; [done|].
  pose proof (Hnn _ _ _ He). lia.
Qed.

Lemma edge_in_topology g g' u v c : same_topology g g' -> edge_in g u v c -> edge_in g' u v c.
Proof.
  intros Ht (uv & e & Huv & He & Hd & Hc).
  pose proof (Ht u) as Hu. rewrite Huv in Hu.
  destruct (g' !! u) as [uv'|] eqn:Huv'; [|done]. simpl in Hu.
  unfold topology in Hu. injection Hu as _ _ Hes _.
  exists uv', e. rewrite Hes. done.
Qed.

Lemma same_topology_sym g g' : same_topology g g' -> same_topology g' g.
Proof. intros Ht id. by rewrite Ht. Qed.

Lemma same_topology_is_Some g g' id :
  same_topology g g' -> is_Some (g !! id) ↔ is_Some (g' !! id).
Proof.
  intros Ht. pose proof (Ht id) as Hid.
  destruct (g !! id), (g' !! id); simpl in *; try done; split; eauto.
Qed.

Lemma same_topology_lookup g g' id v :
  same_topology g g' -> g !! id = Some v ->
  ∃ v', g' !! id = Some v' ∧ topology v' = topology v.
Proof.
  intros Ht Hv. pose proof (Ht id) as Hid. rewrite Hv in Hid.
  destruct (g' !! id) as [v'|]; [|done]. simpl in Hid.
  injection Hid as Hs Hi He Hf.
  exists v'. split; [done|]. unfold topology. congruence.
Qed.

Lemma walk_topology g g' u vs v c : same_topology g g' -> walk g u vs v c -> walk g' u vs v c.
Proof.
  intros Ht. induction 1 as [u Hu|u w vs v c1 c2 He Hw IH].
  - apply walk_one. by apply (same_topology_is_Some g g').
  - apply walk_cons with w; [by eapply edge_in_topology|done].
Qed.

Lemma h_at_topology g g' (h : State -> State -> Z) goal u :
  same_topology g g' -> h_at g' h goal u = h_at g h goal u.
Proof.
  intros Ht. unfold h_at. pose proof (Ht u) as Hu. pose proof (Ht goal) as Hg.
  destruct (g !! u) as [uv|], (g' !! u) as [uv'|]; simpl in *; try done.
  destruct (g !! goal) as [gv|], (g' !! goal) as [gv'|]; simpl in *; try done.
  unfold topology in *. injection Hu as -> _ _ _. injection Hg as -> _ _ _. done.
Qed.

Lemma h_at_lookup g (h : State -> State -> Z) goal u uv gv :
  g !! u = Some uv -> g !! goal = Some gv ->
  h_at g h goal u = Some (h (state_ uv) (state_ gv)).
Proof. intros Hu Hg. unfold h_at. by rewrite Hu, Hg. Qed.

(** Consistency along a walk. *)
Lemma walk_consistent g (h : State -> State -> Z) goal u vs v c hu hv :
  consistent g h goal -> is_Some (g !! goal) -> walk g u vs v c ->
  h_at g h goal u = Some hu -> h_at g h goal v = Some hv -> hu ≤ c + hv.
Proof.
  intros Hcons [gv Hgv] Hw. revert hu.
  induction Hw as [u Hu|u w vs v c1 c2 He Hw IH]; intros hu Hhu Hhv.
  - rewrite Hhu in Hhv. injection Hhv as ->. lia.
  - destruct (walk_first _ _ _ _ _ Hw) as [[wv Hwv] _].
    pose proof (h_at_lookup g h goal w wv gv Hwv Hgv) as Hhw.
    pose proof (Hcons _ _ _ _ _ He Hhu Hhw).
    pose proof (IH _ Hhw Hhv). lia.
Qed.

(** A walk from an expanded vertex to one that is not crosses the border. *)
Lemma walk_border g (C : Z -> bool) u vs v c :
  walk g u vs v c -> C u = true -> C v = false ->
  ∃ x y vs1 vs2 c1 ce c2,
    C x = true ∧ C y = false ∧ walk g u vs1 x c1 ∧ edge_in g x y ce ∧
    walk g y vs2 v c2 ∧ c = c1 + ce + c2.
Proof.
  induction 1 as [u Hu|u w vs v c1 c2 He Hw IH]; intros Hcu Hcv; [congruence|].
  assert (Hu : is_Some (g !! u)) by (destruct He as (uv & _ & Huv & _); eauto).
  destruct (C w) eqn:Hcw.
  - destruct (IH eq_refl Hcv) as (x & y & vs1 & vs2 & d1 & de & d2 & Hx & Hy & H1 & Hxy & H2 & ->).
    exists x, y, (u :: vs1), vs2, (c1 + d1), de, d2.
    repeat split; try done; [|lia]. by apply walk_cons with w.
  - exists u, w, [u], vs, 0, c1, c2. repeat split; try done. by apply walk_one.
Qed.

Lemma find_edge_NoDup (es : list Edge) e :
  NoDup (dst_ <$> es) -> e ∈ es -> find (fun x => dst_ x =? dst_ e) es = Some e.
Proof.
  induction es as [|x es IH]; csimpl; intros Hnd Hin; [by apply elem_of_nil in Hin|].
  apply NoDup_cons in Hnd as [Hx Hnd].
  apply elem_of_cons in Hin as [->|Hin]; [by rewrite Z.eqb_refl|].
  destruct (Z.eqb_spec (dst_ x) (dst_ e)) as [Heq|Hne]; [|by apply IH].
  exfalso. apply Hx. rewrite Heq. by apply list_elem_of_fmap_2.
Qed.

Lemma edge_cost_wf g u v c : graph_wf g -> edge_in g u v c -> edge_cost g u v = Some c.
Proof.
  intros Hwf (uv & e & Huv & He & <- & <-). unfold edge_cost. rewrite Huv. simpl.
  destruct (Hwf u uv Huv) as (_ & _ & Hnd & _).
  by rewrite (find_edge_NoDup _ e Hnd He).
Qed.

(** On a well-formed graph the cost of a walk is the cost of its vertex
    sequence. *)
Lemma walk_path_cost g u vs v c : graph_wf g -> walk g u vs v c -> path_cost g vs = Some c.
Proof.
  intros Hwf. induction 1 as [u [uv Hu]|u w vs v c1 c2 He Hw IH].
  - simpl. by rewrite Hu.
  - destruct (walk_first _ _ _ _ _ Hw) as [_ [tl ->]].
    change (path_cost g (u :: w :: tl))
      with (c ← edge_cost g u w; r ← path_cost g (w :: tl); Some (c + r)).
    rewrite (edge_cost_wf g u w c1 Hwf He), IH. done.
Qed.

Lemma parent_chain_last_elem g start v vs : parent_chain g start v vs -> v ∈ vs.
Proof.
  destruct 1; [left|]. apply elem_of_app. right. left.
Qed.

(** The chain depends on the parents of its own vertices only. *)
Lemma parent_chain_ext g g' start v vs :
  parent_chain g start v vs ->
  (∀ x xv, x ∈ vs -> x ≠ start -> g !! x = Some xv ->
     ∃ xv', g' !! x = Some xv' ∧ search_parent_ xv' = search_parent_ xv) ->
  parent_chain g' start v vs.
Proof.
  induction 1 as [|v vv u vs Hne Hv Hp Hch IH]; intros Hext; [constructor|].
  destruct (Hext v vv) as (vv' & Hv' & Hp'); [apply elem_of_app; right; left|done..|].
  apply chain_step with vv' u; [done|done|congruence|].
  apply IH. intros x xv Hx. apply Hext. apply elem_of_app. by left.
Qed.

(** [ReconstructPath] walks the chain when the fuel covers its length. *)
Lemma reconstruct_loop_chain g start v vs fuel acc :
  parent_chain g start v vs -> (length vs ≤ S fuel)%nat ->
  AStar.reconstruct_loop g start fuel v acc = Some (vs ++ acc).
Proof.
  intros Hch. revert fuel acc.
  induction Hch as [|v vv u vs Hne Hv Hp Hch IH]; intros fuel acc Hlen.
  - apply reconstruct_loop_start.
  - rewrite length_app in Hlen. simpl in Hlen.
    assert (Hpos : (1 ≤ length vs)%nat).
    { destruct Hch; [simpl; lia|]. rewrite length_app. simpl. lia. }
    destruct fuel as [|fuel]; [lia|]. simpl.
    destruct (Z.eqb_spec v start) as [?|_]; [done|].
    rewrite Hv. simpl. rewrite Hp. simpl.
    rewrite IH by lia. by rewrite <- app_assoc.
Qed.

End WalkFacts.

(** ** The loop invariant of [PerformSearch] *)

Section Invariant.
Context {State : Type} `{StateIndexer State}.
Variable g0 : Graph State.
Variable h : State -> State -> Z.
Variables start goal : Z.
Implicit Types (g : Graph State) (q : list (Z * Z)) (es : list Edge).

Local Abbreviation inv := (search_inv g0 h start goal).

Lemma lookup_insert_mark g cur (cv : Vertex State) id v :
  g !! cur = Some cv -> <[cur := mark_checked cv]> g !! id = Some v ->
  ∃ v0, g !! id = Some v0 ∧ topology v = topology v0 ∧
        g_cost_ v = g_cost_ v0 ∧ search_parent_ v = search_parent_ v0 ∧
        ((id = cur ∧ v0 = cv ∧ v = mark_checked cv) ∨ (id ≠ cur ∧ v = v0)).
Proof.
  intros Hcv. rewrite lookup_insert. case_decide as Hd.
  - subst id. intros [= <-]. exists cv. repeat split; try done. by left.
  - intros Hv. exists v. repeat split; try done. by right.
Qed.

(** The invariant when a stale entry is popped. *)
Lemma inv_skip c0 g q i p cur cv :
  inv c0 [] g q -> q !! i = Some (p, cur) -> g !! cur = Some cv ->
  is_checked_ cv = true -> inv c0 [] g (delete i q).
Proof.
  intros [Htopo Hwf Hsin Hgin Hgoal Hstart Hqueue Hfront Hchain Hrel Hpend] Hi Hcv Hck.
  split; try done.
  - intros sv Hsv. destruct (Hstart sv Hsv) as [Hg0 [Hs|(_ & _ & Hall)]].
    + split; [done|]. by left.
    + destruct (Hall cur cv Hcv) as [? _]. congruence.
  - intros p' id Hin. apply Hqueue. by eapply list_elem_of_delete_inv.
  - intros id v Hv Hvck Hvop.
    destruct (Hfront id v Hv Hvck Hvop) as [->|(hv & p' & Hhv & Hin & Hp)]; [by left|].
    right. exists hv, p'. split; [done|]. split; [|done].
    destruct (elem_of_delete_other q i _ _ Hi Hin) as [[= _ ->]|?]; [congruence|done].
Qed.

(** The invariant when the popped vertex is marked expanded: all its edges
    are pending. *)
Lemma inv_mark c0 g q i p cur cv :
  inv c0 [] g q -> q !! i = Some (p, cur) -> g !! cur = Some cv ->
  is_checked_ cv = false -> cur ≠ goal ->
  inv cur (edges_to_ cv) (<[cur := mark_checked cv]> g) (delete i q).
Proof.
  intros [Htopo Hwf Hsin Hgin Hgoal Hstart Hqueue Hfront Hchain Hrel Hpend] Hi Hcv Hck Hng.
  assert (Hin : (p, cur) ∈ q) by by eapply list_elem_of_lookup_2.
  assert (Hop : is_in_openlist_ cv = true).
  { destruct (Hqueue p cur Hin) as (v & Hv & [?|[? _]]); congruence. }
  split; try done.
  - by eapply same_topology_insert.
  - intros gv. rewrite lookup_insert_ne by done. apply Hgoal.
  - intros sv Hsv.
    apply (lookup_insert_mark g cur cv start sv Hcv) in Hsv
      as (v0 & Hv0 & _ & Hg & _ & [(-> & -> & ->)|(Hne & ->)]).
    + destruct (Hstart cv Hcv) as [Hz _]. split; [done|]. by left.
    + destruct (Hstart v0 Hv0) as [Hz [?|(_ & Hq & _)]]; split; try done; [by left|].
      rewrite Hq in Hin. apply list_elem_of_singleton in Hin. congruence.
  - intros p' id Hin'. apply list_elem_of_delete_inv in Hin'.
    destruct (Hqueue p' id Hin') as (v & Hv & Hcase).
    destruct (decide (id = cur)) as [->|Hne].
    + exists (mark_checked cv). rewrite lookup_insert_eq. split; [done|]. by left.
    + exists v. rewrite lookup_insert_ne by done. done.
  - intros id v Hv Hvck Hvop.
    apply (lookup_insert_mark g cur cv id v Hcv) in Hv
      as (v0 & Hv0 & _ & _ & _ & [(-> & -> & ->)|(Hne & ->)]); [done|].
    destruct (Hfront id v0 Hv0 Hvck Hvop) as [->|(hv & p' & Hhv & Hin' & Hp)]; [by left|].
    right. exists hv, p'. split; [done|]. split; [|done].
    destruct (elem_of_delete_other q i _ _ Hi Hin') as [[= _ ->]|?]; [congruence|done].
  - intros id v Hv Hcase.
    apply (lookup_insert_mark g cur cv id v Hcv) in Hv
      as (v0 & Hv0 & _ & Hg & _ & Hid).
    assert (Hcase0 : is_checked_ v0 = true ∨ is_in_openlist_ v0 = true).
    { destruct Hid as [(-> & -> & ->)|(Hne & ->)]; [by right|done]. }
    destruct (Hchain id v0 Hv0 Hcase0) as (vs & Hch & Hw & Hnd & Hint).
    exists vs. rewrite Hg. repeat split; try done.
    + eapply parent_chain_ext; [exact Hch|]. intros x xv _ _ Hxv.
      destruct (decide (x = cur)) as [->|Hne].
      * rewrite Hcv in Hxv. injection Hxv as <-.
        exists (mark_checked cv). by rewrite lookup_insert_eq.
      * exists xv. by rewrite lookup_insert_ne.
    + intros x Hx Hxid. destruct (Hint x Hx Hxid) as (xv & Hxv & Hxck).
      destruct (decide (x = cur)) as [->|Hne].
      * exists (mark_checked cv). by rewrite lookup_insert_eq.
      * exists xv. by rewrite lookup_insert_ne.
  - intros u uv e Huv Huck He.
    apply (lookup_insert_mark g cur cv u uv Hcv) in Huv
      as (v0 & Hv0 & _ & Hg & _ & [(-> & -> & ->)|(Hne & ->)]).
    + left. done.
    + destruct (Hrel u v0 e Hv0 Huck He) as [[_ ?%elem_of_nil]|(dv & Hdv & Hd)]; [done|].
      right. destruct (decide (dst_ e = cur)) as [Hdc|Hdc].
      * exists (mark_checked cv). rewrite Hdc, lookup_insert_eq. split; [done|]. by left.
      * exists dv. rewrite lookup_insert_ne by done. done.
  - intros e He. exists (mark_checked cv). by rewrite lookup_insert_eq.
Qed.

Lemma inv_start_checked cur es g q cv :
  inv cur es g q -> g !! cur = Some cv -> is_checked_ cv = true ->
  ∃ sv, g !! start = Some sv ∧ is_checked_ sv = true.
Proof.
  intros [Htopo Hwf Hsin Hgin Hgoal Hstart Hqueue Hfront Hchain Hrel Hpend] Hcv Hck.
  apply (same_topology_is_Some g0 g start Htopo) in Hsin as [sv Hsv].
  exists sv. split; [done|].
  destruct (Hstart sv Hsv) as [_ [?|(_ & _ & Hall)]]; [done|].
  destruct (Hall cur cv Hcv). congruence.
Qed.

(** The invariant across the relaxation of the first pending edge. *)
Lemma inv_relax_edge cur e rest g q g' q' :
  inv cur (e :: rest) g q ->
  AStar.relax_edge h goal cur e (g, q) = Some (g', q') ->
  inv cur rest g' q'.
Proof.
  intros I Hr.
  destruct (inv_pending _ _ _ _ _ _ _ _ I e) as (cv & Hcv & Hck & He); [left|].
  destruct (inv_start_checked _ _ _ _ _ I Hcv Hck) as (stv & Hstv & Hstck).
  destruct I as [Htopo Hwf Hsin Hgin Hgoal Hstart Hqueue Hfront Hchain Hrel Hpend].
  (* the sums of this relaxation are exact when those of the search are *)
  assert (Hexact : exact_costs g0 h start goal ->
            ∀ sv hv, g !! dst_ e = Some sv -> is_checked_ sv = false ->
              h_at g0 h goal (dst_ e) = Some hv ->
              Transition_add (g_cost_ cv) (cost_ e) = g_cost_ cv + cost_ e ∧
              to_Number (Transition_add (Transition_add (g_cost_ cv) (cost_ e)) hv)
              = g_cost_ cv + cost_ e + hv).
  { intros Hex sv hv Hsv Hsck Hhat.
    destruct (Hchain cur cv Hcv (or_introl Hck)) as (vs & Hch & (c & Hw & Hc) & Hnd & Hint).
    rewrite (Hc Hex).
    assert (Hall : ∀ x, x ∈ vs -> ∃ xv, g !! x = Some xv ∧ is_checked_ xv = true).
    { intros x Hx. destruct (decide (x = cur)) as [->|Hne]; [eauto|by apply Hint]. }
    assert (Hdvs : dst_ e ∉ vs).
    { intros Hin. destruct (Hall _ Hin) as (xv & Hxv & Hxck). congruence. }
    assert (Hw' : walk g0 start (vs ++ [dst_ e]) (dst_ e) (c + cost_ e)).
    { apply walk_snoc with cur; [done| |].
      - apply (edge_in_topology g g0); [by apply same_topology_sym|].
        exists cv, e. done.
      - apply (same_topology_is_Some g0 g (dst_ e) Htopo). eauto. }
    assert (Hnd' : NoDup (vs ++ [dst_ e])).
    { apply NoDup_app. repeat split; [done| |apply NoDup_singleton].
      intros x Hx ->%list_elem_of_singleton. done. }
    destruct (Hex _ _ _ _ Hw' Hnd' Hhat) as [Hb1 Hb2].
    rewrite (Transition_add_exact c (cost_ e) Hb1).
    rewrite (Transition_add_exact (c + cost_ e) hv Hb2).
    split; [done|]. by apply to_Number_exact. }
  apply relax_edge_inv in Hr as (sv & Hsv &
    [(-> & -> & HA)|(Hsck & cv' & gv & Hcv' & Hgv & Hcond & -> & ->)]).
  - (* nothing written *)
    split; try done.
    + intros u uv e' Huv Huck He'.
      destruct (Hrel u uv e' Huv Huck He') as [[-> Hin]|?]; [|by right].
      apply elem_of_cons in Hin as [->|Hin]; [|by left].
      right. exists sv. split; [done|].
      destruct (is_checked_ sv) eqn:Hsck; [by left|].
      destruct HA as [?|(cv' & Hcv' & Hop & Hle)]; [done|].
      right. rewrite Hcv in Huv, Hcv'. injection Huv as <-. injection Hcv' as <-.
      split; [done|]. intros Hex.
      destruct Hgin as [gv0 Hgv0].
      destruct (same_topology_is_Some g0 g goal Htopo) as [[gv Hgv] _]; [eauto|].
      assert (Hhat : h_at g0 h goal (dst_ e)
                     = Some (h (state_ sv) (state_ gv))).
      { rewrite <- (h_at_topology g0 g h goal (dst_ e) Htopo). by apply h_at_lookup. }
      destruct (Hexact Hex sv _ Hsv Hsck Hhat) as [<- _]. done.
    + intros e' He'. apply Hpend. by right.
  - (* the successor is written and pushed *)
    rewrite Hcv in Hcv'. injection Hcv' as <-.
    set (d := dst_ e) in *.
    set (hv := h (state_ sv) (state_ gv)) in *.
    assert (Hdc : d ≠ cur) by (intros Hd; rewrite Hd in Hsv; congruence).
    assert (Hds : d ≠ start) by (intros Hd; rewrite Hd in Hsv; congruence).
    assert (Hhat : h_at g0 h goal d = Some hv).
    { rewrite <- (h_at_topology g0 g h goal d Htopo). by apply h_at_lookup. }
    assert (Hsum : exact_costs g0 h start goal ->
              Transition_add (g_cost_ cv) (cost_ e) = g_cost_ cv + cost_ e ∧
              to_Number (Transition_add (Transition_add (g_cost_ cv) (cost_ e)) hv)
              = g_cost_ cv + cost_ e + hv).
    { intros Hex. by apply (Hexact Hex sv hv). }
    clear Hexact.
    set (new := Transition_add (g_cost_ cv) (cost_ e)) in *.
    assert (Hold : ∀ x xv, x ≠ d -> g !! x = Some xv ->
              <[d := relaxed cur new hv sv]> g !! x = Some xv).
    { intros x xv Hx Hxv. by rewrite lookup_insert_ne. }
    assert (Hchecked : ∀ x xv, g !! x = Some xv -> is_checked_ xv = true -> x ≠ d).
    { intros x xv Hxv Hxck ->. congruence. }
    split; try done.
    + by eapply same_topology_insert.
    + intros gv'. rewrite lookup_insert. case_decide; [|apply Hgoal].
      intros [= <-]. done.
    + intros sv'. rewrite lookup_insert_ne by done. intros Hsv'.
      destruct (Hstart sv' Hsv') as [Hz _]. split; [done|]. left. congruence.
    + intros p' id Hin. apply elem_of_put in Hin as [Hin|Heq].
      2: { injection Heq as -> ->.
           exists (relaxed cur new hv sv). rewrite lookup_insert_eq. split; [done|].
           right. split; [done|]. right. exists hv. split; [done|]. simpl.
           intros Hex. destruct (Hsum Hex) as [E1 E2]. lia. }
      destruct (Hqueue p' id Hin) as (v & Hv & Hcase).
      destruct (decide (id = d)) as [->|Hne].
      * exists (relaxed cur new hv sv). rewrite lookup_insert_eq. split; [done|].
        right. split; [done|]. right. exists hv. split; [done|]. simpl.
        rewrite Hsv in Hv. injection Hv as <-.
        destruct Hcase as [?|(Hop & [?|(hv' & Hhv' & Hle)])]; [congruence|done|].
        rewrite Hhat in Hhv'. injection Hhv' as <-.
        intros Hex. specialize (Hle Hex).
        destruct Hcond as [?|?]; [congruence|lia].
      * exists v. split; [by apply Hold|done].
    + intros id v Hv Hvck Hvop. rewrite lookup_insert in Hv. case_decide as Hd.
      * subst id. injection Hv as <-. right.
        exists hv, (to_Number (Transition_add new hv)). split; [done|]. split.
        -- apply elem_of_put. by right.
        -- simpl. intros Hex. destruct (Hsum Hex) as [E1 E2]. lia.
      * destruct (Hfront id v Hv Hvck Hvop) as [->|(hv' & p' & Hhv' & Hin & Hp)]; [by left|].
        right. exists hv', p'. split; [done|]. split; [|done].
        apply elem_of_put. by left.
    + intros id v Hv Hcase. rewrite lookup_insert in Hv. case_decide as Hd.
      * subst id. injection Hv as <-.
        destruct (Hchain cur cv Hcv (or_introl Hck))
          as (vs & Hch & (c & Hw & Hc) & Hnd & Hint).
        assert (Hall : ∀ x, x ∈ vs -> ∃ xv, g !! x = Some xv ∧ is_checked_ xv = true).
        { intros x Hx. destruct (decide (x = cur)) as [->|Hne]; [eauto|by apply Hint]. }
        assert (Hdvs : d ∉ vs).
        { intros Hin. destruct (Hall d Hin) as (xv & Hxv & Hxck). congruence. }
        exists (vs ++ [d]). split; [|split; [|split]].
        -- apply chain_step with (relaxed cur new hv sv) cur; [done| |done|].
           ++ apply lookup_insert_eq.
           ++ eapply parent_chain_ext; [exact Hch|]. intros x xv Hx _ Hxv.
              exists xv. split; [|done]. apply Hold; [|done]. intros ->. done.
        -- exists (c + cost_ e). split.
           ++ apply walk_snoc with cur; [done| |].
              ** apply (edge_in_topology g g0); [by apply same_topology_sym|].
                 exists cv, e. done.
              ** apply (same_topology_is_Some g0 g d Htopo). eauto.
           ++ simpl. intros Hex. destruct (Hsum Hex) as [E1 _].
              rewrite <- (Hc Hex). done.
        -- apply NoDup_app. repeat split; [done| |apply NoDup_singleton].
           intros x Hx ->%list_elem_of_singleton. done.
        -- intros x [Hx| ->%list_elem_of_singleton]%elem_of_app Hxd; [|done].
           destruct (Hall x Hx) as (xv & Hxv & Hxck). exists xv. split; [|done].
           by apply Hold.
      * destruct (Hchain id v Hv Hcase) as (vs & Hch & Hw & Hnd & Hint).
        assert (Hdvs : d ∉ vs).
        { intros Hin. destruct (Hint d Hin) as (xv & Hxv & Hxck); [done|]. congruence. }
        exists vs. split; [|split; [done|split; [done|]]].
        -- eapply parent_chain_ext; [exact Hch|]. intros x xv Hx _ Hxv.
           exists xv. split; [|done]. apply Hold; [|done]. intros ->. done.
        -- intros x Hx Hxid. destruct (Hint x Hx Hxid) as (xv & Hxv & Hxck).
           exists xv. split; [|done]. apply Hold; [|done]. by eapply Hchecked.
    + intros u uv e' Huv Huck He'. rewrite lookup_insert in Huv. case_decide as Hd.
      { subst u. injection Huv as <-. simpl in Huck. congruence. }
      assert (Hnew : dst_ e' = d ->
                (exact_costs g0 h start goal ->
                 g_cost_ sv ≤ g_cost_ uv + cost_ e' ∨ new ≤ g_cost_ uv + cost_ e') ->
                is_in_openlist_ sv = true ∨
                (exact_costs g0 h start goal -> new ≤ g_cost_ uv + cost_ e') ->
                ∃ dv, <[d := relaxed cur new hv sv]> g !! dst_ e' = Some dv ∧
                  (is_checked_ dv = true ∨
                   is_in_openlist_ dv = true ∧
                   (exact_costs g0 h start goal -> g_cost_ dv ≤ g_cost_ uv + cost_ e'))).
      { intros Hde Hle Hop. exists (relaxed cur new hv sv).
        rewrite Hde, lookup_insert_eq. split; [done|]. right. split; [done|]. simpl.
        intros Hex.
        destruct (Hle Hex) as [Hle'|?]; [|done]. destruct Hop as [Hop|Hq]; [|by apply Hq].
        destruct Hcond as [?|?]; [congruence|lia]. }
      destruct (Hrel u uv e' Huv Huck He') as [[-> Hin]|(dv & Hdv & Hdcase)].
      * apply elem_of_cons in Hin as [->|Hin]; [|by left].
        right. rewrite Hcv in Huv. injection Huv as <-.
        apply Hnew; [done| |right]; intros Hex; destruct (Hsum Hex) as [E1 _];
          [right|]; lia.
      * right. destruct (decide (dst_ e' = d)) as [Hde|Hde].
        -- rewrite Hde, Hsv in Hdv. injection Hdv as <-.
           destruct Hdcase as [?|[Hop Hle]]; [congruence|].
           apply Hnew; [done| |by left]. intros Hex. left. by apply Hle.
        -- exists dv. split; [by apply Hold|done].
    + intros e' He'. exists cv. split; [by apply Hold|]. split; [done|].
      destruct (Hpend e') as (cv' & Hcv' & _ & Hin); [by right|]. congruence.
Qed.

Lemma inv_relax_edges cur es g q g' q' :
  inv cur es g q ->
  AStar.relax_edges h goal cur es (g, q) = Some (g', q') ->
  inv cur [] g' q'.
Proof.
  revert g q. induction es as [|e es IH]; intros g q I; simpl.
  - by intros [= <- <-].
  - destruct (AStar.relax_edge h goal cur e (g, q)) as [[g1 q1]|] eqn:E; [|done]. simpl.
    apply IH. by eapply inv_relax_edge.
Qed.

(** No reference dangles: the relaxations go through. *)
Lemma relax_edges_is_Some cur es g q :
  inv cur es g q -> is_Some (AStar.relax_edges h goal cur es (g, q)).
Proof.
  revert g q. induction es as [|e es IH]; intros g q I; simpl; [eauto|].
  destruct (inv_pending _ _ _ _ _ _ _ _ I e) as (cv & Hcv & Hck & He); [left|].
  assert (Hsome : is_Some (AStar.relax_edge h goal cur e (g, q))).
  { pose proof (inv_topo _ _ _ _ _ _ _ _ I) as Htopo.
    destruct (same_topology_lookup g g0 cur cv (same_topology_sym _ _ Htopo) Hcv)
      as (cv0 & Hcv0 & Ht0).
    unfold topology in Ht0. injection Ht0 as _ _ Hes _.
    apply relax_edge_is_Some; [|eauto|].
    - apply (same_topology_is_Some g0 g _ Htopo).
      eapply graph_wf_edge; [exact (inv_wf _ _ _ _ _ _ _ _ I)|exact Hcv0|].
      by rewrite Hes.
    - apply (same_topology_is_Some g0 g _ Htopo). exact (inv_goal_in _ _ _ _ _ _ _ _ I). }
  destruct Hsome as [[g1 q1] E]. rewrite E. simpl.
  apply IH. by eapply inv_relax_edge.
Qed.

(** With nothing pending the vertex under expansion does not matter. *)
Lemma inv_no_pending c c' g q : inv c [] g q -> inv c' [] g q.
Proof.
  intros [Htopo Hwf Hsin Hgin Hgoal Hstart Hqueue Hfront Hchain Hrel Hpend].
  split; try done.
  - intros u uv e Huv Huck He.
    destruct (Hrel u uv e Huv Huck He) as [[_ ?%elem_of_nil]|?]; [done|by right].
  - by intros e ?%elem_of_nil.
Qed.

(** The invariant holds again at the next loop test. *)
Lemma inv_search_iter tie c g q g' q' :
  inv c [] g q -> AStar.search_iter tie h goal (g, q) = Some (inl (g', q')) ->
  inv c [] g' q'.
Proof.
  intros I Hit.
  apply search_iter_inv in Hit
    as (cur & i & p & cv & Hi & Hmin & Hcv &
        [(Hck & [= -> ->])|[(Hck & _ & [=])|(Hck & Hne & st1 & Hrel & [= <-])]]).
  - by eapply inv_skip.
  - apply (inv_no_pending cur). eapply inv_relax_edges; [|exact Hrel].
    by eapply inv_mark.
Qed.

(** A pass on a non-empty open list goes through. *)
Lemma search_iter_is_Some tie c g q :
  inv c [] g q -> q ≠ [] -> is_Some (AStar.search_iter tie h goal (g, q)).
Proof.
  intros I Hq. destruct (get_is_Some tie q Hq) as [[cur q1] Hget].
  unfold AStar.search_iter. rewrite Hget. simpl.
  apply get_spec in Hget as (i & p & Hi & -> & Hmin).
  destruct (inv_queue _ _ _ _ _ _ _ _ I p cur) as (cv & Hcv & _);
    [by eapply list_elem_of_lookup_2|].
  rewrite Hcv. simpl. destruct (is_checked_ cv) eqn:Hck; [eauto|].
  destruct (Z.eqb_spec cur goal) as [Heq|Hne]; [eauto|].
  destruct (relax_edges_is_Some cur (edges_to_ cv) (<[cur := mark_checked cv]> g) (delete i q))
    as [st' ->]; [by eapply inv_mark|]. simpl. eauto.
Qed.

(** The vertex that is popped unexpanded has its final g-cost: no walk from
    the start is cheaper. *)
Lemma popped_optimal c g q i p cur cv :
  inv c [] g q -> opt_inv g0 start g ->
  nonneg_costs g0 -> consistent g0 h goal -> exact_costs g0 h start goal ->
  q !! i = Some (p, cur) -> (∀ x, x ∈ q -> p ≤ x.1) ->
  g !! cur = Some cv -> is_checked_ cv = false ->
  ∀ vs w, walk g0 start vs cur w -> g_cost_ cv ≤ w.
Proof.
  intros I Hopt Hnn Hcons Hex Hi Hmin Hcv Hck vs w Hw.
  assert (Hin : (p, cur) ∈ q) by by eapply list_elem_of_lookup_2.
  destruct I as [Htopo Hwf Hsin Hgin Hgoal Hstart Hqueue Hfront Hchain Hrel Hpend].
  destruct (decide (cur = start)) as [->|Hcs].
  { destruct (Hstart cv Hcv) as [-> _]. by eapply walk_nonneg. }
  assert (Hsck : ∃ sv, g !! start = Some sv ∧ is_checked_ sv = true).
  { apply (same_topology_is_Some g0 g start Htopo) in Hsin as [sv Hsv].
    exists sv. split; [done|].
    destruct (Hstart sv Hsv) as [_ [?|(_ & Hq & _)]]; [done|].
    rewrite Hq in Hin. apply list_elem_of_singleton in Hin. congruence. }
  destruct Hsck as (sv & Hsv & Hsvck).
  set (C := fun x : Z => match g !! x with Some v => is_checked_ v | None => false end).
  destruct (walk_border g0 C start vs cur w Hw) as
    (x & y & vs1 & vs2 & c1 & ce & c2 & Hx & Hy & H1 & Hxy & H2 & ->).
  { unfold C. by rewrite Hsv. }
  { unfold C. by rewrite Hcv. }
  unfold C in Hx, Hy.
  destruct (g !! x) as [xv|] eqn:Hxv; [|done].
  pose proof (Hopt x xv Hxv Hx _ _ H1) as Hgx.
  destruct (edge_in_topology g0 g x y ce Htopo Hxy) as (xv' & e & Hxv' & He & Hde & Hce).
  rewrite Hxv in Hxv'. injection Hxv' as <-.
  destruct (Hrel x xv e Hxv Hx He) as [[_ ?%elem_of_nil]|(dv & Hdv & Hd)]; [done|].
  rewrite Hde in Hdv. rewrite Hdv in Hy.
  destruct Hd as [?|[Hdop Hdle]]; [congruence|]. specialize (Hdle Hex).
  destruct (Hfront y dv Hdv Hy Hdop) as [->|(hy & py & Hhy & Hyin & Hpy')]; [congruence|].
  specialize (Hpy' Hex).
  pose proof (Hmin _ Hyin) as Hpy. simpl in Hpy.
  destruct (Hqueue p cur Hin) as (cv' & Hcv' & Hcase).
  rewrite Hcv in Hcv'. injection Hcv' as <-.
  destruct Hcase as [?|(_ & [?|(hc & Hhc & Hpc)])]; [congruence|done|].
  specialize (Hpc Hex).
  pose proof (walk_consistent g0 h goal y vs2 cur c2 hy hc Hcons Hgin H2 Hhy Hhc).
  lia.
Qed.

Lemma opt_inv_mark c g q i p cur cv :
  inv c [] g q -> opt_inv g0 start g ->
  nonneg_costs g0 -> consistent g0 h goal -> exact_costs g0 h start goal ->
  q !! i = Some (p, cur) -> (∀ x, x ∈ q -> p ≤ x.1) ->
  g !! cur = Some cv -> is_checked_ cv = false ->
  opt_inv g0 start (<[cur := mark_checked cv]> g).
Proof.
  intros I Hopt Hnn Hcons Hex Hi Hmin Hcv Hck u uv Huv Huck vs w Hw.
  apply (lookup_insert_mark g cur cv u uv Hcv) in Huv
    as (v0 & Hv0 & _ & Hg & _ & [(-> & -> & ->)|(Hne & ->)]).
  - simpl. by eapply popped_optimal.
  - by eapply Hopt.
Qed.

Lemma opt_inv_relax_edge cur e g q g' q' :
  opt_inv g0 start g -> AStar.relax_edge h goal cur e (g, q) = Some (g', q') ->
  opt_inv g0 start g'.
Proof.
  intros Hopt Hr.
  apply relax_edge_inv in Hr as (sv & Hsv &
    [(-> & -> & _)|(Hsck & cv' & gv & _ & _ & _ & -> & ->)]); [done|].
  intros u uv Huv Huck. rewrite lookup_insert in Huv. case_decide as Hd.
  - injection Huv as <-. simpl in Huck. congruence.
  - by eapply Hopt.
Qed.

Lemma opt_inv_relax_edges cur es g q g' q' :
  opt_inv g0 start g -> AStar.relax_edges h goal cur es (g, q) = Some (g', q') ->
  opt_inv g0 start g'.
Proof.
  revert g q. induction es as [|e es IH]; intros g q Hopt; simpl.
  - by intros [= <- <-].
  - destruct (AStar.relax_edge h goal cur e (g, q)) as [[g1 q1]|] eqn:E; [|done]. simpl.
    apply IH. by eapply opt_inv_relax_edge.
Qed.

Lemma opt_inv_search_iter tie c g q g' q' :
  inv c [] g q -> opt_inv g0 start g ->
  nonneg_costs g0 -> consistent g0 h goal -> exact_costs g0 h start goal ->
  AStar.search_iter tie h goal (g, q) = Some (inl (g', q')) ->
  opt_inv g0 start g'.
Proof.
  intros I Hopt Hnn Hcons Hex Hit.
  apply search_iter_inv in Hit
    as (cur & i & p & cv & Hi & Hmin & Hcv &
        [(Hck & [= -> ->])|[(Hck & _ & [=])|(Hck & Hne & st1 & Hrel & [= <-])]]).
  - done.
  - eapply opt_inv_relax_edges; [|exact Hrel]. by eapply opt_inv_mark.
Qed.

End Invariant.

(** ** Termination of the loop *)

Section Termination.
Context {State : Type} `{StateIndexer State}.
Variable tie : list (Z * Z) -> nat.
Variable h : State -> State -> Z.
Variable goal : Z.
Implicit Types (g : Graph State) (q : list (Z * Z)) (es : list Edge).

Lemma pending_work_insert g id (v v' : Vertex State) :
  g !! id = Some v ->
  (pending_work (<[id := v']> g) + vertex_work v = pending_work g + vertex_work v')%nat.
Proof.
  intros Hv. unfold pending_work.
  rewrite <- (insert_delete_eq g), (map_to_list_insert _ id v') by apply lookup_delete_eq.
  rewrite <- (map_to_list_delete g id v Hv). simpl. lia.
Qed.

Lemma pending_work_unchecked g :
  (∀ id v, g !! id = Some v -> is_checked_ v = false) ->
  pending_work g = length (GetAllEdges g).
Proof.
  intros Hall. unfold pending_work, GetAllEdges.
  assert (Hl : Forall (fun kv => is_checked_ kv.2 = false) (map_to_list g)).
  { apply Forall_forall. intros [id v] Hin. apply elem_of_map_to_list in Hin.
    by eapply Hall. }
  induction Hl as [|[id v] l Hv _ IH]; [done|].
  rewrite bind_cons, length_app. simpl in *. unfold vertex_work at 1.
  rewrite Hv, IH. done.
Qed.

Lemma relax_edge_measure cur e g q g' q' :
  AStar.relax_edge h goal cur e (g, q) = Some (g', q') ->
  pending_work g' = pending_work g ∧ (length q' ≤ S (length q))%nat.
Proof.
  intros Hr.
  apply relax_edge_inv in Hr as (sv & Hsv &
    [(-> & -> & _)|(Hsck & cv' & gv & _ & _ & _ & -> & ->)]); [split; [done|lia]|].
  split.
  - pose proof (pending_work_insert g (dst_ e) sv
      (relaxed cur (Transition_add (g_cost_ cv') (cost_ e)) (h (state_ sv) (state_ gv)) sv)
      Hsv) as Hw.
    unfold vertex_work in Hw. simpl in Hw. lia.
  - unfold PriorityQueue.put. rewrite length_app. simpl. lia.
Qed.

Lemma relax_edges_measure cur es g q g' q' :
  AStar.relax_edges h goal cur es (g, q) = Some (g', q') ->
  pending_work g' = pending_work g ∧ (length q' ≤ length q + length es)%nat.
Proof.
  revert g q. induction es as [|e es IH]; intros g q; simpl.
  - intros [= <- <-]. split; [done|lia].
  - destruct (AStar.relax_edge h goal cur e (g, q)) as [[g1 q1]|] eqn:E; [|done]. simpl.
    intros Hr. destruct (relax_edge_measure _ _ _ _ _ _ E) as [Hw Hq].
    destruct (IH _ _ Hr) as [Hw' Hq']. split; [congruence|lia].
Qed.

(** Every pass that goes on takes off from the work left. *)
Lemma search_iter_measure g q g' q' :
  AStar.search_iter tie h goal (g, q) = Some (inl (g', q')) ->
  (pending_work g' + length q' < pending_work g + length q)%nat.
Proof.
  intros Hit.
  apply search_iter_inv in Hit
    as (cur & i & p & cv & Hi & Hmin & Hcv &
        [(Hck & [= -> ->])|[(Hck & _ & [=])|(Hck & Hne & st1 & Hrel & [= <-])]]).
  - apply lookup_lt_Some in Hi. rewrite length_delete by eauto using lookup_lt_is_Some_2.
    lia.
  - destruct (relax_edges_measure _ _ _ _ _ _ Hrel) as [Hw Hq].
    pose proof (pending_work_insert g cur cv (mark_checked cv) Hcv) as Hm.
    unfold vertex_work in Hm. simpl in Hm. rewrite Hck in Hm.
    apply lookup_lt_Some in Hi as Hlt.
    rewrite length_delete in Hq by eauto using lookup_lt_is_Some_2. lia.
Qed.

End Termination.

(** ** A whole run of [PerformSearch] *)

Section Run.
Context {State : Type} `{StateIndexer State}.
Variable tie : list (Z * Z) -> nat.
Variable h : State -> State -> Z.
Implicit Types (g : Graph State) (q : list (Z * Z)) (es : list Edge).

(** With fuel for the work left the loop ends, in a state where the invariant
    (and whatever else the passes keep) holds: with the goal on top of the open
    list, or with the open list empty. *)
Lemma search_loop_run g0 start goal (P : Graph State -> Prop) fuel g q :
  (∀ g q g' q', search_inv g0 h start goal start [] g q -> P g ->
     AStar.search_iter tie h goal (g, q) = Some (inl (g', q')) -> P g') ->
  search_inv g0 h start goal start [] g q -> P g ->
  (pending_work g + length q ≤ fuel)%nat ->
  ∃ g' found, AStar.search_loop tie h goal fuel (g, q) = Some (g', found) ∧ P g' ∧
    ∃ q', search_inv g0 h start goal start [] g' q' ∧
      if found
      then ∃ i p gv, q' !! i = Some (p, goal) ∧ (∀ x, x ∈ q' -> p ≤ x.1) ∧
             g' !! goal = Some gv ∧ is_checked_ gv = false
      else q' = [].
Proof.
  intros HP. revert g q. induction fuel as [|fuel IH]; intros g q I Pg Hfuel.
  - destruct q as [|x q]; [|simpl in Hfuel; lia].
    exists g, false. simpl. split; [done|]. split; [done|]. by exists [].
  - rewrite search_loop_unfold. cbn [fst snd].
    destruct (PriorityQueue.empty q) eqn:Hq.
    { apply empty_true in Hq as ->. exists g, false. split; [done|]. split; [done|].
      by exists []. }
    apply empty_false in Hq.
    destruct (search_iter_is_Some g0 h start goal tie start g q I Hq) as [r Hr].
    rewrite Hr. simpl. destruct r as [[g1 q1]|g1].
    + apply IH.
      * by eapply inv_search_iter.
      * by eapply HP.
      * pose proof (search_iter_measure tie h goal g q g1 q1 Hr). lia.
    + apply search_iter_inv in Hr
        as (cur & i & p & cv & Hi & Hmin & Hcv &
            [(Hck & [=])|[(Hck & -> & [= ->])|(Hck & Hne & st1 & Hrel & [=])]]).
      exists g, true. split; [done|]. split; [done|]. exists q. split; [done|].
      exists i, p, cv. done.
Qed.

(** The invariant at the first loop test, on a graph whose flags are clear. *)
Lemma inv_seed g start goal :
  graph_wf g ->
  (∀ id v, g !! id = Some v -> is_checked_ v = false ∧ is_in_openlist_ v = false) ->
  is_Some (g !! start) -> is_Some (g !! goal) ->
  search_inv (AStar.seed g start).1 h start goal start []
    (AStar.seed g start).1 (AStar.seed g start).2.
Proof.
  intros Hwf Hclear [sv Hsv] [gv Hgv].
  assert (Htopo : same_topology g (AStar.seed g start).1).
  { intros id. rewrite lookup_seed. case_decide; [subst id|done].
    rewrite Hsv. done. }
  assert (Hlook : ∀ id v, (AStar.seed g start).1 !! id = Some v ->
            is_checked_ v = false ∧
            ((id = start ∧ v = seed_start sv) ∨
             (id ≠ start ∧ g !! id = Some v ∧ is_in_openlist_ v = false))).
  { intros id v. rewrite lookup_seed. case_decide as Hd.
    - subst id. rewrite Hsv. intros [= <-]. simpl.
      destruct (Hclear start sv Hsv). split; [done|]. by left.
    - intros Hv. destruct (Hclear id v Hv). split; [done|]. right. done. }
  unfold AStar.seed at 3. cbn [snd PriorityQueue.put app].
  split.
  - done.
  - by eapply graph_wf_same_topology.
  - apply (same_topology_is_Some g _ start Htopo). eauto.
  - apply (same_topology_is_Some g _ goal Htopo). eauto.
  - intros v Hv. by destruct (Hlook goal v Hv).
  - intros v Hv. destruct (Hlook start v Hv) as [Hck [(_ & ->)|(? & _)]]; [|done].
    split; [done|]. right. split; [done|]. split; [done|].
    intros id u Hu. destruct (Hlook id u Hu) as [Huck [(-> & ->)|(Hne & _ & Hop)]].
    + done.
    + split; [done|]. congruence.
  - intros p id [= -> ->]%list_elem_of_singleton.
    exists (seed_start sv). rewrite lookup_seed, decide_True, Hsv by done.
    split; [done|]. right. split; [done|]. by left.
  - intros id v Hv _ Hop. destruct (Hlook id v Hv) as [_ [(-> & _)|(_ & _ & ?)]].
    + by left.
    + congruence.
  - intros id v Hv Hcase.
    destruct (Hlook id v Hv) as [Hck [(-> & ->)|(_ & _ & Hop)]].
    + exists [start]. split; [|split; [|split]].
      * constructor.
      * exists 0. split; [|done].
        apply walk_one. apply (same_topology_is_Some g _ start Htopo). eauto.
      * apply NoDup_singleton.
      * intros x ->%list_elem_of_singleton. done.
    + destruct Hcase; congruence.
  - intros u uv e Huv Huck. destruct (Hlook u uv Huv). congruence.
  - by intros e ?%elem_of_nil.
Qed.

Lemma pending_work_seed g start :
  (∀ id v, g !! id = Some v -> is_checked_ v = false) ->
  pending_work (AStar.seed g start).1 = length (GetAllEdges g).
Proof.
  intros Hclear. rewrite <- (pending_work_unchecked g Hclear).
  unfold AStar.seed. cbn [fst].
  destruct (g !! start) as [sv|] eqn:Hsv.
  - rewrite (alter_as_insert _ g start sv Hsv).
    pose proof (pending_work_insert g start sv (seed_start sv) Hsv) as Hw.
    unfold vertex_work in Hw. simpl in Hw. lia.
  - f_equal. apply map_eq. intros j. rewrite lookup_alter.
    case_decide; [subst; by rewrite Hsv|done].
Qed.

Lemma NoDup_length_le_size g (vs : list Z) :
  NoDup vs -> (∀ x, x ∈ vs -> is_Some (g !! x)) -> (length vs ≤ size g)%nat.
Proof.
  intros Hnd Hin. rewrite <- length_map_to_list, <- (length_fmap fst).
  apply submseteq_length, NoDup_submseteq; [done|].
  intros x Hx. destruct (Hin x Hx) as [v Hv].
  apply list_elem_of_fmap. exists (x, v). split; [done|]. by apply elem_of_map_to_list.
Qed.

Lemma path_states_ids g (vs : list Z) :
  (∀ x, x ∈ vs -> ∃ v, g !! x = Some v ∧ GetStateIndex (state_ v) = x) ->
  ∃ path, AStar.path_states g vs = Some path ∧ GetStateIndex <$> path = vs.
Proof.
  unfold AStar.path_states. induction vs as [|x vs IH]; intros Hall.
  - by exists [].
  - destruct (Hall x) as (v & Hv & Hid); [left|].
    destruct IH as (path & Hp & Hids); [intros y Hy; apply Hall; by right|].
    exists (state_ v :: path). split; [|csimpl; by rewrite Hid, Hids].
    change (mapM (fun wp => state_ <$> g !! wp) (x :: vs))
      with (y ← state_ <$> g !! x; k ← mapM (fun wp => state_ <$> g !! wp) vs; mret (y :: k)).
    rewrite Hv. simpl. rewrite Hp. done.
Qed.

(** [finish] after a successful loop: the path is the parent chain of the
    goal, a walk of the graph, whose cost is the g-cost of the goal when the
    sums are exact. *)
Lemma finish_found g0 start goal g q i p gv :
  search_inv g0 h start goal start [] g q ->
  q !! i = Some (p, goal) -> g !! goal = Some gv -> is_checked_ gv = false ->
  ∃ path c, AStar.finish g start goal true = Some (g, path) ∧
    walk g0 start (GetStateIndex <$> path) goal c ∧
    (exact_costs g0 h start goal -> g_cost_ gv = c).
Proof.
  intros I Hi Hgv Hck.
  destruct I as [Htopo Hwf Hsin Hgin Hgoal Hstart Hqueue Hfront Hchain Hrel Hpend].
  assert (Hop : is_in_openlist_ gv = true).
  { destruct (Hqueue p goal) as (v & Hv & [?|[? _]]);
      [by eapply list_elem_of_lookup_2|congruence..]. }
  destruct (Hchain goal gv Hgv (or_intror Hop)) as (vs & Hch & (c & Hw & Hc) & Hnd & Hint).
  assert (Hall : ∀ x, x ∈ vs -> is_Some (g !! x)).
  { intros x Hx. apply (same_topology_is_Some g0 g x Htopo). by eapply walk_elem. }
  destruct (path_states_ids g vs) as (path & Hpath & Hids).
  { intros x Hx. destruct (Hall x Hx) as [v Hv]. exists v. split; [done|].
    destruct (same_topology_lookup g g0 x v (same_topology_sym _ _ Htopo) Hv)
      as (v0 & Hv0 & Ht0).
    unfold topology in Ht0. injection Ht0 as Hs _ _ _.
    destruct (Hwf x v0 Hv0) as (_ & Hid & _). congruence. }
  exists path, c. split; [|by rewrite Hids].
  unfold AStar.finish, AStar.ReconstructPath.
  rewrite (reconstruct_loop_chain g start goal vs (size g) [] Hch).
  - rewrite app_nil_r. simpl. by rewrite Hpath.
  - pose proof (NoDup_length_le_size g vs Hnd Hall). lia.
Qed.

(** When the open list runs empty, every vertex reachable from the start has
    been expanded; the goal never is. *)
Lemma exhausted_unreachable g0 start goal g :
  search_inv g0 h start goal start [] g [] -> ¬ reachable g0 start goal.
Proof.
  intros I (vs & c & Hw).
  destruct I as [Htopo Hwf Hsin Hgin Hgoal Hstart Hqueue Hfront Hchain Hrel Hpend].
  assert (Hsck : ∃ sv, g !! start = Some sv ∧ is_checked_ sv = true).
  { apply (same_topology_is_Some g0 g start Htopo) in Hsin as [sv Hsv].
    exists sv. split; [done|].
    destruct (Hstart sv Hsv) as [_ [?|(_ & Hq & _)]]; [done|discriminate]. }
  assert (Hall : ∀ u vs v c, walk g0 u vs v c ->
            (∃ uv, g !! u = Some uv ∧ is_checked_ uv = true) ->
            ∃ vv, g !! v = Some vv ∧ is_checked_ vv = true).
  { clear vs c Hw. induction 1 as [u Hu|u w vs v c1 c2 He Hw IH]; [done|].
    intros (uv & Huv & Huck). apply IH.
    destruct (edge_in_topology g0 g u w c1 Htopo He) as (uv' & e & Huv' & Hin & Hde & _).
    rewrite Huv in Huv'. injection Huv' as <-.
    destruct (Hrel u uv e Huv Huck Hin) as [[_ ?%elem_of_nil]|(dv & Hdv & Hd)]; [done|].
    rewrite Hde in Hdv. exists dv. split; [done|].
    destruct Hd as [?|[Hop _]]; [done|].
    destruct (is_checked_ dv) eqn:Hdck; [done|].
    destruct (Hfront w dv Hdv Hdck Hop) as [->|(hv & p' & _ & ?%elem_of_nil & _)]; [|done].
    destruct Hsck as (sv & Hsv & Hsvck). congruence. }
  destruct (Hall _ _ _ _ Hw Hsck) as (gv & Hgv & Hgck).
  rewrite (Hgoal gv Hgv) in Hgck. done.
Qed.

End Run.

(** ** [Search]: termination, the empty path, the shortest path *)

Section SearchTheorems.
Context {State : Type} `{StateIndexer State}.
Variable tie : list (Z * Z) -> nat.
Variable h : State -> State -> Z.
Implicit Types (g : Graph State) (q : list (Z * Z)).

Lemma reachable_topology g g' u v : same_topology g g' -> reachable g u v -> reachable g' u v.
Proof. intros Ht (vs & c & Hw). exists vs, c. by eapply walk_topology. Qed.

Lemma nonneg_costs_topology g g' : same_topology g g' -> nonneg_costs g -> nonneg_costs g'.
Proof.
  intros Ht Hnn u v c He. apply (Hnn u v c).
  apply (edge_in_topology g' g); [by apply same_topology_sym|done].
Qed.

Lemma consistent_topology g g' goal :
  same_topology g g' -> consistent g h goal -> consistent g' h goal.
Proof.
  intros Ht Hc u v c hu hv He Hu Hv.
  rewrite (h_at_topology g g' h goal _ Ht) in Hu.
  rewrite (h_at_topology g g' h goal _ Ht) in Hv.
  apply (Hc u v c hu hv); [|done..].
  apply (edge_in_topology g' g); [by apply same_topology_sym|done].
Qed.

Lemma exact_costs_topology g g' start goal :
  same_topology g g' -> exact_costs g h start goal -> exact_costs g' h start goal.
Proof.
  intros Ht Hex vs v c hv Hw Hnd Hv.
  rewrite (h_at_topology g g' h goal _ Ht) in Hv.
  apply (Hex vs v c hv); [|done..].
  apply (walk_topology g' g); [by apply same_topology_sym|done].
Qed.

Lemma same_topology_seed g start : same_topology g (AStar.seed g start).1.
Proof.
  intros id. rewrite lookup_seed. case_decide; [subst id|done].
  by destruct (g !! start).
Qed.

Lemma Reset_clear g id v :
  ResetAllVertices g !! id = Some v -> is_checked_ v = false ∧ is_in_openlist_ v = false.
Proof.
  rewrite lookup_Reset. destruct (g !! id); [|done]. by intros [= <-].
Qed.

(** A run of [PerformSearch] from a graph with clear flags: the loop ends
    within the fuel, and the invariant holds where it ends. *)
Lemma PerformSearch_run gr start goal (P : Graph State -> Prop) :
  graph_wf gr ->
  (∀ id v, gr !! id = Some v -> is_checked_ v = false ∧ is_in_openlist_ v = false) ->
  is_Some (gr !! start) -> is_Some (gr !! goal) ->
  P (AStar.seed gr start).1 ->
  (∀ g q g' q', search_inv (AStar.seed gr start).1 h start goal start [] g q -> P g ->
     AStar.search_iter tie h goal (g, q) = Some (inl (g', q')) -> P g') ->
  ∃ g' found q',
    AStar.search_loop tie h goal (AStar.search_fuel gr) (AStar.seed gr start)
      = Some (g', found) ∧
    AStar.PerformSearch tie gr start goal h = AStar.finish g' start goal found ∧ P g' ∧
    search_inv (AStar.seed gr start).1 h start goal start [] g' q' ∧
    if found
    then ∃ i p gv, q' !! i = Some (p, goal) ∧ (∀ x, x ∈ q' -> p ≤ x.1) ∧
           g' !! goal = Some gv ∧ is_checked_ gv = false
    else q' = [].
Proof.
  intros Hwf Hclear Hs Hg HP0 HP.
  pose proof (inv_seed h gr start goal Hwf Hclear Hs Hg) as I0.
  destruct (search_loop_run tie h (AStar.seed gr start).1 start goal P
              (AStar.search_fuel gr) (AStar.seed gr start).1 (AStar.seed gr start).2)
    as (g' & found & Hloop & HP' & q' & I' & Hfin); [done..| |].
  { rewrite pending_work_seed by (intros id v Hv; by destruct (Hclear id v Hv)).
    unfold AStar.search_fuel, AStar.seed. simpl. lia. }
  exists g', found, q'.
  assert (Hloop' : AStar.search_loop tie h goal (AStar.search_fuel gr) (AStar.seed gr start)
                   = Some (g', found)).
  { rewrite <- Hloop. by destruct (AStar.seed gr start). }
  split; [done|]. split; [|done].
  unfold AStar.PerformSearch. rewrite Hloop'. done.
Qed.

(** [Search] returns, and with the empty path in the three cases only. *)
Lemma Search_returns g (start goal : Z) :
  graph_wf g ->
  ∃ g' path, AStar.Search tie g start goal h = Some (g', path) ∧
    (path = [] ↔ g !! start = None ∨ g !! goal = None ∨ ¬ reachable g start goal).
Proof.
  intros Hwf. unfold AStar.Search, FindVertex. rewrite !lookup_Reset.
  destruct (g !! start) as [sv|] eqn:Hsv; simpl.
  2: { eexists _, []. split; [done|]. split; [by left|done]. }
  destruct (g !! goal) as [gv|] eqn:Hgv; simpl.
  2: { eexists _, []. split; [done|]. split; [by right; left|done]. }
  set (gr := ResetAllVertices g).
  assert (Htopo : same_topology g (AStar.seed gr start).1).
  { eapply same_topology_trans; [apply same_topology_Reset|apply same_topology_seed]. }
  destruct (PerformSearch_run gr start goal (fun _ => True))
    as (g' & found & q' & _ & Hrun & _ & I' & Hfin); [| | | |done|done|].
  { by apply graph_wf_Reset. }
  { apply Reset_clear. }
  { unfold gr. rewrite lookup_Reset, Hsv. eauto. }
  { unfold gr. rewrite lookup_Reset, Hgv. eauto. }
  rewrite Hrun. destruct found.
  - destruct Hfin as (i & p & gv' & Hi & _ & Hgv' & Hck).
    destruct (finish_found h _ start goal g' q' i p gv' I' Hi Hgv' Hck)
      as (path & c & -> & Hw & _).
    exists g', path. split; [done|].
    destruct (walk_first _ _ _ _ _ Hw) as [_ [tl Htl]].
    split.
    + intros ->. done.
    + intros [?|[?|Hnr]]; [done..|]. exfalso. apply Hnr.
      apply (reachable_topology (AStar.seed gr start).1 g); [by apply same_topology_sym|].
      eexists _, _. exact Hw.
  - subst q'. exists g', []. split; [done|]. split; [|done].
    intros _. right. right. intros Hr.
    apply (exhausted_unreachable h _ start goal g' I').
    by apply (reachable_topology g).
Qed.

(** C3: on a well-formed graph [Search] returns (it neither runs out of fuel
    nor meets a dangling reference), and the path it returns is empty exactly
    when the start is absent, the goal is absent, or the goal is not reachable
    from the start. *)
Theorem Search_empty_iff g (start goal : Z) :
  graph_wf g ->
  ∃ g' path, AStar.Search tie g start goal h = Some (g', path) ∧
    (path = [] ↔ g !! start = None ∨ g !! goal = None ∨ ¬ reachable g start goal).
Proof. apply Search_returns. Qed.

(** C1: on a well-formed graph with non-negative edge costs and a heuristic
    that is consistent and admissible for the goal, whose sums are exact (the
    costs of the walks from the start that repeat no vertex, with the
    heuristic added, stay within [2^53]), when the goal is reachable from the
    start, [Search] returns a path that is a walk of the graph from the start
    to the goal, whose cost is the g-cost left at the goal and is no more than
    the cost of any walk from the start to the goal: the cost of a shortest
    path. *)
Theorem Search_shortest_path g (start goal : Z) :
  graph_wf g -> nonneg_costs g -> consistent g h goal -> admissible g h goal ->
  exact_costs g h start goal ->
  reachable g start goal ->
  ∃ g' path c, AStar.Search tie g start goal h = Some (g', path) ∧
    walk g start (GetStateIndex <$> path) goal c ∧
    head (GetStateIndex <$> path) = Some start ∧
    last (GetStateIndex <$> path) = Some goal ∧
    path_cost g (GetStateIndex <$> path) = Some c ∧
    g_cost_ <$> g' !! goal = Some c ∧
    ∀ vs w, walk g start vs goal w -> c ≤ w.
Proof.
  intros Hwf Hnn Hcons _ Hex Hreach.
  destruct Hreach as (vs0 & c0 & Hw0).
  destruct (walk_first _ _ _ _ _ Hw0) as [[sv Hsv] _].
  destruct (walk_last_in _ _ _ _ _ Hw0) as [[gv Hgv] _].
  unfold AStar.Search, FindVertex. rewrite !lookup_Reset, Hsv, Hgv. simpl.
  set (gr := ResetAllVertices g).
  assert (Htopo : same_topology g (AStar.seed gr start).1).
  { eapply same_topology_trans; [apply same_topology_Reset|apply same_topology_seed]. }
  pose proof (exact_costs_topology _ _ start goal Htopo Hex) as Hex'.
  destruct (PerformSearch_run gr start goal (opt_inv (AStar.seed gr start).1 start))
    as (g' & found & q' & _ & Hrun & Hopt & I' & Hfin).
  { by apply graph_wf_Reset. }
  { apply Reset_clear. }
  { unfold gr. rewrite lookup_Reset, Hsv. eauto. }
  { unfold gr. rewrite lookup_Reset, Hgv. eauto. }
  { intros u uv Huv Huck. rewrite lookup_seed in Huv.
    case_decide; [destruct (gr !! start) eqn:E; [|done]; injection Huv as <-|];
      [apply Reset_clear in E as [E _]|apply Reset_clear in Huv as [E _]];
      simpl in *; congruence. }
  { intros g1 q1 g2 q2 I1 Hopt1 Hit.
    eapply opt_inv_search_iter; [exact I1|exact Hopt1| | |exact Hex'|exact Hit].
    - by apply (nonneg_costs_topology g).
    - by apply (consistent_topology g). }
  rewrite Hrun. destruct found.
  2: { subst q'. exfalso. apply (exhausted_unreachable h _ start goal g' I').
       apply (reachable_topology g); [done|]. by exists vs0, c0. }
  destruct Hfin as (i & p & gv' & Hi & Hmin & Hgv' & Hck).
  destruct (finish_found h _ start goal g' q' i p gv' I' Hi Hgv' Hck)
    as (path & c & -> & Hw & Hc).
  rewrite <- (Hc Hex') in Hw.
  apply (walk_topology (AStar.seed gr start).1 g) in Hw; [|by apply same_topology_sym].
  exists g', path, (g_cost_ gv'). split; [done|].
  destruct (walk_first _ _ _ _ _ Hw) as [_ [tl Htl]].
  destruct (walk_last_in _ _ _ _ _ Hw) as [_ Hlast].
  split; [done|]. split; [by rewrite Htl|]. split; [done|].
  split; [by eapply walk_path_cost|]. split; [by rewrite Hgv'|].
  intros vs w Hwalk.
  eapply (popped_optimal _ h start goal start g' q' i p goal gv' I' Hopt); try done.
  - by apply (nonneg_costs_topology g).
  - by apply (consistent_topology g).
  - by apply (walk_topology g).
Qed.

End SearchTheorems.

(** ** [IncSearch]: the goal is never expanded *)

Section IncGoal.
Context {State : Type} `{StateIndexer State}.
Variable tie : list (Z * Z) -> nat.
Variable h : State -> State -> Z.
Implicit Types (g : Graph State) (q : list (Z * Z)) (nb : State -> list (State * Z)).

Lemma IncSearch_run_unfold fuel sstate gstate nb :
  AStar.IncSearch_run tie fuel sstate gstate nb h =
    r ← AStar.inc_loop tie nb h (GetStateIndex gstate) fuel (inc_start sstate gstate);
    r' ← AStar.finish r.1.1 (GetStateIndex sstate) (GetStateIndex gstate) r.2;
    Some (r'.1, r'.2, r.1.2).
Proof.
  unfold AStar.IncSearch_run, inc_start, AddVertex.
  pose proof (ObtainVertex_ref sstate (∅ : Graph State)) as Hs.
  destruct (ObtainVertexFromVertexMap sstate ∅) as [g0 start_vtx]. simpl in Hs. subst.
  cbn [fst].
  pose proof (ObtainVertex_ref gstate g0) as Hg.
  destruct (ObtainVertexFromVertexMap gstate g0) as [g1 goal_vtx]. simpl in Hg. subst.
  cbn [fst].
  destruct (AStar.seed g1 (GetStateIndex sstate)) as [g2 openlist].
  destruct (AStar.inc_loop _ _ _ _ _ _) as [[[g' calls] found]|]; [|done]. simpl.
  destruct (AStar.finish _ _ _ _) as [[g'' path]|]; done.
Qed.

Lemma relax_edge_topology goal cur e g q g' q' :
  AStar.relax_edge h goal cur e (g, q) = Some (g', q') -> same_topology g g'.
Proof.
  intros Hr.
  apply relax_edge_inv in Hr as (sv & Hsv &
    [(-> & -> & _)|(Hsck & cv' & gv & _ & _ & _ & -> & ->)]); [done|].
  by eapply same_topology_insert.
Qed.

Lemma relax_edges_topology goal cur es g q g' q' :
  AStar.relax_edges h goal cur es (g, q) = Some (g', q') -> same_topology g g'.
Proof.
  revert g q. induction es as [|e es IH]; intros g q; simpl.
  - by intros [= <- <-].
  - destruct (AStar.relax_edge h goal cur e (g, q)) as [[g1 q1]|] eqn:E; [|done]. simpl.
    intros Hr. eapply same_topology_trans; [by eapply relax_edge_topology|by eapply IH].
Qed.

Lemma keys_ok_topology g g' : same_topology g g' -> keys_ok g -> keys_ok g'.
Proof.
  intros Ht Hk id v' Hv'.
  destruct (same_topology_lookup g' g id v' (same_topology_sym _ _ Ht) Hv') as (v & Hv & Htv).
  unfold topology in Htv. injection Htv as Hs _ _ _. rewrite <- Hs. by eapply Hk.
Qed.

Lemma keys_ok_ObtainVertex s g : keys_ok g -> keys_ok (ObtainVertexFromVertexMap s g).1.
Proof.
  intros Hk id v [Hv|(_ & -> & ->)]%ObtainVertex_lookup; [by eapply Hk|done].
Qed.

Lemma keys_ok_AddEdge a b c g : keys_ok g -> keys_ok (AddEdge a b c g).
Proof.
  intros Hk id v' Hv'.
  destruct (AddEdge_lookup a b c g id) as (f & Hf & Hprop).
  rewrite Hv' in Hf. symmetry in Hf. apply fmap_Some in Hf as (v0 & Hv0 & ->).
  destruct (Hprop v0 Hv0) as (_ & -> & _).
  apply (keys_ok_ObtainVertex a), (keys_ok_ObtainVertex b) in Hk.
  by eapply Hk.
Qed.

Lemma keys_ok_add_neighbours s nbrs g : keys_ok g -> keys_ok (AStar.add_neighbours s nbrs g).
Proof.
  revert g. induction nbrs as [|[b c] nbrs IH]; intros g Hk; simpl; [done|].
  apply IH. by apply keys_ok_AddEdge.
Qed.

Lemma keys_ok_insert g id (v v' : Vertex State) :
  keys_ok g -> g !! id = Some v -> state_ v' = state_ v -> keys_ok (<[id := v']> g).
Proof.
  intros Hk Hv Hs j u. rewrite lookup_insert. case_decide; [subst j|by apply Hk].
  intros [= <-]. rewrite Hs. by eapply Hk.
Qed.

Lemma keys_ok_inc_start sstate gstate : keys_ok (inc_start sstate gstate).1.1.
Proof.
  unfold inc_start. cbn [fst].
  eapply keys_ok_topology; [apply same_topology_seed|].
  apply keys_ok_ObtainVertex, keys_ok_ObtainVertex. by intros id v ?.
Qed.

(** A pass keeps the keys right, and records a state only if it is not of the
    identity of the goal. *)
Lemma inc_iter_keys nb goal g q calls r :
  keys_ok g -> (∀ s, s ∈ calls -> GetStateIndex s ≠ goal) ->
  AStar.inc_iter tie nb h goal (g, q, calls) = Some r ->
  match r with
  | inl (g', q', calls') => keys_ok g' ∧ ∀ s, s ∈ calls' -> GetStateIndex s ≠ goal
  | inr (g', calls') => ∀ s, s ∈ calls' -> GetStateIndex s ≠ goal
  end.
Proof.
  intros Hk Hcalls Hit.
  apply inc_iter_inv in Hit
    as (cur & i & p & cv & Hi & Hmin & Hcv &
        [(Hck & ->)|[(Hck & _ & ->)|
         (Hck & Hne & cv2 & g3 & q3 & Hcv2 & Hrel & ->)]]); [done..|].
  split.
  - eapply keys_ok_topology; [by eapply relax_edges_topology|].
    apply keys_ok_add_neighbours. by eapply keys_ok_insert.
  - intros s [->|Hs]%elem_of_cons; [|by apply Hcalls].
    by rewrite (Hk cur cv Hcv).
Qed.

(** Neighbour functions that agree off the goal state give the same pass. *)
Lemma inc_iter_agree nb1 nb2 gstate g q calls :
  keys_ok g -> (∀ s, s ≠ gstate -> nb1 s = nb2 s) ->
  AStar.inc_iter tie nb1 h (GetStateIndex gstate) (g, q, calls) =
  AStar.inc_iter tie nb2 h (GetStateIndex gstate) (g, q, calls).
Proof.
  intros Hk Hagree. unfold AStar.inc_iter.
  destruct (PriorityQueue.get tie q) as [[cur q1]|]; [|done]. simpl.
  destruct (g !! cur) as [cv|] eqn:Hcv; [|done]. simpl.
  destruct (is_checked_ cv); [done|].
  destruct (Z.eqb_spec cur (GetStateIndex gstate)) as [Heq|Hne]; [done|].
  rewrite (Hagree (state_ cv)); [done|].
  intros Hs. apply Hne. rewrite <- Hs. symmetry. by eapply Hk.
Qed.

Lemma inc_loop_agree nb1 nb2 gstate fuel g q calls :
  keys_ok g -> (∀ s, s ∈ calls -> GetStateIndex s ≠ GetStateIndex gstate) ->
  (∀ s, s ≠ gstate -> nb1 s = nb2 s) ->
  AStar.inc_loop tie nb1 h (GetStateIndex gstate) fuel (g, q, calls) =
  AStar.inc_loop tie nb2 h (GetStateIndex gstate) fuel (g, q, calls).
Proof.
  intros Hk Hcalls Hagree. revert g q calls Hk Hcalls.
  induction fuel as [|fuel IH]; intros g q calls Hk Hcalls; [done|].
  cbn [AStar.inc_loop fst snd]. destruct (PriorityQueue.empty q); [done|].
  rewrite <- (inc_iter_agree nb1 nb2 gstate g q calls Hk Hagree).
  destruct (AStar.inc_iter tie nb1 h _ (g, q, calls)) as [[[[g1 q1] calls1]|?]|] eqn:Hit;
    [|done..].
  simpl. apply (inc_iter_keys nb1) in Hit as [Hk1 Hc1]; [|done..].
  by apply IH.
Qed.

(** The record of the calls along the loop states of a run. *)
Lemma inc_steps_calls nb goal st st' :
  inc_steps tie nb h goal st st' ->
  keys_ok st.1.1 -> (∀ s, s ∈ st.2 -> GetStateIndex s ≠ goal) ->
  keys_ok st'.1.1 ∧ ∀ s, s ∈ st'.2 -> GetStateIndex s ≠ goal.
Proof.
  induction 1 as [st|[[g q] calls] [[g1 q1] calls1] st2 Hit _ IH]; [done|].
  simpl. intros Hk Hcalls.
  apply (inc_iter_keys nb) in Hit as [Hk1 Hc1]; [|done..]. by apply IH.
Qed.

(** C10: [IncSearch] calls the neighbour function on no state of the identity
    of the goal (so not on the goal state), in any loop state of a run and in
    the record a finished run leaves; and two neighbour functions that agree on
    every state but the goal state give the same run, whatever the fuel: the
    same graph, path and record of calls, or no result for either. *)
Theorem IncSearch_goal_never_expanded fuel sstate gstate nb1 nb2 :
  (∀ s, s ≠ gstate -> nb1 s = nb2 s) ->
  AStar.IncSearch_run tie fuel sstate gstate nb1 h =
    AStar.IncSearch_run tie fuel sstate gstate nb2 h ∧
  AStar.IncSearch tie fuel sstate gstate nb1 h = AStar.IncSearch tie fuel sstate gstate nb2 h ∧
  (∀ st, inc_steps tie nb1 h (GetStateIndex gstate) (inc_start sstate gstate) st ->
     ∀ s, s ∈ st.2 -> GetStateIndex s ≠ GetStateIndex gstate ∧ s ≠ gstate) ∧
  (∀ g path calls,
     AStar.IncSearch_run tie fuel sstate gstate nb1 h = Some (g, path, calls) ->
     ∀ s, s ∈ calls -> GetStateIndex s ≠ GetStateIndex gstate ∧ s ≠ gstate).
Proof.
  intros Hagree.
  assert (Hrun : AStar.IncSearch_run tie fuel sstate gstate nb1 h =
                 AStar.IncSearch_run tie fuel sstate gstate nb2 h).
  { rewrite !IncSearch_run_unfold. unfold inc_start.
    destruct (AStar.seed _ _) as [g2 q2] eqn:Hseed.
    rewrite (inc_loop_agree nb1 nb2 gstate fuel g2 q2 []); [done| |by intros s ?%elem_of_nil|done].
    pose proof (keys_ok_inc_start sstate gstate) as Hk. unfold inc_start in Hk.
    by rewrite Hseed in Hk. }
  assert (Hsteps : ∀ st,
            inc_steps tie nb1 h (GetStateIndex gstate) (inc_start sstate gstate) st ->
            ∀ s, s ∈ st.2 -> GetStateIndex s ≠ GetStateIndex gstate ∧ s ≠ gstate).
  { intros st Hst s Hs.
    destruct (inc_steps_calls nb1 _ _ _ Hst) as [_ Hc].
    - apply keys_ok_inc_start.
    - by intros s' ?%elem_of_nil.
    - pose proof (Hc s Hs). split; [done|]. by intros ->. }
  split; [done|]. split; [|split; [done|]].
  - unfold AStar.IncSearch. by rewrite Hrun.
  - intros g path calls Hres. rewrite IncSearch_run_unfold in Hres.
    destruct (AStar.inc_loop _ _ _ _ _ _) as [[[g' calls'] found]|] eqn:Hloop; [|done].
    simpl in Hres. destruct (AStar.finish _ _ _ _) as [[g'' path']|]; [|done].
    simpl in Hres. injection Hres as _ _ <-.
    destruct (inc_loop_steps tie h _ nb1 fuel _ _ _ _ Hloop) as [q' Hst].
    apply (Hsteps _ Hst).
Qed.

End IncGoal.

(** ** [IncSearch] against [Search] on a pre-built graph: preliminaries *)

Section IncPrelim.
Context {State : Type} `{StateIndexer State}.
Variable tie : list (Z * Z) -> nat.
Variable h : State -> State -> Z.
Implicit Types (g : Graph State) (q : list (Z * Z)).

Lemma relax_edge_skip goal cur e g q sv :
  g !! dst_ e = Some sv ->
  (is_checked_ sv = true ∨
   ∃ cv, g !! cur = Some cv ∧ is_in_openlist_ sv = true ∧
         g_cost_ sv ≤ Transition_add (g_cost_ cv) (cost_ e)) ->
  AStar.relax_edge h goal cur e (g, q) = Some (g, q).
Proof.
  intros Hsv Hcase. unfold AStar.relax_edge. rewrite Hsv. simpl.
  destruct (is_checked_ sv); [done|].
  destruct Hcase as [?|(cv & Hcv & Hop & Hle)]; [done|].
  rewrite Hcv. simpl. rewrite Hop. simpl.
  destruct (Z.ltb_spec (Transition_add (g_cost_ cv) (cost_ e)) (g_cost_ sv)); [lia|done].
Qed.

Lemma relax_edge_write goal cur e g q sv cv gv :
  g !! dst_ e = Some sv -> is_checked_ sv = false ->
  g !! cur = Some cv -> g !! goal = Some gv ->
  (is_in_openlist_ sv = false ∨ Transition_add (g_cost_ cv) (cost_ e) < g_cost_ sv) ->
  AStar.relax_edge h goal cur e (g, q) =
    Some (<[dst_ e := relaxed cur (Transition_add (g_cost_ cv) (cost_ e))
                        (h (state_ sv) (state_ gv)) sv]> g,
          PriorityQueue.put (dst_ e)
            (to_Number (Transition_add (Transition_add (g_cost_ cv) (cost_ e))
                                       (h (state_ sv) (state_ gv)))) q).
Proof.
  intros Hsv Hck Hcv Hgv Hcond. unfold AStar.relax_edge. rewrite Hsv. simpl.
  rewrite Hck, Hcv. simpl.
  assert (Ht : negb (is_in_openlist_ sv)
               || (Transition_add (g_cost_ cv) (cost_ e) <? g_cost_ sv) = true).
  { destruct Hcond as [->|Hlt]; [done|].
    apply orb_true_iff. right. by apply Z.ltb_lt. }
  rewrite Ht, Hgv. done.
Qed.

Lemma search_loop_more goal fuel fuel' (st : Graph State * list (Z * Z)) r :
  AStar.search_loop tie h goal fuel st = Some r -> (fuel ≤ fuel')%nat ->
  AStar.search_loop tie h goal fuel' st = Some r.
Proof.
  revert fuel' st. induction fuel as [|fuel IH]; intros fuel' [g q] Hl Hle.
  - simpl in Hl. destruct (PriorityQueue.empty q) eqn:Hq; [|done].
    destruct fuel'; simpl; by rewrite Hq.
  - destruct fuel' as [|fuel']; [lia|].
    rewrite search_loop_unfold in *. cbn [fst snd] in *.
    destruct (PriorityQueue.empty q); [done|].
    destruct (AStar.search_iter tie h goal (g, q)) as [[st1|g1]|]; simpl in *; [|done..].
    apply IH; [done|lia].
Qed.

Lemma GetAllEdges_Reset g : GetAllEdges (ResetAllVertices g) = GetAllEdges g.
Proof.
  unfold GetAllEdges, ResetAllVertices. rewrite map_to_list_fmap.
  induction (map_to_list g) as [|[id v] l IH]; [done|].
  csimpl. by rewrite IH.
Qed.

Lemma upsert_edge_dst src d c es e :
  e ∈ upsert_edge src d c es -> dst_ e = d ∨ ∃ e', e' ∈ es ∧ dst_ e = dst_ e'.
Proof.
  unfold upsert_edge. destruct (has_edge_to d es).
  - intros (e' & He' & _ & Hd)%update_edge_cost_elem. right. eauto.
  - intros [He| ->%list_elem_of_singleton]%elem_of_app; [right; eauto|by left].
Qed.

Lemma fold_upsert_dst src (nbrs : list (State * Z)) es e :
  e ∈ fold_left (fun es nb => upsert_edge src (GetStateIndex nb.1) nb.2 es) nbrs es ->
  (∃ e', e' ∈ es ∧ dst_ e = dst_ e') ∨ ∃ sc, sc ∈ nbrs ∧ dst_ e = GetStateIndex sc.1.
Proof.
  revert es. induction nbrs as [|[b c] nbrs IH]; intros es; simpl.
  - intros He. left. eauto.
  - intros [(e' & He' & Hd)|(sc & Hsc & Hd)]%IH.
    + apply upsert_edge_dst in He' as [Hb|(e'' & He'' & Hd'')].
      * right. exists (b, c). split; [left|]. simpl. congruence.
      * left. exists e''. split; [done|congruence].
    + right. exists sc. split; [by right|done].
Qed.

Lemma AddEdge_dst_is_Some a b c g : is_Some (AddEdge a b c g !! GetStateIndex b).
Proof.
  destruct (AddEdge_lookup a b c g (GetStateIndex b)) as (f & -> & _).
  destruct (ObtainVertex_is_Some b (ObtainVertexFromVertexMap a g).1) as [v ->].
  simpl. eauto.
Qed.

(** The graph after the [AddEdge] calls for the neighbours of a vertex that
    is in it: old vertices keep their search fields and state, the source owns
    the upserted edges, the vertices created are unseen vertices of
    neighbours, and every neighbour has its vertex. *)
Lemma add_neighbours_spec s nbrs g :
  is_Some (g !! GetStateIndex s) ->
  (∀ id v, g !! id = Some v ->
     ∃ v', AStar.add_neighbours s nbrs g !! id = Some v' ∧ scratch v' = scratch v ∧
       state_ v' = state_ v ∧
       edges_to_ v' =
         if decide (id = GetStateIndex s)
         then fold_left (fun es nb => upsert_edge (GetStateIndex s) (GetStateIndex nb.1) nb.2 es)
                nbrs (edges_to_ v)
         else edges_to_ v) ∧
  (∀ id v', AStar.add_neighbours s nbrs g !! id = Some v' -> g !! id = None ->
     scratch v' = (false, false, 0, 0, 0, None) ∧ edges_to_ v' = [] ∧
     ∃ sc, sc ∈ nbrs ∧ GetStateIndex sc.1 = id ∧ state_ v' = sc.1) ∧
  (∀ sc, sc ∈ nbrs -> is_Some (AStar.add_neighbours s nbrs g !! GetStateIndex sc.1)).
Proof.
  revert g. induction nbrs as [|[b c] nbrs IH]; intros g Hs; simpl.
  - split; [|split].
    + intros id v Hv. exists v. split; [done|]. by case_decide.
    + intros id v' Hv' Hn. congruence.
    + by intros sc ?%elem_of_nil.
  - destruct (IH (AddEdge s b c g)) as (IH1 & IH2 & IH3); [by apply AddEdge_is_Some|].
    split; [|split].
    + intros id v Hv.
      destruct (AddEdge_lookup_old s b c g id v Hv) as (v1 & Hv1 & Hsc1 & Hst1 & _ & Hes1).
      destruct (IH1 id v1 Hv1) as (v' & Hv' & Hsc' & Hst' & Hes').
      exists v'. split; [done|]. split; [congruence|]. split; [congruence|].
      rewrite Hes'. case_decide; by rewrite Hes1.
    + intros id v' Hv' Hn.
      destruct (AddEdge s b c g !! id) as [v1|] eqn:Hv1.
      * destruct (AddEdge_lookup_new s b c g id v1 Hn Hv1)
          as (Hsc1 & _ & [(-> & _)|(-> & Hne & Hst1 & Hes1)]).
        { rewrite Hn in Hs. by destruct Hs. }
        destruct (IH1 _ v1 Hv1) as (v'' & Hv'' & Hsc'' & Hst'' & Hes'').
        rewrite Hv' in Hv''. injection Hv'' as <-.
        rewrite decide_False in Hes'' by done.
        split; [congruence|]. split; [congruence|].
        exists (b, c). split; [left|]. split; [done|]. simpl. congruence.
      * destruct (IH2 id v' Hv' Hv1) as (Hsc & Hes & sc & Hin & Hid & Hst).
        split; [done|]. split; [done|]. exists sc. split; [by right|done].
    + intros sc [->|Hin]%elem_of_cons; [|by apply IH3].
      simpl. destruct (AddEdge_dst_is_Some s b c g) as [v1 Hv1].
      destruct (IH1 _ v1 Hv1) as (v' & Hv' & _). eauto.
Qed.

End IncPrelim.

(** ** [IncSearch] against [Search] on a pre-built graph: the simulation *)

Section IncSim.
Context {State : Type} `{StateIndexer State}.
Variable tie : list (Z * Z) -> nat.
Variable h : State -> State -> Z.
Variable nb : State -> list (State * Z).
Variable G : Graph State.
Variables start goal : Z.
Hypothesis HwfG : graph_wf G.
Hypothesis Hpre : prebuilt_off goal nb G.
Implicit Types (g gi gb : Graph State) (q : list (Z * Z)).

Local Abbreviation sim := (inc_sim G start goal).

Lemma sim_relax_edge cur e gi gb q gb' q' cvi :
  sim gi gb q -> gi !! cur = Some cvi -> is_checked_ cvi = true ->
  is_Some (gi !! dst_ e) ->
  AStar.relax_edge h goal cur e (gb, q) = Some (gb', q') ->
  ∃ gi', AStar.relax_edge h goal cur e (gi, q) = Some (gi', q') ∧ sim gi' gb' q' ∧
    (∀ id, is_Some (gi !! id) -> is_Some (gi' !! id)) ∧
    (∀ id v, gi !! id = Some v -> is_checked_ v = true -> gi' !! id = Some v).
Proof.
  intros [Htopo Hgoal Hsub Hunseen Hqueue] Hcvi Hcki [svi Hsvi] Hr.
  destruct (Hsub _ _ Hsvi) as (svb & Hsvb & Hsst & Hsck & Hsop & Hsg & Hses).
  destruct (Hsub _ _ Hcvi) as (cvb & Hcvb & Hcst & Hcck & Hcop & Hcg & Hces).
  destruct (Hcg (or_introl Hcki)) as [Hcgc _].
  destruct Hgoal as [gvi Hgvi].
  destruct (Hsub _ _ Hgvi) as (gvb & Hgvb & Hgst & _).
  apply relax_edge_inv in Hr as (sv & Hsv &
    [(-> & -> & HA)|(Hck & cv' & gv & Hcv' & Hgv & Hcond & -> & ->)]);
    rewrite Hsvb in Hsv; injection Hsv as <-.
  - exists gi. split; [|split; [done|split; [done|done]]].
    apply (relax_edge_skip h goal cur e gi q svi Hsvi).
    destruct HA as [?|(cv' & Hcv' & Hop & Hle)]; [left; congruence|].
    rewrite Hcvb in Hcv'. injection Hcv' as <-.
    right. exists cvi. split; [done|]. split; [congruence|].
    destruct Hsg as [-> _]; [right; congruence|]. rewrite Hcgc. lia.
  - rewrite Hcvb in Hcv'. injection Hcv' as <-.
    rewrite Hgvb in Hgv. injection Hgv as <-.
    assert (Hcondi : is_in_openlist_ svi = false
                     ∨ Transition_add (g_cost_ cvi) (cost_ e) < g_cost_ svi).
    { destruct (is_in_openlist_ svi) eqn:Hopi; [|by left]. right.
      destruct Hsg as [-> _]; [by right|]. rewrite Hcgc.
      destruct Hcond as [?|?]; [congruence|lia]. }
    eexists. split.
    { rewrite (relax_edge_write h goal cur e gi q svi cvi gvi); try done; [|congruence].
      rewrite Hcgc, Hsst, Hgst. done. }
    assert (Hcku : is_checked_ svi = false) by congruence.
    split; [|split].
    + split.
      * by eapply same_topology_insert.
      * rewrite lookup_insert. case_decide; eauto.
      * intros id vi. rewrite lookup_insert. case_decide as Hd.
        -- subst id. intros [= <-]. eexists. rewrite lookup_insert_eq. split; [done|].
           simpl. rewrite Hcku in Hses. rewrite Hcku, <- Hsck.
           repeat split; try done.
        -- intros Hvi. destruct (Hsub _ _ Hvi) as (vb & Hvb & Hrest).
           exists vb. rewrite lookup_insert_ne by done. done.
      * intros id vb. rewrite !lookup_insert. case_decide; [done|]. apply Hunseen.
      * intros p id [Hin|[= -> ->]]%elem_of_put.
        -- destruct (Hqueue p id Hin) as (vi & Hvi & Hflag).
           rewrite lookup_insert. case_decide; [|eauto].
           subst id. eexists. split; [done|]. by right.
        -- eexists. rewrite lookup_insert_eq. split; [done|]. by right.
    + intros id Hid. rewrite lookup_insert. case_decide; eauto.
    + intros id v Hv Hvck. rewrite lookup_insert_ne; [done|].
      intros <-. congruence.
Qed.

Lemma sim_relax_edges cur es gi gb q gb' q' cvi :
  sim gi gb q -> gi !! cur = Some cvi -> is_checked_ cvi = true ->
  (∀ e, e ∈ es -> is_Some (gi !! dst_ e)) ->
  AStar.relax_edges h goal cur es (gb, q) = Some (gb', q') ->
  ∃ gi', AStar.relax_edges h goal cur es (gi, q) = Some (gi', q') ∧ sim gi' gb' q'.
Proof.
  revert gi gb q. induction es as [|e es IH]; intros gi gb q I Hcvi Hck Hdst; simpl.
  - intros [= <- <-]. eauto.
  - destruct (AStar.relax_edge h goal cur e (gb, q)) as [[gb1 q1]|] eqn:E; [|done]. simpl.
    intros Hr.
    destruct (sim_relax_edge cur e gi gb q gb1 q1 cvi I Hcvi Hck) as
      (gi1 & -> & I1 & Hdom & Hkeep); [apply Hdst; left|done|].
    simpl. apply (IH gi1 gb1 q1); try done; [by apply Hkeep|].
    intros e' He'. apply Hdom, Hdst. by right.
Qed.

Lemma scratch_eq (v v' : Vertex State) :
  scratch v' = scratch v ->
  is_checked_ v' = is_checked_ v ∧ is_in_openlist_ v' = is_in_openlist_ v ∧
  g_cost_ v' = g_cost_ v ∧ search_parent_ v' = search_parent_ v.
Proof. unfold scratch. intros [= -> -> _ -> _ ->]. done. Qed.

(** The stores after the popped vertex is marked in both and [IncSearch] has
    added the edges to its neighbours. *)
Lemma sim_expand gi gb q i p cur cvi cvb :
  sim gi gb q -> q !! i = Some (p, cur) -> cur ≠ goal ->
  gi !! cur = Some cvi -> gb !! cur = Some cvb -> is_checked_ cvb = false ->
  sim (AStar.add_neighbours (state_ cvi) (nb (state_ cvi)) (<[cur := mark_checked cvi]> gi))
      (<[cur := mark_checked cvb]> gb) (delete i q) ∧
  ∃ cv2,
    AStar.add_neighbours (state_ cvi) (nb (state_ cvi)) (<[cur := mark_checked cvi]> gi)
      !! cur = Some cv2 ∧
    is_checked_ cv2 = true ∧ edges_to_ cv2 = edges_to_ cvb ∧
    ∀ e, e ∈ edges_to_ cv2 ->
      is_Some (AStar.add_neighbours (state_ cvi) (nb (state_ cvi))
                 (<[cur := mark_checked cvi]> gi) !! dst_ e).
Proof.
  intros [Htopo Hgoal Hsub Hunseen Hqueue] Hi Hcg Hcvi Hcvb Hckb.
  assert (Hin : (p, cur) ∈ q) by by eapply list_elem_of_lookup_2.
  destruct (Hsub _ _ Hcvi) as (vb & Hvb & Hst & Hck & Hop & Hg & Hes).
  rewrite Hcvb in Hvb. injection Hvb as <-.
  assert (Hcki : is_checked_ cvi = false) by congruence.
  rewrite Hcki in Hes.
  assert (Hseen : is_checked_ cvi = true ∨ is_in_openlist_ cvi = true).
  { destruct (Hqueue p cur Hin) as (vi & Hvi & Hflag). congruence. }
  destruct (Hg Hseen) as [Hgc Hpar].
  destruct (same_topology_lookup gb G cur cvb (same_topology_sym _ _ Htopo) Hcvb)
    as (vG & HvG & HtG).
  unfold topology in HtG. injection HtG as HsG _ HeG _.
  destruct (HwfG cur vG HvG) as (_ & Hkey & _).
  destruct (Hpre cur vG HvG Hcg) as [HpreE HpreS].
  rewrite HsG, <- Hst in Hkey, HpreE, HpreS.
  set (s := state_ cvi) in *.
  set (g1 := <[cur := mark_checked cvi]> gi).
  assert (Hg1cur : g1 !! cur = Some (mark_checked cvi)) by apply lookup_insert_eq.
  assert (Hg1ne : ∀ id, id ≠ cur -> g1 !! id = gi !! id).
  { intros id Hne. unfold g1. by rewrite lookup_insert_ne. }
  destruct (add_neighbours_spec s (nb s) g1) as (S1 & S2 & S3).
  { rewrite Hkey, Hg1cur. eauto. }
  rewrite Hkey in S1.
  destruct (S1 cur _ Hg1cur) as (cv2 & Hcv2 & Hsc2 & Hst2 & Hes2).
  rewrite decide_True in Hes2 by done. simpl in Hes2. rewrite Hes in Hes2.
  fold (edges_of_neighbours cur (nb s)) in Hes2.
  rewrite <- HpreE, HeG in Hes2.
  apply scratch_eq in Hsc2 as (Hck2 & Hop2 & Hg2 & Hp2). simpl in Hck2, Hop2, Hg2, Hp2.
  split; [split|].
  - by eapply same_topology_insert.
  - destruct Hgoal as [gvi Hgvi]. destruct (decide (goal = cur)) as [->|Hne].
    + eauto.
    + rewrite <- (Hg1ne goal Hne) in Hgvi. destruct (S1 _ _ Hgvi) as (v' & Hv' & _). eauto.
  - intros id vi2 Hvi2. destruct (g1 !! id) as [v1|] eqn:Hv1.
    + destruct (S1 id v1 Hv1) as (v' & Hv' & Hsc' & Hst' & Hes').
      rewrite Hvi2 in Hv'. injection Hv' as <-.
      apply scratch_eq in Hsc' as (Hck' & Hop' & Hg' & Hp').
      destruct (decide (id = cur)) as [->|Hne].
      * rewrite Hg1cur in Hv1. injection Hv1 as <-.
        exists (mark_checked cvb). rewrite lookup_insert_eq. split; [done|].
        rewrite Hcv2 in Hvi2. injection Hvi2 as <-.
        rewrite Hst2, Hck2, Hop2, Hg2, Hp2, Hes2. simpl. done.
      * rewrite (Hg1ne id Hne) in Hv1.
        destruct (Hsub _ _ Hv1) as (vb & Hvb & Hbst & Hbck & Hbop & Hbg & Hbes).
        exists vb. rewrite lookup_insert_ne by done. split; [done|].
        rewrite Hst', Hck', Hop', Hg', Hp', Hes'. done.
    + destruct (S2 id vi2 Hvi2 Hv1) as (Hsc & Hes0 & sc & Hsc_in & Hsc_id & Hsc_st).
      assert (Hne : id ≠ cur) by (intros ->; congruence).
      rewrite Forall_forall in HpreS. pose proof (HpreS sc Hsc_in) as Hsome.
      rewrite Hsc_id in Hsome. apply fmap_Some in Hsome as (vG' & HvG' & HsG').
      destruct (same_topology_lookup G gb id vG' Htopo HvG') as (vb & Hvb & Htb).
      unfold topology in Htb. injection Htb as Hsb _ _ _.
      exists vb. rewrite lookup_insert_ne by done. split; [done|].
      rewrite (Hg1ne id Hne) in Hv1.
      destruct (Hunseen id vb Hvb Hv1) as [Hbck Hbop].
      unfold scratch in Hsc. injection Hsc as Hc Ho _ _ _ _.
      rewrite Hc, Ho, Hbck, Hbop, Hes0.
      split; [congruence|]. split; [done|]. split; [done|].
      split; [by intros [?|?]|done].
  - intros id vb1 Hvb1 Hnone.
    assert (Hg1n : g1 !! id = None).
    { destruct (g1 !! id) as [v1|] eqn:Hv1; [|done].
      destruct (S1 id v1 Hv1) as (v' & Hv' & _). congruence. }
    assert (Hne : id ≠ cur) by (intros ->; congruence).
    rewrite lookup_insert_ne in Hvb1 by done. rewrite (Hg1ne id Hne) in Hg1n.
    by eapply Hunseen.
  - intros p' id Hin'. apply list_elem_of_delete_inv in Hin'.
    destruct (Hqueue p' id Hin') as (vi & Hvi & Hflag).
    destruct (decide (id = cur)) as [->|Hne].
    + exists cv2. split; [done|]. left. congruence.
    + rewrite <- (Hg1ne id Hne) in Hvi.
      destruct (S1 id vi Hvi) as (v' & Hv' & Hsc' & _).
      apply scratch_eq in Hsc' as (Hck' & Hop' & _). exists v'. split; [done|]. congruence.
  - exists cv2. split; [done|]. split; [congruence|]. split; [done|].
    intros e He. rewrite Hes2, <- HeG, HpreE in He.
    apply fold_upsert_dst in He as [(e' & ?%elem_of_nil & _)|(sc & Hsc & ->)]; [done|].
    by apply S3.
Qed.

(** A pass of [PerformSearch] on the pre-built graph is matched by the pass
    of [IncSearch]. *)
Lemma sim_iter gi gb q calls r :
  sim gi gb q -> AStar.search_iter tie h goal (gb, q) = Some r ->
  match r with
  | inl (gb', q') =>
      ∃ gi' calls', AStar.inc_iter tie nb h goal (gi, q, calls) = Some (inl (gi', q', calls'))
                    ∧ sim gi' gb' q'
  | inr gb' => gb' = gb ∧ AStar.inc_iter tie nb h goal (gi, q, calls) = Some (inr (gi, calls))
  end.
Proof.
  intros I Hit. unfold AStar.search_iter in Hit. unfold AStar.inc_iter.
  destruct (PriorityQueue.get tie q) as [[cur q1]|] eqn:Hget; [|done]. simpl in *.
  apply get_spec in Hget as (i & p & Hi & -> & Hmin).
  destruct (gb !! cur) as [cvb|] eqn:Hcvb; [|done]. simpl in Hit.
  destruct (sim_queue _ _ _ _ _ _ I p cur) as (cvi & Hcvi & Hflag);
    [by eapply list_elem_of_lookup_2|].
  destruct (sim_sub _ _ _ _ _ _ I _ _ Hcvi) as (vb & Hvb & Hst & Hck & _).
  rewrite Hcvb in Hvb. injection Hvb as <-.
  rewrite Hcvi. simpl. rewrite Hck.
  destruct (is_checked_ cvb) eqn:Hckb.
  { injection Hit as <-. exists gi, calls. split; [done|].
    destruct I as [Htopo Hgoal Hsub Hunseen Hqueue]. split; try done.
    intros p' id Hin. apply Hqueue with p'. by eapply list_elem_of_delete_inv. }
  destruct (Z.eqb_spec cur goal) as [Heq|Hne].
  { injection Hit as <-. done. }
  destruct (AStar.relax_edges h goal cur (edges_to_ cvb) _) as [[gb' q']|] eqn:Hrel;
    [|done].
  simpl in Hit. injection Hit as <-.
  destruct (sim_expand gi gb q i p cur cvi cvb I Hi Hne Hcvi Hcvb Hckb)
    as (I2 & cv2 & Hcv2 & Hck2 & Hes2 & Hdst).
  rewrite Hcv2. simpl. rewrite Hes2.
  rewrite Hes2 in Hdst.
  destruct (sim_relax_edges cur (edges_to_ cvb) _ _ _ gb' q' cv2 I2 Hcv2 Hck2 Hdst Hrel)
    as (gi' & -> & I').
  simpl. eauto.
Qed.

(** Run for run. *)
Lemma sim_loop fuel gi gb q calls gb' found :
  sim gi gb q -> AStar.search_loop tie h goal fuel (gb, q) = Some (gb', found) ->
  ∃ gi' calls' q',
    AStar.inc_loop tie nb h goal fuel (gi, q, calls) = Some (gi', calls', found) ∧
    sim gi' gb' q'.
Proof.
  revert gi gb q calls. induction fuel as [|fuel IH]; intros gi gb q calls I Hl.
  - simpl in *. destruct (PriorityQueue.empty q); [|done].
    injection Hl as <- <-. eauto.
  - rewrite search_loop_unfold in Hl. cbn [AStar.inc_loop fst snd] in *.
    destruct (PriorityQueue.empty q).
    { injection Hl as <- <-. eauto. }
    destruct (AStar.search_iter tie h goal (gb, q)) as [r|] eqn:Hit; [|done].
    simpl in Hl. pose proof (sim_iter gi gb q calls r I Hit) as Hsim.
    destruct r as [[gb1 q1]|gb1].
    + destruct Hsim as (gi1 & calls1 & -> & I1). simpl. by apply (IH gi1 gb1 q1).
    + destruct Hsim as [-> ->]. simpl. injection Hl as <- <-. eauto.
Qed.

End IncSim.

(** ** [IncSearch] returns what [Search] returns on a pre-built graph *)

Section IncMatches.
Context {State : Type} `{StateIndexer State}.
Variable tie : list (Z * Z) -> nat.
Variable h : State -> State -> Z.
Implicit Types (g gi gb : Graph State) (q : list (Z * Z)).

Lemma finish_of_chain g start goal vs path :
  parent_chain g start goal vs -> NoDup vs -> (∀ x, x ∈ vs -> is_Some (g !! x)) ->
  AStar.path_states g vs = Some path ->
  AStar.finish g start goal true = Some (g, path).
Proof.
  intros Hch Hnd Hall Hpath. unfold AStar.finish, AStar.ReconstructPath.
  rewrite (reconstruct_loop_chain g start goal vs (size g) [] Hch).
  - rewrite app_nil_r. simpl. by rewrite Hpath.
  - pose proof (NoDup_length_le_size g vs Hnd Hall). lia.
Qed.

Lemma path_states_agree gi gb (vs : list Z) :
  (∀ x, x ∈ vs -> state_ <$> gi !! x = state_ <$> gb !! x) ->
  AStar.path_states gi vs = AStar.path_states gb vs.
Proof.
  unfold AStar.path_states. induction vs as [|x vs IH]; intros Hall; [done|].
  change (mapM (fun wp => state_ <$> gi !! wp) (x :: vs))
    with (y ← state_ <$> gi !! x; k ← mapM (fun wp => state_ <$> gi !! wp) vs; mret (y :: k)).
  change (mapM (fun wp => state_ <$> gb !! wp) (x :: vs))
    with (y ← state_ <$> gb !! x; k ← mapM (fun wp => state_ <$> gb !! wp) vs; mret (y :: k)).
  rewrite (Hall x) by left. rewrite IH; [done|]. intros y Hy. apply Hall. by right.
Qed.

(** A vertex that [PerformSearch] has reached is a vertex of [IncSearch]. *)
Lemma sim_seen G start goal gi gb q x vb :
  inc_sim G start goal gi gb q -> gb !! x = Some vb ->
  is_checked_ vb = true ∨ is_in_openlist_ vb = true ->
  ∃ vi, gi !! x = Some vi ∧ state_ vi = state_ vb ∧ g_cost_ vi = g_cost_ vb ∧
        (x ≠ start -> search_parent_ vi = search_parent_ vb).
Proof.
  intros [Htopo Hgoal Hsub Hunseen Hqueue] Hvb Hseen.
  destruct (gi !! x) as [vi|] eqn:Hvi.
  - destruct (Hsub x vi Hvi) as (vb' & Hvb' & Hst & Hck & Hop & Hg & _).
    rewrite Hvb in Hvb'. injection Hvb' as <-.
    exists vi. split; [done|]. split; [done|]. apply Hg.
    destruct Hseen; [left|right]; congruence.
  - destruct (Hunseen x vb Hvb Hvi). destruct Hseen; congruence.
Qed.

Lemma lookup_inc_start sstate gstate id v :
  (AddVertex gstate (AddVertex sstate ∅).1).1 !! id = Some v ->
  (id = GetStateIndex sstate ∧ v = new_vertex sstate (GetStateIndex sstate)) ∨
  (id = GetStateIndex gstate ∧ id ≠ GetStateIndex sstate ∧
   v = new_vertex gstate (GetStateIndex gstate)).
Proof.
  unfold AddVertex. intros [Hv|(Hn & -> & ->)]%ObtainVertex_lookup.
  - apply ObtainVertex_lookup in Hv as [Hv|(_ & -> & ->)]; [|by left].
    by rewrite lookup_empty in Hv.
  - right. split; [done|]. split; [|done]. intros Heq. rewrite Heq in Hn.
    destruct (ObtainVertex_is_Some sstate (∅ : Graph State)). congruence.
Qed.

(** The two searches start in matching states. *)
Lemma sim_start G sstate gstate :
  state_ <$> G !! GetStateIndex sstate = Some sstate ->
  state_ <$> G !! GetStateIndex gstate = Some gstate ->
  inc_sim G (GetStateIndex sstate) (GetStateIndex gstate)
    (inc_start sstate gstate).1.1
    (AStar.seed (ResetAllVertices G) (GetStateIndex sstate)).1
    (inc_start sstate gstate).1.2.
Proof.
  intros (sG & HsG & Hsst)%fmap_Some (gG & HgG & Hgst)%fmap_Some.
  set (start := GetStateIndex sstate) in *. set (goal := GetStateIndex gstate) in *.
  set (ga := (AddVertex gstate (AddVertex sstate ∅).1).1).
  assert (Hga_s : ga !! start = Some (new_vertex sstate start)).
  { destruct (ObtainVertex_is_Some sstate (∅ : Graph State)) as [v0 Hv0].
    pose proof (ObtainVertex_old gstate _ _ _ Hv0) as Hv.
    destruct (lookup_inc_start sstate gstate start v0 Hv) as [[_ ->]|(_ & ? & _)]; done. }
  assert (Hga_g : is_Some (ga !! goal)) by apply ObtainVertex_is_Some.
  unfold inc_start. cbn [fst snd]. fold start ga.
  split.
  - eapply same_topology_trans; [apply same_topology_Reset|apply same_topology_seed].
  - rewrite lookup_seed. case_decide; [rewrite Hga_s; eauto|done].
  - intros id vi. rewrite lookup_seed. case_decide as Hd.
    + subst id. rewrite Hga_s. intros [= <-].
      exists (seed_start (ClearVertexSearchInfo sG)).
      rewrite lookup_seed, decide_True, lookup_Reset, HsG by done.
      split; [done|]. simpl. repeat split; congruence.
    + intros Hvi.
      destruct (lookup_inc_start sstate gstate id vi Hvi) as [[? _]|(-> & _ & ->)]; [done|].
      exists (ClearVertexSearchInfo gG).
      rewrite lookup_seed, decide_False, lookup_Reset by done. fold goal. rewrite HgG.
      split; [done|]. simpl. split; [congruence|]. split; [done|]. split; [done|].
      split; [|done]. intros [?|?]; done.
  - intros id vb. rewrite !lookup_seed. case_decide as Hd.
    + subst id. rewrite Hga_s. done.
    + rewrite lookup_Reset. destruct (G !! id); [|done]. by intros [= <-].
  - unfold AStar.seed. cbn [snd PriorityQueue.put app].
    intros p id [= -> ->]%list_elem_of_singleton.
    eexists. cbn [fst]. rewrite lookup_alter_eq, Hga_s. split; [done|]. by right.
Qed.

(** The two searches on a pre-built graph that holds both end points. *)
Lemma IncSearch_matches_core G sstate gstate (nb : State -> list (State * Z)) fuel :
  graph_wf G -> prebuilt_off (GetStateIndex gstate) nb G ->
  state_ <$> G !! GetStateIndex sstate = Some sstate ->
  state_ <$> G !! GetStateIndex gstate = Some gstate ->
  (AStar.search_fuel G ≤ fuel)%nat ->
  ∃ gb gi path calls,
    AStar.Search tie G (GetStateIndex sstate) (GetStateIndex gstate) h = Some (gb, path) ∧
    AStar.IncSearch_run tie fuel sstate gstate nb h = Some (gi, path, calls) ∧
    AStar.IncSearch tie fuel sstate gstate nb h = Some path ∧
    (path ≠ [] ->
     g_cost_ <$> gi !! GetStateIndex gstate = g_cost_ <$> gb !! GetStateIndex gstate).
Proof.
  intros Hwf Hpre Hs Hg Hfuel.
  set (start := GetStateIndex sstate) in *. set (goal := GetStateIndex gstate) in *.
  set (gr := ResetAllVertices G).
  assert (Hsr : is_Some (gr !! start)).
  { unfold gr. rewrite lookup_Reset. apply fmap_Some in Hs as (v & -> & _). simpl. eauto. }
  assert (Hgr : is_Some (gr !! goal)).
  { unfold gr. rewrite lookup_Reset. apply fmap_Some in Hg as (v & -> & _). simpl. eauto. }
  destruct (PerformSearch_run tie h gr start goal (fun _ => True))
    as (gb & found & q' & Hloop & Hrun & _ & I' & Hfin); [| |done|done|done|done|].
  { by apply graph_wf_Reset. }
  { apply Reset_clear. }
  assert (Hsearch : AStar.Search tie G start goal h = AStar.finish gb start goal found).
  { unfold AStar.Search, FindVertex. fold gr.
    destruct Hsr as [? ->], Hgr as [? ->]. done. }
  apply (search_loop_more tie h goal _ fuel) in Hloop.
  2: { unfold AStar.search_fuel in *. unfold gr. by rewrite GetAllEdges_Reset. }
  pose proof (sim_start G sstate gstate Hs Hg) as I0. fold start goal gr in I0.
  replace (AStar.seed gr start) with ((AStar.seed gr start).1, (inc_start sstate gstate).1.2)
    in Hloop by (unfold inc_start, AStar.seed; done).
  destruct (sim_loop tie h nb G start goal Hwf Hpre fuel _ _ _ [] gb found I0 Hloop)
    as (gi & calls & q'' & Hinc & I'').
  assert (Hincrun : ∀ r, AStar.finish gi start goal found = Some r ->
            AStar.IncSearch_run tie fuel sstate gstate nb h = Some (r.1, r.2, calls)).
  { intros r Hr. rewrite IncSearch_run_unfold. fold start goal.
    replace (inc_start sstate gstate)
      with ((inc_start sstate gstate).1.1, (inc_start sstate gstate).1.2, @nil State)
      by (unfold inc_start; by destruct (AStar.seed _ _)).
    rewrite Hinc. simpl. rewrite Hr. done. }
  rewrite Hsearch. destruct found.
  2: { exists gb, gi, [], calls. split; [done|].
       pose proof (Hincrun (gi, []) eq_refl) as Hr. split; [done|].
       split; [|done]. unfold AStar.IncSearch. by rewrite Hr. }
  destruct Hfin as (i & p & gv & Hi & _ & Hgv & Hck).
  destruct I' as [Htopo Hwf0 Hsin Hgin Hgoal Hstart Hqueue Hfront Hchain Hrel Hpend].
  assert (Hop : is_in_openlist_ gv = true).
  { destruct (Hqueue p goal) as (v & Hv & [?|[? _]]);
      [by eapply list_elem_of_lookup_2|congruence..]. }
  destruct (Hchain goal gv Hgv (or_intror Hop)) as (vs & Hch & Hw & Hnd & Hint).
  assert (Hseen : ∀ x, x ∈ vs -> ∃ vb, gb !! x = Some vb ∧
            (is_checked_ vb = true ∨ is_in_openlist_ vb = true)).
  { intros x Hx. destruct (decide (x = goal)) as [->|Hne]; [eauto|].
    destruct (Hint x Hx Hne) as (xv & Hxv & Hxck). eauto. }
  assert (Hinc_v : ∀ x, x ∈ vs -> ∃ vb vi, gb !! x = Some vb ∧ gi !! x = Some vi ∧
            state_ vi = state_ vb ∧ g_cost_ vi = g_cost_ vb ∧
            (x ≠ start -> search_parent_ vi = search_parent_ vb)).
  { intros x Hx. destruct (Hseen x Hx) as (vb & Hvb & Hflag).
    destruct (sim_seen G start goal gi gb q'' x vb I'' Hvb Hflag) as (vi & Hvi & Hrest).
    exists vb, vi. done. }
  destruct (path_states_ids gb vs) as (path & Hpath & Hids).
  { intros x Hx. destruct (Hseen x Hx) as (vb & Hvb & _). exists vb. split; [done|].
    destruct (same_topology_lookup gb _ x vb (same_topology_sym _ _ Htopo) Hvb)
      as (v0 & Hv0 & Ht0).
    unfold topology in Ht0. injection Ht0 as Hst0 _ _ _.
    destruct (Hwf0 x v0 Hv0) as (_ & Hid & _). congruence. }
  assert (Hfb : AStar.finish gb start goal true = Some (gb, path)).
  { apply (finish_of_chain gb start goal vs); try done.
    intros x Hx. destruct (Hseen x Hx) as (vb & -> & _). eauto. }
  assert (Hfi : AStar.finish gi start goal true = Some (gi, path)).
  { apply (finish_of_chain gi start goal vs); try done.
    - eapply parent_chain_ext; [exact Hch|]. intros x xv Hx Hxs Hxv.
      destruct (Hinc_v x Hx) as (vb & vi & Hvb & Hvi & _ & _ & Hpar).
      rewrite Hxv in Hvb. injection Hvb as <-. exists vi. split; [done|]. by apply Hpar.
    - intros x Hx. destruct (Hinc_v x Hx) as (vb & vi & _ & -> & _). eauto.
    - rewrite <- Hpath. apply path_states_agree. intros x Hx.
      destruct (Hinc_v x Hx) as (vb & vi & -> & -> & Hst & _). simpl. by rewrite Hst. }
  exists gb, gi, path, calls. split; [done|].
  pose proof (Hincrun _ Hfi) as Hr. simpl in Hr. split; [done|].
  split; [unfold AStar.IncSearch; by rewrite Hr|].
  intros _.
  destruct (Hinc_v goal) as (vb & vi & -> & -> & _ & Hgc & _);
    [by eapply parent_chain_last_elem|].
  simpl. by rewrite Hgc.
Qed.

Lemma prebuilt_prebuilt_off goal (nb : State -> list (State * Z)) G :
  prebuilt nb G -> prebuilt_off goal nb G.
Proof. intros Hpre id v Hv _. exact (Hpre id v Hv). Qed.



End IncMatches.

(** ** The theorems at concrete inputs *)

Section ZeroHeuristic.
Context {State : Type} `{StateIndexer State}.

Lemma nonneg_costs_Forall (g : Graph State) :
  Forall (fun e => 0 ≤ cost_ e) (GetAllEdges g) -> nonneg_costs g.
Proof.
  rewrite Forall_forall. intros Hall u v c (uv & e & Huv & He & _ & <-).
  apply Hall, elem_of_GetAllEdges. eauto.
Qed.

Lemma walk_cost_bound (g : Graph State) (M : Z) u vs v c :
  0 ≤ M -> (∀ x y d, edge_in g x y d -> Z.abs d ≤ M) -> walk g u vs v c ->
  Z.abs c ≤ (Z.of_nat (length vs) - 1) * M.
Proof.
  intros HM Hall. induction 1 as [u Hu|u w vs v c1 c2 He Hw IH]; simpl length.
  - simpl. lia.
  - pose proof (Hall _ _ _ He). lia.
Qed.

(** A bound that makes the sums exact: edge costs of magnitude [M] at most,
    heuristic values of magnitude [B] at most, and as many times [M] as the
    graph has vertices, plus [B], within [2^53]. *)
Lemma exact_costs_bounded (g : Graph State) (h : State -> State -> Z) start goal (M B : Z) :
  Forall (fun e => Z.abs (cost_ e) ≤ M) (GetAllEdges g) ->
  (∀ s t, Z.abs (h s t) ≤ B) ->
  0 ≤ M -> Z.of_nat (size g) * M + B ≤ 2 ^ 53 ->
  exact_costs g h start goal.
Proof.
  rewrite Forall_forall. intros Hall Hh HM Hsum vs v c hv Hw Hnd Hv.
  assert (Hedge : ∀ x y d, edge_in g x y d -> Z.abs d ≤ M).
  { intros x y d (xv & e & Hxv & He & _ & <-). apply Hall, elem_of_GetAllEdges. eauto. }
  pose proof (walk_cost_bound g M start vs v c HM Hedge Hw) as Hc.
  assert (Hlen : (length vs ≤ size g)%nat).
  { apply NoDup_length_le_size; [done|]. intros x Hx. by eapply walk_elem. }
  assert (Hhv : Z.abs hv ≤ B).
  { unfold h_at in Hv. destruct (g !! v), (g !! goal); simpl in Hv; try done.
    injection Hv as <-. apply Hh. }
  assert (Hc' : Z.abs c ≤ Z.of_nat (size g) * M) by nia.
  split; lia.
Qed.

Lemma consistent_zero (g : Graph State) (h : State -> State -> Z) goal :
  (∀ s t, h s t = 0) -> nonneg_costs g -> consistent g h goal.
Proof.
  intros Hz Hnn u v c hu hv He Hu Hv. unfold h_at in *.
  destruct (g !! u), (g !! v), (g !! goal); simpl in *; try done.
  injection Hu as <-. injection Hv as <-. rewrite !Hz. pose proof (Hnn _ _ _ He). lia.
Qed.

Lemma admissible_zero (g : Graph State) (h : State -> State -> Z) goal :
  (∀ s t, h s t = 0) -> nonneg_costs g -> admissible g h goal.
Proof.
  intros Hz Hnn u vs c hu Hw Hu. unfold h_at in *.
  destruct (g !! u), (g !! goal); simpl in *; try done.
  injection Hu as <-. rewrite Hz. by eapply walk_nonneg.
Qed.

Lemma edge_cost_edge_in (g : Graph State) u v c : edge_cost g u v = Some c -> edge_in g u v c.
Proof.
  unfold edge_cost. destruct (g !! u) as [uv|] eqn:Hu; [|done]. simpl.
  destruct (find _ _) as [e|] eqn:Hf; [|done]. intros [= <-].
  apply find_some in Hf as [Hin Hd]. exists uv, e.
  repeat split; [done|by apply list_elem_of_In|lia].
Qed.

(** A vertex sequence that has a cost is a walk. *)
Lemma path_cost_walk (g : Graph State) u vs c :
  path_cost g (u :: vs) = Some c -> ∃ v, walk g u (u :: vs) v c.
Proof.
  revert u c. induction vs as [|w vs IH]; intros u c.
  - simpl. destruct (g !! u) eqn:Hu; [|done]. intros [= <-].
    exists u. apply walk_one. eauto.
  - change (path_cost g (u :: w :: vs))
      with (c ← edge_cost g u w; r ← path_cost g (w :: vs); Some (c + r)).
    destruct (edge_cost g u w) as [c1|] eqn:He; [|done]. cbn [mbind option_bind].
    destruct (path_cost g (w :: vs)) as [c2|] eqn:Hp; [|done]. cbn [mbind option_bind].
    intros [= <-].
    destruct (IH w c2 Hp) as [v Hw]. exists v.
    apply walk_cons with w; [by apply edge_cost_edge_in|done].
Qed.

End ZeroHeuristic.

Lemma scenario_nonneg : nonneg_costs scenario_graph.
Proof. apply nonneg_costs_Forall, (bool_decide_unpack _). vm_compute. reflexivity. Qed.

Lemma scenario_exact start goal : exact_costs scenario_graph zero_heuristic start goal.
Proof.
  apply (exact_costs_bounded _ _ _ _ 5 0); [|intros s t|lia|]; [|reflexivity|].
  - apply (bool_decide_unpack _). vm_compute. reflexivity.
  - vm_compute. discriminate.
Qed.

Lemma scenario_reachable : reachable scenario_graph 1 5.
Proof.
  destruct (path_cost_walk scenario_graph 1 [2; 3; 4; 5] 4) as [v Hw];
    [vm_compute; reflexivity|].
  destruct (walk_last_in _ _ _ _ _ Hw) as [_ [= <-]]. by exists [1; 2; 3; 4; 5], 4.
Qed.

Lemma scenario_prebuilt : prebuilt scenario_neighbours scenario_graph.
Proof. apply (bool_decide_unpack _). vm_compute. reflexivity. Qed.

Lemma Search_shortest_path_witness :
  ∃ g' path c, AStar.Search first_put scenario_graph 1 5 zero_heuristic = Some (g', path) ∧
    walk scenario_graph 1 (GetStateIndex <$> path) 5 c ∧
    head (GetStateIndex <$> path) = Some 1 ∧
    last (GetStateIndex <$> path) = Some 5 ∧
    path_cost scenario_graph (GetStateIndex <$> path) = Some c ∧
    g_cost_ <$> g' !! 5 = Some c ∧
    ∀ vs w, walk scenario_graph 1 vs 5 w -> c ≤ w.
Proof.
  apply (Search_shortest_path first_put zero_heuristic scenario_graph 1 5).
  - exact scenario_graph_wf.
  - exact scenario_nonneg.
  - apply consistent_zero; [reflexivity|exact scenario_nonneg].
  - apply admissible_zero; [reflexivity|exact scenario_nonneg].
  - apply scenario_exact.
  - exact scenario_reachable.
Defined.

(** The claim C1 fails where a sum leaves [int64_t], whatever the policy for
    ties, and where two priorities are rounded to the same [double]. *)
Lemma Search_shortest_counterexample :
  (∀ tie, ¬ Search_shortest_claim tie zero_heuristic overflow_graph 1 2) ∧
  ¬ Search_shortest_claim first_put zero_heuristic rounding_graph 1 2.
Proof.
  split.
  - intros tie Hclaim.
    assert (Hnn : nonneg_costs overflow_graph).
    { apply nonneg_costs_Forall, (bool_decide_unpack _). vm_compute. reflexivity. }
    destruct (path_cost_walk overflow_graph 1 [2] (2 ^ 63 - 1)) as [v Hw];
      [vm_compute; reflexivity|].
    destruct (walk_last_in _ _ _ _ _ Hw) as [_ [= <-]].
    destruct Hclaim as (g' & path & c & Hs & Hc & Hmin).
    + apply (bool_decide_unpack _). vm_compute. reflexivity.
    + exact Hnn.
    + apply consistent_zero; [reflexivity|exact Hnn].
    + apply admissible_zero; [reflexivity|exact Hnn].
    + by exists [1; 2], (2 ^ 63 - 1).
    + vm_compute in Hs. injection Hs as _ <-.
      vm_compute in Hc. injection Hc as <-.
      specialize (Hmin _ _ Hw). lia.
  - intros Hclaim.
    assert (Hnn : nonneg_costs rounding_graph).
    { apply nonneg_costs_Forall, (bool_decide_unpack _). vm_compute. reflexivity. }
    destruct (path_cost_walk rounding_graph 1 [4; 2] (2 ^ 53)) as [v Hw];
      [vm_compute; reflexivity|].
    destruct (walk_last_in _ _ _ _ _ Hw) as [_ [= <-]].
    destruct Hclaim as (g' & path & c & Hs & Hc & Hmin).
    + apply (bool_decide_unpack _). vm_compute. reflexivity.
    + exact Hnn.
    + apply consistent_zero; [reflexivity|exact Hnn].
    + apply admissible_zero; [reflexivity|exact Hnn].
    + by exists [1; 4; 2], (2 ^ 53).
    + vm_compute in Hs. injection Hs as _ <-.
      vm_compute in Hc. injection Hc as <-.
      specialize (Hmin _ _ Hw). lia.
Qed.



Lemma Search_empty_iff_witness :
  ∃ g' path, AStar.Search first_put scenario_graph 5 1 zero_heuristic = Some (g', path) ∧
    (path = [] ↔ scenario_graph !! 5 = None ∨ scenario_graph !! 1 = None
                 ∨ ¬ reachable scenario_graph 5 1).
Proof.
  apply (Search_empty_iff first_put zero_heuristic scenario_graph 5 1).
  exact scenario_graph_wf.
Defined.

Lemma AddEdge_upsert_witness :
  filter (fun e => src_ e = 1 ∧ dst_ e = 3)
    (GetAllEdges (AddEdge 1 3 9 (AddEdge 1 3 5 scenario_graph))) = [mkEdge 1 3 9] ∧
  GetGraphEdgeNumber (AddEdge 1 3 9 (AddEdge 1 3 5 scenario_graph))
    = GetGraphEdgeNumber (AddEdge 1 3 5 scenario_graph) ∧
  graph_wf (AddEdge 1 3 9 (AddEdge 1 3 5 scenario_graph)).
Proof.
  exact (AddEdge_upsert scenario_graph 1 3 5 9 scenario_graph_wf).
Defined.

Lemma AddVertex_idempotent_witness :
  let '(g1, r1) := AddVertex ((1, 1) : Z * Z) tagged_graph in
  let '(g2, r2) := AddVertex ((1, 2) : Z * Z) g1 in
  r2 = r1 ∧ g2 = g1 ∧
  GetGraphVertexNumber g2 = GetGraphVertexNumber g1 ∧
  state_ <$> g2 !! r2 = state_ <$> g1 !! r1 ∧
  (tagged_graph !! GetStateIndex ((1, 1) : Z * Z) = None ->
   state_ <$> g2 !! r2 = Some (1, 1)) ∧
  (∀ v, tagged_graph !! GetStateIndex ((1, 1) : Z * Z) = Some v -> g2 !! r2 = Some v).
Proof.
  exact (AddVertex_idempotent tagged_graph (1, 1) (1, 2) eq_refl).
Defined.

(** C6 as stated fails where a vertex of the identity is there already: the
    stored state stays the one of that vertex, [(1, 0)], not [s1 = (1, 1)]. *)
Lemma AddVertex_twice_counterexample :
  GetStateIndex ((1, 1) : Z * Z) = GetStateIndex ((1, 2) : Z * Z) ∧
  ¬ AddVertex_twice_claim tagged_graph (1, 1) (1, 2).
Proof.
  split; [reflexivity|]. unfold AddVertex_twice_claim. vm_compute.
  intros (_ & _ & Heq). discriminate Heq.
Qed.

Lemma RemoveVertex_scrubs_witness :
  RemoveVertex 3 scenario_graph !! 3 = None ∧
  (∀ e, e ∈ GetAllEdges (RemoveVertex 3 scenario_graph) ->
     e ∈ GetAllEdges scenario_graph ∧ src_ e ≠ 3 ∧ dst_ e ≠ 3) ∧
  (∀ id u, RemoveVertex 3 scenario_graph !! id = Some u ->
     (∀ e, e ∈ edges_to_ u -> src_ e ≠ 3 ∧ dst_ e ≠ 3) ∧ 3 ∉ vertices_from_ u).
Proof.
  apply (proj1 (RemoveVertex_scrubs scenario_graph 3)). vm_compute. eauto.
Defined.

Lemma expanded_is_final_witness :
  ∃ st1 st2,
    AStar.search_iter first_put zero_heuristic 5
      (AStar.seed (ResetAllVertices scenario_graph) 1) = Some (inl st1) ∧
    AStar.search_iter first_put zero_heuristic 5 st1 = Some (inl st2) ∧
    monotone_step st1 st2.
Proof.
  eexists _, _. split; [vm_compute; reflexivity|]. split; [vm_compute; reflexivity|].
  apply (proj1 (expanded_is_final first_put zero_heuristic 5)).
  eapply search_steps_next; [vm_compute; reflexivity|apply search_steps_refl].
Defined.

Lemma Search_same_endpoints_witness :
  ∃ vv, scenario_graph !! 3 = Some vv ∧
    AStar.Search first_put scenario_graph 3 3 zero_heuristic
      = Some ((AStar.seed (ResetAllVertices scenario_graph) 3).1, [state_ vv]).
Proof.
  eexists. split; [vm_compute; reflexivity|].
  apply (Search_same_endpoints first_put scenario_graph 3 _ zero_heuristic).
  vm_compute. reflexivity.
Defined.

Lemma IncSearch_goal_never_expanded_witness :
  (∀ s, s ≠ 5 -> scenario_neighbours s = detour_neighbours s) ∧
  AStar.IncSearch first_put 10 1 5 scenario_neighbours zero_heuristic
    = AStar.IncSearch first_put 10 1 5 detour_neighbours zero_heuristic.
Proof.
  assert (Hagree : ∀ s, s ≠ 5 -> scenario_neighbours s = detour_neighbours s).
  { intros s Hs. unfold detour_neighbours. destruct (Z.eqb_spec s 5); [lia|reflexivity]. }
  split; [exact Hagree|].
  apply (IncSearch_goal_never_expanded first_put zero_heuristic 10 1 5
           scenario_neighbours detour_neighbours Hagree).
Defined.

(** ** The open list: what [get] yields, and [put] followed by [get] *)

Section QueueProperties.
Implicit Types (q : list (Z * Z)) (tie : list (Z * Z) -> nat).

(** X1: On a non-empty open list, whatever the tie policy, [get] returns the item
    of an entry whose priority no entry undercuts, and takes exactly that entry
    out: the entries are those left plus the one returned, and the size drops
    by one. *)
Theorem get_yields_least tie q :
  q ≠ [] ->
  ∃ item rest p, PriorityQueue.get tie q = Some (item, rest) ∧
    q ≡ₚ (p, item) :: rest ∧ (∀ e, e ∈ q -> p ≤ e.1) ∧
    S (PriorityQueue.size rest) = PriorityQueue.size q.
Proof.
  intros Hq. destruct (get_is_Some tie q Hq) as [[item rest] Hget].
  destruct (get_spec tie q item rest Hget) as (i & p & Hi & -> & Hmin).
  exists item, (delete i q), p. split; [done|].
  pose proof (delete_Permutation q i (p, item) Hi) as Hperm.
  split; [done|]. split; [done|].
  unfold PriorityQueue.size. apply Permutation_length in Hperm. by rewrite Hperm.
Qed.

(** X2: An item put with a priority below every priority on the open list is the
    one the next [get] returns, and the open list is then as it was before the
    [put]. *)
Theorem put_then_get tie q item p :
  (∀ e, e ∈ q -> p < e.1) ->
  PriorityQueue.get tie (PriorityQueue.put item p q) = Some (item, q).
Proof.
  intros Hlow.
  destruct (get_is_Some tie (PriorityQueue.put item p q)) as [[x rest] Hget].
  { unfold PriorityQueue.put. by destruct q. }
  rewrite Hget.
  destruct (get_spec tie _ x rest Hget) as (i & p' & Hi & -> & Hmin).
  unfold PriorityQueue.put in *.
  destruct (decide (i < length q)%nat) as [Hlt|Hge].
  - rewrite lookup_app_l in Hi by done.
    assert (Hin : (p', x) ∈ q) by by eapply list_elem_of_lookup_2.
    pose proof (Hlow _ Hin) as H1.
    assert (H2 : p' ≤ p).
    { apply (Hmin (p, item)). apply elem_of_app. right. left. }
    simpl in H1. lia.
  - assert (i = length q) as ->.
    { apply lookup_lt_Some in Hi. rewrite length_app in Hi. simpl in Hi. lia. }
    rewrite list_lookup_middle in Hi by done. injection Hi as <- <-.
    f_equal. f_equal. clear. induction q as [|e q IH]; [done|]. simpl. by rewrite IH.
Qed.

End QueueProperties.

(** ** [ReconstructPath]: the way back is the chain of the parents *)

Section PathBack.
Context {State : Type} `{StateIndexer State}.
Implicit Types (g : Graph State).

Lemma parent_chain_head g start v vs : parent_chain g start v vs -> head vs = Some start.
Proof.
  induction 1 as [|v vv u vs _ _ _ Hch IH]; [done|]. by destruct vs.
Qed.

Lemma parent_chain_last g start v vs : parent_chain g start v vs -> last vs = Some v.
Proof. destruct 1; [done|]. apply last_snoc. Qed.

Lemma parent_chain_unique g start v vs1 vs2 :
  parent_chain g start v vs1 -> parent_chain g start v vs2 -> vs1 = vs2.
Proof.
  intros H1. revert vs2. induction H1 as [|v vv u vs Hne Hv Hp Hc IH]; intros vs2 H2.
  - inversion H2; [done|congruence].
  - inversion H2 as [|v' vv' u' vs' Hne' Hv' Hp' Hc']; [congruence|].
    subst. rewrite Hv in Hv'. injection Hv' as <-.
    rewrite Hp in Hp'. injection Hp' as <-. f_equal. by apply IH.
Qed.

Lemma reconstruct_loop_sound g start fuel v acc r :
  AStar.reconstruct_loop g start fuel v acc = Some r ->
  ∃ vs, parent_chain g start v vs ∧ r = vs ++ acc.
Proof.
  revert v acc. induction fuel as [|fuel IH]; intros v acc; simpl.
  - destruct (Z.eqb_spec v start) as [->|]; [|done]. intros [= <-].
    exists [start]. split; [constructor|done].
  - destruct (Z.eqb_spec v start) as [->|Hne].
    { intros [= <-]. exists [start]. split; [constructor|done]. }
    destruct (g !! v) as [vv|] eqn:Hv; [|done]. simpl.
    destruct (search_parent_ vv) as [u|] eqn:Hp; [|done]. simpl.
    intros Hr. destruct (IH _ _ Hr) as (vs & Hch & ->).
    exists (vs ++ [v]). split; [by eapply chain_step|]. by rewrite <- app_assoc.
Qed.

(** The chain of each vertex of a chain is no longer than the chain. *)
Lemma parent_chain_elem g start v vs x :
  parent_chain g start v vs -> x ∈ vs ->
  ∃ vs', parent_chain g start x vs' ∧ (length vs' ≤ length vs)%nat.
Proof.
  induction 1 as [|v vv u vs Hne Hv Hp Hch IH].
  - intros ->%list_elem_of_singleton. exists [start]. split; [constructor|done].
  - intros [Hx| ->%list_elem_of_singleton]%elem_of_app.
    + destruct (IH Hx) as (vs' & Hch' & Hlen). exists vs'. split; [done|].
      rewrite length_app. lia.
    + exists (vs ++ [v]). split; [by eapply chain_step|done].
Qed.

(** A chain visits no vertex twice, and its vertices after the start are in
    the store: it is no longer than the store is large, plus one. *)
Lemma parent_chain_NoDup g start v vs :
  parent_chain g start v vs ->
  NoDup vs ∧ ∀ x, x ∈ vs -> x ≠ start -> is_Some (g !! x).
Proof.
  induction 1 as [|v vv u vs Hne Hv Hp Hch [IHnd IHin]].
  - split; [apply NoDup_singleton|]. by intros x ->%list_elem_of_singleton.
  - split.
    + apply NoDup_app. split; [done|]. split; [|apply NoDup_singleton].
      intros x Hx ->%list_elem_of_singleton.
      destruct (parent_chain_elem _ _ _ _ _ Hch Hx) as (vs' & Hch' & Hlen).
      assert (Hch2 : parent_chain g start v (vs ++ [v])) by by eapply chain_step.
      rewrite (parent_chain_unique _ _ _ _ _ Hch' Hch2), length_app in Hlen.
      simpl in Hlen. lia.
    + intros x [Hx| ->%list_elem_of_singleton]%elem_of_app; [by apply IHin|eauto].
Qed.

Lemma parent_chain_length g start v vs :
  parent_chain g start v vs -> (length vs ≤ S (size g))%nat.
Proof.
  intros Hch. destruct (parent_chain_NoDup _ _ _ _ Hch) as [Hnd Hin].
  pose proof (parent_chain_head _ _ _ _ Hch) as Hhd.
  destruct vs as [|x tl]; [done|]. injection Hhd as ->.
  apply NoDup_cons in Hnd as [Hx Hnd]. simpl. apply le_n_S.
  apply NoDup_length_le_size; [done|].
  intros y Hy. apply Hin; [by right|]. by intros ->.
Qed.

(** X3: [ReconstructPath] returns a vertex sequence exactly when following
    [search_parent_] from the goal vertex leads to the start vertex, and then
    that chain: it begins at the start, ends at the goal, and each of its
    vertices after the first has the one before it as its parent.  A chain
    that leads to the start has no vertex twice, so that the bound on the
    passes of the loop cuts no such chain short. *)
Theorem ReconstructPath_follows_parents g start goal vs :
  (AStar.ReconstructPath g start goal = Some vs ↔ parent_chain g start goal vs) ∧
  (parent_chain g start goal vs ->
     head vs = Some start ∧ last vs = Some goal ∧ NoDup vs).
Proof.
  split; [split|].
  - unfold AStar.ReconstructPath. intros Hr.
    destruct (reconstruct_loop_sound _ _ _ _ _ _ Hr) as (vs' & Hch & ->).
    by rewrite app_nil_r.
  - intros Hch. unfold AStar.ReconstructPath.
    rewrite (reconstruct_loop_chain g start goal vs (size g) [] Hch).
    + by rewrite app_nil_r.
    + by eapply parent_chain_length.
  - intros Hch. split; [by eapply parent_chain_head|].
    split; [by eapply parent_chain_last|].
    by destruct (parent_chain_NoDup _ _ _ _ Hch).
Qed.

End PathBack.

(** ** A search writes search fields only *)

Section Frame.
Context {State : Type} `{StateIndexer State}.
Variable tie : list (Z * Z) -> nat.
Variable h : State -> State -> Z.
Implicit Types (g : Graph State) (q : list (Z * Z)).

Lemma search_iter_topology goal g q g' q' :
  AStar.search_iter tie h goal (g, q) = Some (inl (g', q')) -> same_topology g g'.
Proof.
  intros Hit.
  apply search_iter_inv in Hit
    as (cur & i & p & cv & Hi & Hmin & Hcv &
        [(Hck & [= -> ->])|[(Hck & _ & [=])|(Hck & Hne & [g1 q1] & Hrel & [= -> ->])]]).
  - apply same_topology_refl.
  - eapply same_topology_trans; [|by eapply relax_edges_topology].
    by apply (same_topology_insert g g cur cv).
Qed.

Lemma search_loop_topology goal fuel g q g' found :
  AStar.search_loop tie h goal fuel (g, q) = Some (g', found) -> same_topology g g'.
Proof.
  intros Hl. apply search_loop_steps in Hl as [q' Hst].
  remember (g, q) as st eqn:E1. remember (g', q') as st' eqn:E2.
  revert g q E1. induction Hst as [st|st [g1 q1] st2 Hit _ IH]; intros g q ->.
  - injection E2 as <- <-. apply same_topology_refl.
  - eapply same_topology_trans; [by eapply search_iter_topology|by eapply IH].
Qed.

Lemma finish_store g start goal found g' path :
  AStar.finish g start goal found = Some (g', path) -> g' = g.
Proof.
  unfold AStar.finish. destruct found; [|by intros [= <- _]].
  destruct (AStar.ReconstructPath g start goal); [|done]. simpl.
  destruct (AStar.path_states g _); [|done]. simpl. by intros [= <- _].
Qed.

Lemma PerformSearch_topology g start goal g' path :
  AStar.PerformSearch tie g start goal h = Some (g', path) -> same_topology g g'.
Proof.
  unfold AStar.PerformSearch.
  destruct (AStar.search_loop _ _ _ _ _) as [[g1 found]|] eqn:Hl; [|done]. simpl.
  intros ->%finish_store.
  eapply same_topology_trans; [apply (same_topology_seed g start)|].
  destruct (AStar.seed g start) as [gs qs]. by eapply search_loop_topology.
Qed.

(** X4: A search changes nothing but search fields: the store that [Search] leaves
    holds the same vertices as the graph it was given, each with the same state,
    identity, edge list and predecessor list. *)
Theorem Search_keeps_topology g start goal g' path :
  AStar.Search tie g start goal h = Some (g', path) -> same_topology g g'.
Proof.
  unfold AStar.Search.
  destruct (FindVertex start _) as [s|] eqn:Hs.
  2: { intros [= <- _]. apply same_topology_Reset. }
  destruct (FindVertex goal _) as [t|] eqn:Ht.
  2: { intros [= <- _]. apply same_topology_Reset. }
  intros Hp. eapply same_topology_trans; [apply same_topology_Reset|].
  unfold FindVertex in Hs, Ht.
  destruct (ResetAllVertices g !! start); [|done]. injection Hs as <-.
  destruct (ResetAllVertices g !! goal); [|done]. injection Ht as <-.
  by eapply PerformSearch_topology.
Qed.

End Frame.

(** ** What [Search] leaves behind, whatever the heuristic *)

Section SearchOutcome.
Context {State : Type} `{StateIndexer State}.
Variable tie : list (Z * Z) -> nat.
Variable h : State -> State -> Z.
Implicit Types (g : Graph State) (q : list (Z * Z)).

(** [finish] after a successful loop, with what the path is made of. *)
Lemma finish_found_simple g0 start goal g q i p gv :
  search_inv g0 h start goal start [] g q ->
  q !! i = Some (p, goal) -> g !! goal = Some gv -> is_checked_ gv = false ->
  ∃ path, AStar.finish g start goal true = Some (g, path) ∧
    is_in_openlist_ gv = true ∧
    (∃ c, walk g0 start (GetStateIndex <$> path) goal c ∧
          (exact_costs g0 h start goal -> g_cost_ gv = c)) ∧
    NoDup (GetStateIndex <$> path) ∧
    parent_chain g start goal (GetStateIndex <$> path) ∧
    AStar.path_states g (GetStateIndex <$> path) = Some path.
Proof.
  intros I Hi Hgv Hck.
  destruct I as [Htopo Hwf Hsin Hgin Hgoal Hstart Hqueue Hfront Hchain Hrel Hpend].
  assert (Hop : is_in_openlist_ gv = true).
  { destruct (Hqueue p goal) as (v & Hv & [?|[? _]]);
      [by eapply list_elem_of_lookup_2|congruence..]. }
  destruct (Hchain goal gv Hgv (or_intror Hop)) as (vs & Hch & (c & Hw & Hc) & Hnd & Hint).
  assert (Hall : ∀ x, x ∈ vs -> is_Some (g !! x)).
  { intros x Hx. apply (same_topology_is_Some g0 g x Htopo). by eapply walk_elem. }
  destruct (path_states_ids g vs) as (path & Hpath & Hids).
  { intros x Hx. destruct (Hall x Hx) as [v Hv]. exists v. split; [done|].
    destruct (same_topology_lookup g g0 x v (same_topology_sym _ _ Htopo) Hv)
      as (v0 & Hv0 & Ht0).
    unfold topology in Ht0. injection Ht0 as Hs _ _ _.
    destruct (Hwf x v0 Hv0) as (_ & Hid & _). congruence. }
  exists path. rewrite Hids. split; [by apply (finish_of_chain g start goal vs path)|].
  split; [done|]. split; [by exists c|done].
Qed.

(** When the open list has run empty, every vertex that a walk from the start
    leads to has been expanded. *)
Lemma exhausted_closed g0 start goal g u :
  search_inv g0 h start goal start [] g [] -> reachable g0 start u ->
  ∃ uv, g !! u = Some uv ∧ is_checked_ uv = true.
Proof.
  intros I (vs & c & Hw).
  destruct I as [Htopo Hwf Hsin Hgin Hgoal Hstart Hqueue Hfront Hchain Hrel Hpend].
  assert (Hsck : ∃ sv, g !! start = Some sv ∧ is_checked_ sv = true).
  { apply (same_topology_is_Some g0 g start Htopo) in Hsin as [sv Hsv].
    exists sv. split; [done|].
    destruct (Hstart sv Hsv) as [_ [?|(_ & Hq & _)]]; [done|discriminate]. }
  assert (Hall : ∀ a vs v c, walk g0 a vs v c ->
            (∃ av, g !! a = Some av ∧ is_checked_ av = true) ->
            ∃ vv, g !! v = Some vv ∧ is_checked_ vv = true).
  { clear vs c Hw. induction 1 as [a Ha|a w vs v c1 c2 He Hw IH]; [done|].
    intros (av & Hav & Hack). apply IH.
    destruct (edge_in_topology g0 g a w c1 Htopo He) as (av' & e & Hav' & Hin & Hde & _).
    rewrite Hav in Hav'. injection Hav' as <-.
    destruct (Hrel a av e Hav Hack Hin) as [[_ ?%elem_of_nil]|(dv & Hdv & Hd)]; [done|].
    rewrite Hde in Hdv. exists dv. split; [done|].
    destruct Hd as [?|[Hop _]]; [done|].
    destruct (is_checked_ dv) eqn:Hdck; [done|].
    destruct (Hfront w dv Hdv Hdck Hop) as [->|(hv & p' & _ & ?%elem_of_nil & _)]; [|done].
    destruct Hsck as (sv & Hsv & Hsvck). congruence. }
  by eapply Hall.
Qed.

(** The outcomes of [Search] on a well-formed graph: an end point is missing
    and the graph is reset only; or the loop has run, keeping the invariant and
    whatever else [P] the passes keep, to the end with the open list empty or
    with the goal on top of it. *)
Lemma Search_outcome (P : Graph State -> Prop) g start goal :
  graph_wf g ->
  P (AStar.seed (ResetAllVertices g) start).1 ->
  (∀ g1 q1 g2 q2,
     search_inv (AStar.seed (ResetAllVertices g) start).1 h start goal start [] g1 q1 ->
     P g1 -> AStar.search_iter tie h goal (g1, q1) = Some (inl (g2, q2)) -> P g2) ->
  ∃ g' path, AStar.Search tie g start goal h = Some (g', path) ∧
    (((g !! start = None ∨ g !! goal = None) ∧ g' = ResetAllVertices g ∧ path = [])
     ∨ (is_Some (g !! start) ∧ is_Some (g !! goal) ∧
        same_topology g (AStar.seed (ResetAllVertices g) start).1 ∧ P g' ∧
        ∃ q',
          search_inv (AStar.seed (ResetAllVertices g) start).1 h start goal start [] g' q' ∧
          ((path = [] ∧ q' = [])
           ∨ ∃ i p gv, q' !! i = Some (p, goal) ∧ (∀ x, x ∈ q' -> p ≤ x.1) ∧
               g' !! goal = Some gv ∧ is_checked_ gv = false ∧
               is_in_openlist_ gv = true ∧
               (∃ c, walk (AStar.seed (ResetAllVertices g) start).1 start
                       (GetStateIndex <$> path) goal c ∧
                     (exact_costs (AStar.seed (ResetAllVertices g) start).1 h start goal ->
                      g_cost_ gv = c)) ∧
               NoDup (GetStateIndex <$> path) ∧
               parent_chain g' start goal (GetStateIndex <$> path) ∧
               AStar.path_states g' (GetStateIndex <$> path) = Some path))).
Proof.
  intros Hwf HP0 HP. unfold AStar.Search, FindVertex. rewrite !lookup_Reset.
  destruct (g !! start) as [sv|] eqn:Hsv; simpl.
  2: { eexists _, []. split; [done|]. left. split; [by left|done]. }
  destruct (g !! goal) as [gv|] eqn:Hgv; simpl.
  2: { eexists _, []. split; [done|]. left. split; [by right|done]. }
  set (gr := ResetAllVertices g) in *.
  assert (Htopo : same_topology g (AStar.seed gr start).1).
  { eapply same_topology_trans; [apply same_topology_Reset|apply same_topology_seed]. }
  destruct (PerformSearch_run tie h gr start goal P)
    as (g' & found & q' & _ & Hrun & HP' & I' & Hfin); [| | | |done|done|].
  { by apply graph_wf_Reset. }
  { apply Reset_clear. }
  { unfold gr. rewrite lookup_Reset, Hsv. eauto. }
  { unfold gr. rewrite lookup_Reset, Hgv. eauto. }
  rewrite Hrun. destruct found.
  - destruct Hfin as (i & p & gv' & Hi & Hmin & Hgv' & Hck).
    destruct (finish_found_simple _ start goal g' q' i p gv' I' Hi Hgv' Hck)
      as (path & -> & Hop & Hw & Hnd & Hch & Hps).
    exists g', path. split; [done|]. right.
    do 4 (split; [eauto|]). exists q'. split; [done|]. right.
    exists i, p, gv'. done.
  - subst q'. exists g', []. split; [done|]. right.
    do 4 (split; [eauto|]). exists []. split; [done|]. by left.
Qed.

(** X5: On a well-formed graph, whatever the heuristic and the edge costs, a path
    that [Search] returns is a walk of the graph from the start to the goal that
    visits no vertex twice, and its states are the states stored in the graph;
    when the sums are exact, the cost of the walk is the g-cost left at the
    goal. *)
Theorem Search_path_is_simple_walk g start goal :
  graph_wf g ->
  ∃ g' path, AStar.Search tie g start goal h = Some (g', path) ∧
    (path ≠ [] ->
     ∃ c, walk g start (GetStateIndex <$> path) goal c ∧
       (exact_costs g h start goal -> g_cost_ <$> g' !! goal = Some c) ∧
       NoDup (GetStateIndex <$> path) ∧
       Forall (fun s => state_ <$> g !! GetStateIndex s = Some s) path).
Proof.
  intros Hwf.
  destruct (Search_outcome (fun _ => True) g start goal Hwf) as (g' & path & Hs & Hout);
    [done..|].
  exists g', path. split; [done|]. intros Hne.
  destruct Hout as [(_ & _ & ->)|(_ & _ & Htopo & _ & q' & I' & [[-> _]|Hfound])]; [done..|].
  destruct Hfound as (i & p & gv & Hi & _ & Hgv & _ & _ & (c & Hw & Hc) & Hnd & _ & Hps).
  exists c.
  split; [by eapply walk_topology; [apply same_topology_sym|]|].
  split.
  { intros Hex. rewrite Hgv. simpl. f_equal. apply Hc.
    by apply (exact_costs_topology h g). }
  split; [done|].
  assert (Htopo' : same_topology g g').
  { eapply same_topology_trans; [exact Htopo|apply (inv_topo _ _ _ _ _ _ _ _ I')]. }
  apply Forall_lookup. intros k s Hk.
  unfold AStar.path_states in Hps. apply mapM_Some in Hps.
  assert (Hk' : (GetStateIndex <$> path) !! k = Some (GetStateIndex s)).
  { by rewrite list_lookup_fmap, Hk. }
  destruct (Forall2_lookup_l _ _ _ _ _ Hps Hk') as (s' & Hs' & Hst).
  rewrite Hk in Hs'. injection Hs' as <-.
  pose proof (Htopo' (GetStateIndex s)) as Hid.
  destruct (g' !! GetStateIndex s) as [v'|]; [|done].
  destruct (g !! GetStateIndex s) as [v|]; [|done].
  simpl in *. unfold topology in Hid. injection Hid as Hid _ _ _. congruence.
Qed.

(** X6: On a well-formed graph [Search] never expands the goal vertex: it is left
    unchecked, and, when a path is returned, still flagged as on the open
    list. *)
Theorem Search_leaves_goal_unchecked g start goal :
  graph_wf g ->
  ∃ g' path, AStar.Search tie g start goal h = Some (g', path) ∧
    (∀ gv, g' !! goal = Some gv -> is_checked_ gv = false) ∧
    (path ≠ [] -> ∃ gv, g' !! goal = Some gv ∧ is_in_openlist_ gv = true).
Proof.
  intros Hwf.
  destruct (Search_outcome (fun _ => True) g start goal Hwf) as (g' & path & Hs & Hout);
    [done..|].
  exists g', path. split; [done|].
  destruct Hout as [(_ & -> & ->)|(_ & _ & Htopo & _ & q' & I' & Hfin)].
  - split; [|done]. intros gv Hgv. by destruct (Reset_clear _ _ _ Hgv).
  - split; [apply (inv_goal _ _ _ _ _ _ _ _ I')|].
    destruct Hfin as [[-> _]|(i & p & gv & _ & _ & Hgv & _ & Hop & _)]; [done|].
    intros _. by exists gv.
Qed.

(** X7: With non-negative edge costs, a consistent heuristic and exact sums, the
    g-cost that [Search] leaves at an expanded vertex is the cost of a walk
    from the start to it, and no walk from the start to it costs less:
    expanded vertices carry their shortest distances. *)
Theorem Search_expanded_costs_are_shortest g start goal :
  graph_wf g -> nonneg_costs g -> consistent g h goal -> exact_costs g h start goal ->
  ∃ g' path, AStar.Search tie g start goal h = Some (g', path) ∧
    ∀ u uv, g' !! u = Some uv -> is_checked_ uv = true ->
      (∃ vs, walk g start vs u (g_cost_ uv)) ∧
      ∀ vs c, walk g start vs u c -> g_cost_ uv ≤ c.
Proof.
  intros Hwf Hnn Hcons Hex.
  set (g0 := (AStar.seed (ResetAllVertices g) start).1).
  assert (Htopo0 : same_topology g g0).
  { eapply same_topology_trans; [apply same_topology_Reset|apply same_topology_seed]. }
  pose proof (exact_costs_topology h _ _ start goal Htopo0 Hex) as Hex0.
  destruct (Search_outcome (opt_inv g0 start) g start goal Hwf)
    as (g' & path & Hs & Hout).
  { intros u uv Huv Huck. exfalso. unfold g0 in Huv. rewrite lookup_seed in Huv.
    case_decide.
    - destruct (ResetAllVertices g !! start) eqn:E; [|done]. injection Huv as <-.
      apply Reset_clear in E as [E _]. simpl in Huck. congruence.
    - apply Reset_clear in Huv as [E _]. congruence. }
  { intros g1 q1 g2 q2 I1 Hopt1 Hit.
    eapply opt_inv_search_iter; [exact I1|exact Hopt1| | |exact Hex0|exact Hit].
    - by apply (nonneg_costs_topology g).
    - by apply (consistent_topology h g). }
  exists g', path. split; [done|]. intros u uv Huv Huck.
  destruct Hout as [(_ & -> & _)|(_ & _ & _ & Hopt & q' & I' & _)].
  { destruct (Reset_clear _ _ _ Huv). congruence. }
  split.
  - destruct (inv_chain _ _ _ _ _ _ _ _ I' u uv Huv (or_introl Huck))
      as (vs & _ & (c & Hw & Hc) & _).
    exists vs. rewrite (Hc Hex0). by eapply walk_topology; [apply same_topology_sym|].
  - intros vs c Hw. apply (Hopt u uv Huv Huck vs c). by apply (walk_topology g).
Qed.

(** X8: When both end points are in a well-formed graph and the goal cannot be
    reached from the start, [Search] returns the empty path after expanding
    exactly the vertices that can be reached from the start. *)
Theorem Search_failure_expands_reachable g start goal :
  graph_wf g -> is_Some (g !! start) -> is_Some (g !! goal) ->
  ¬ reachable g start goal ->
  ∃ g', AStar.Search tie g start goal h = Some (g', []) ∧
    ∀ u, (∃ uv, g' !! u = Some uv ∧ is_checked_ uv = true) ↔ reachable g start u.
Proof.
  intros Hwf [sv Hsv] [gv Hgv] Hnr.
  destruct (Search_outcome (fun _ => True) g start goal Hwf) as (g' & path & Hs & Hout);
    [done..|].
  destruct Hout as [([?|?] & _)|(_ & _ & Htopo & _ & q' & I' & Hfin)]; [congruence..|].
  destruct Hfin as [[-> ->]|(i & p & gv' & _ & _ & _ & _ & _ & (c & Hw & _) & _)].
  2: { exfalso. apply Hnr. exists (GetStateIndex <$> path), c.
       by eapply walk_topology; [apply same_topology_sym|]. }
  exists g'. split; [done|]. intros u. split.
  - intros (uv & Huv & Huck).
    destruct (inv_chain _ _ _ _ _ _ _ _ I' u uv Huv (or_introl Huck))
      as (vs & _ & (c & Hw & _) & _).
    exists vs, c. by eapply walk_topology; [apply same_topology_sym|].
  - intros Hr. apply (exhausted_closed _ start goal g' u I').
    by apply (reachable_topology g).
Qed.

End SearchOutcome.

(** ** The g-cost along a run, and the size of the open list *)

Section CostsAlongRun.
Context {State : Type} `{StateIndexer State}.
Variable tie : list (Z * Z) -> nat.
Variable h : State -> State -> Z.
Variable goal : Z.
Implicit Types (g : Graph State) (q : list (Z * Z)).

Lemma reached_scratch (v v' : Vertex State) : scratch v' = scratch v -> reached v -> reached v'.
Proof. unfold scratch, reached. intros [= -> -> _ _ _ _]. done. Qed.

Lemma cost_step_refl g : cost_step g g.
Proof. intros id v Hv Hr. exists v. split; [done|]. split; [done|lia]. Qed.

Lemma cost_step_trans g1 g2 g3 : cost_step g1 g2 -> cost_step g2 g3 -> cost_step g1 g3.
Proof.
  intros H12 H23 id v Hv Hr.
  destruct (H12 id v Hv Hr) as (v2 & Hv2 & Hr2 & Hle2).
  destruct (H23 id v2 Hv2 Hr2) as (v3 & Hv3 & Hr3 & Hle3).
  exists v3. split; [done|]. split; [done|lia].
Qed.

Lemma cost_step_scratch g g' :
  (∀ id v, g !! id = Some v -> ∃ v', g' !! id = Some v' ∧ scratch v' = scratch v) ->
  cost_step g g'.
Proof.
  intros Hsc id v Hv Hr. destruct (Hsc id v Hv) as (v' & Hv' & Heq).
  exists v'. split; [done|]. split; [by eapply reached_scratch|].
  unfold scratch in Heq. injection Heq as _ _ _ -> _ _. lia.
Qed.

Lemma cost_step_relax_edge cur e g q g' q' :
  AStar.relax_edge h goal cur e (g, q) = Some (g', q') -> cost_step g g'.
Proof.
  intros Hr.
  apply relax_edge_inv in Hr as (sv & Hsv &
    [(-> & -> & _)|(Hck & cv & gv & _ & _ & Hcase & -> & ->)]); [apply cost_step_refl|].
  intros id v Hv Hreach. destruct (decide (id = dst_ e)) as [->|Hne].
  - rewrite Hsv in Hv. injection Hv as <-.
    eexists. rewrite lookup_insert_eq. split; [done|]. split; [by right|]. simpl.
    destruct Hreach as [?|Hop]; [congruence|]. destruct Hcase; [congruence|lia].
  - exists v. rewrite lookup_insert_ne by done. split; [done|]. split; [done|lia].
Qed.

Lemma cost_step_relax_edges cur es g q g' q' :
  AStar.relax_edges h goal cur es (g, q) = Some (g', q') -> cost_step g g'.
Proof.
  revert g q. induction es as [|e es IH]; intros g q; simpl.
  - intros [= <- <-]. apply cost_step_refl.
  - destruct (AStar.relax_edge h goal cur e (g, q)) as [[g1 q1]|] eqn:E; [|done]. simpl.
    intros Hr. eapply cost_step_trans; [by eapply cost_step_relax_edge|by eapply IH].
Qed.

Lemma cost_step_mark g cur cv :
  g !! cur = Some cv -> cost_step g (<[cur := mark_checked cv]> g).
Proof.
  intros Hcv id v Hv Hr. destruct (decide (id = cur)) as [->|Hne].
  - rewrite Hcv in Hv. injection Hv as <-. eexists. rewrite lookup_insert_eq.
    split; [done|]. split; [by left|simpl; lia].
  - exists v. rewrite lookup_insert_ne by done. split; [done|]. split; [done|lia].
Qed.

Lemma cost_step_search_iter g q g' q' :
  AStar.search_iter tie h goal (g, q) = Some (inl (g', q')) -> cost_step g g'.
Proof.
  intros Hit.
  apply search_iter_inv in Hit
    as (cur & i & p & cv & Hi & Hmin & Hcv &
        [(Hck & [= -> ->])|[(Hck & _ & [=])|(Hck & Hne & [g1 q1] & Hrel & [= -> ->])]]).
  - apply cost_step_refl.
  - eapply cost_step_trans; [by apply cost_step_mark|by eapply cost_step_relax_edges].
Qed.

Lemma add_neighbours_old (s : State) nbrs g id v :
  g !! id = Some v ->
  ∃ v', AStar.add_neighbours s nbrs g !! id = Some v' ∧ scratch v' = scratch v ∧
    state_ v' = state_ v.
Proof.
  revert g v. induction nbrs as [|[b c] nbrs IH]; intros g v Hv; simpl.
  - by exists v.
  - destruct (AddEdge_lookup_old s b c g id v Hv) as (v1 & Hv1 & Hsc1 & Hst1 & _).
    destruct (IH _ v1 Hv1) as (v' & Hv' & Hsc' & Hst').
    exists v'. split; [done|]. split; congruence.
Qed.

Lemma cost_step_inc_iter (nb : State -> list (State * Z)) g q calls g' q' calls' :
  AStar.inc_iter tie nb h goal (g, q, calls) = Some (inl (g', q', calls')) -> cost_step g g'.
Proof.
  intros Hit.
  apply inc_iter_inv in Hit
    as (cur & i & p & cv & Hi & Hmin & Hcv &
        [(Hck & [= -> -> ->])|[(Hck & _ & [=])|
         (Hck & Hne & cv2 & g3 & q3 & Hcv2 & Hrel & [= -> -> ->])]]).
  - apply cost_step_refl.
  - eapply cost_step_trans; [by apply cost_step_mark|].
    eapply cost_step_trans; [|by eapply cost_step_relax_edges].
    apply cost_step_scratch. intros id v Hv.
    destruct (add_neighbours_old (state_ cv) (nb (state_ cv)) _ id v Hv) as (v' & ? & ? & _).
    by exists v'.
Qed.

(** X9: While a vertex is on the open list its g-cost only goes down, and once it
    is expanded it stays: between a loop state of [PerformSearch] or of
    [IncSearch] and any later loop state of the same run, a vertex that had been
    reached is still reached and its g-cost has not grown. *)
Theorem g_cost_never_grows :
  (∀ st st', search_steps tie h goal st st' -> cost_step st.1 st'.1) ∧
  (∀ nb st st', inc_steps tie nb h goal st st' -> cost_step st.1.1 st'.1.1).
Proof.
  split.
  - induction 1 as [st|[g q] [g1 q1] st2 Hit _ IH]; [apply cost_step_refl|].
    eapply cost_step_trans; [by eapply cost_step_search_iter|done].
  - intros nb. induction 1 as [st|[[g q] c] [[g1 q1] c1] st2 Hit _ IH]; [apply cost_step_refl|].
    eapply cost_step_trans; [by eapply cost_step_inc_iter|done].
Qed.

Lemma search_steps_measure (st st' : Graph State * list (Z * Z)) :
  search_steps tie h goal st st' ->
  (pending_work st'.1 + length st'.2 ≤ pending_work st.1 + length st.2)%nat.
Proof.
  induction 1 as [st|[g q] [g1 q1] st2 Hit _ IH]; [done|].
  pose proof (search_iter_measure tie h goal g q g1 q1 Hit). simpl in *. lia.
Qed.

(** X10: From a graph with clear flags, the open list of [PerformSearch] never
    holds more entries than the graph has edges, plus one: a vertex may be on it
    several times, but each edge puts at most one entry. *)
Theorem open_list_bounded g start st :
  flags_clear g ->
  search_steps tie h goal (AStar.seed g start) st ->
  Z.of_nat (PriorityQueue.size st.2) ≤ GetGraphEdgeNumber g + 1.
Proof.
  intros Hclear Hst. apply search_steps_measure in Hst.
  rewrite pending_work_seed in Hst by (intros id v Hv; by destruct (Hclear id v Hv)).
  unfold AStar.seed, PriorityQueue.put in Hst. simpl in Hst.
  unfold PriorityQueue.size, GetGraphEdgeNumber. lia.
Qed.

End CostsAlongRun.

(** ** The cost fields of the vertices a search has reached *)

Section CostBooks.
Context {State : Type} `{StateIndexer State}.
Variable tie : list (Z * Z) -> nat.
Variable h : State -> State -> Z.
Variables start goal : Z.
Implicit Types (g : Graph State) (q : list (Z * Z)).

Lemma costs_booked_insert g id (v v' : Vertex State) :
  costs_booked h start goal g -> g !! id = Some v -> topology v' = topology v ->
  (id ≠ start -> reached v' ->
     h_at g h goal id = Some (h_cost_ v') ∧
     f_cost_ v' = Transition_add (g_cost_ v') (h_cost_ v')) ->
  costs_booked h start goal (<[id := v']> g).
Proof.
  intros Hb Hv Ht Hnew j u Hu Hj Hr.
  assert (Htop : same_topology g (<[id := v']> g)).
  { by apply (same_topology_insert g g id v). }
  rewrite (h_at_topology g _ h goal j Htop).
  rewrite lookup_insert in Hu. case_decide; [|by apply (Hb j u)].
  subst j. injection Hu as <-. by apply Hnew.
Qed.

Lemma costs_booked_relax_edge cur e g q g' q' :
  costs_booked h start goal g ->
  AStar.relax_edge h goal cur e (g, q) = Some (g', q') -> costs_booked h start goal g'.
Proof.
  intros Hb Hr.
  apply relax_edge_inv in Hr as (sv & Hsv &
    [(-> & -> & _)|(Hck & cv & gv & _ & Hgv & _ & -> & ->)]); [done|].
  apply (costs_booked_insert g (dst_ e) sv); [done..|].
  intros _ _. simpl. split; [by apply h_at_lookup|done].
Qed.

Lemma costs_booked_relax_edges cur es g q g' q' :
  costs_booked h start goal g ->
  AStar.relax_edges h goal cur es (g, q) = Some (g', q') -> costs_booked h start goal g'.
Proof.
  revert g q. induction es as [|e es IH]; intros g q Hb; simpl.
  - by intros [= <- <-].
  - destruct (AStar.relax_edge h goal cur e (g, q)) as [[g1 q1]|] eqn:E; [|done]. simpl.
    intros Hr. eapply IH; [|exact Hr]. by eapply costs_booked_relax_edge.
Qed.

Lemma costs_booked_search_iter g0 c g q g' q' :
  search_inv g0 h start goal c [] g q -> costs_booked h start goal g ->
  AStar.search_iter tie h goal (g, q) = Some (inl (g', q')) -> costs_booked h start goal g'.
Proof.
  intros I Hb Hit.
  apply search_iter_inv in Hit
    as (cur & i & p & cv & Hi & Hmin & Hcv &
        [(Hck & [= -> ->])|[(Hck & _ & [=])|(Hck & Hne & [g1 q1] & Hrel & [= -> ->])]]);
    [done|].
  eapply costs_booked_relax_edges; [|exact Hrel].
  apply (costs_booked_insert g cur cv); [done..|].
  intros Hns _. simpl. apply (Hb cur cv Hcv Hns).
  destruct (inv_queue _ _ _ _ _ _ _ _ I p cur) as (v & Hv & [?|[Hop _]]);
    [by eapply list_elem_of_lookup_2|congruence|].
  right. congruence.
Qed.

(** X11: In the store that [Search] leaves on a well-formed graph, every vertex
    other than the start that the search has reached holds the heuristic value
    of its state for the goal state in [h_cost_], and [f_cost_ = g_cost_ +
    h_cost_], the sum of [Transition]. *)
Theorem Search_books_costs g :
  graph_wf g ->
  ∃ g' path, AStar.Search tie g start goal h = Some (g', path) ∧
    costs_booked h start goal g'.
Proof.
  intros Hwf.
  destruct (Search_outcome tie h (costs_booked h start goal) g start goal Hwf)
    as (g' & path & Hs & Hout).
  { intros id v Hv Hne [Hr|Hr]; exfalso; rewrite lookup_seed, decide_False in Hv by done;
      apply Reset_clear in Hv as [? ?]; congruence. }
  { intros g1 q1 g2 q2 I1 Hb1 Hit. by eapply costs_booked_search_iter. }
  exists g', path. split; [done|].
  destruct Hout as [(_ & -> & _)|(_ & _ & _ & Hb & _)]; [|done].
  intros id v Hv _ [Hr|Hr]; apply Reset_clear in Hv as [? ?]; congruence.
Qed.

End CostBooks.

(** ** What a search reads of the fields an earlier search has left *)

Section StaleFields.
Context {State : Type} `{StateIndexer State}.
Variable tie : list (Z * Z) -> nat.
Variable h : State -> State -> Z.
Variables start goal : Z.
Implicit Types (g : Graph State) (q : list (Z * Z)).

Lemma stale_lookup g1 g2 q id v1 :
  stale_sim start g1 g2 q -> g1 !! id = Some v1 ->
  ∃ v2, g2 !! id = Some v2 ∧ topology v2 = topology v1 ∧
    is_checked_ v1 = is_checked_ v2 ∧ is_in_openlist_ v1 = is_in_openlist_ v2 ∧
    (reached v1 ->
       g_cost_ v1 = g_cost_ v2 ∧ (id ≠ start -> search_parent_ v1 = search_parent_ v2)).
Proof.
  intros [Ht Hf Hq] Hv1.
  destruct (same_topology_lookup g1 g2 id v1 Ht Hv1) as (v2 & Hv2 & Htop).
  exists v2. split; [done|]. split; [done|]. by apply (Hf id).
Qed.

(** Both stores updated at one vertex, in a way the search cannot tell
    apart. *)
Lemma stale_insert g1 g2 q q' id (v1 v2 v1' v2' : Vertex State) :
  stale_sim start g1 g2 q -> g1 !! id = Some v1 -> g2 !! id = Some v2 ->
  topology v1' = topology v1 -> topology v2' = topology v2 ->
  is_checked_ v1' = is_checked_ v2' -> is_in_openlist_ v1' = is_in_openlist_ v2' ->
  g_cost_ v1' = g_cost_ v2' -> (id ≠ start -> search_parent_ v1' = search_parent_ v2') ->
  (reached v1 -> reached v1') ->
  (∀ p x, (p, x) ∈ q' -> (p, x) ∈ q ∨ (x = id ∧ reached v1')) ->
  stale_sim start (<[id := v1']> g1) (<[id := v2']> g2) q'.
Proof.
  intros [Ht Hf Hq] Hv1 Hv2 Ht1 Ht2 Hck Hop Hg Hp Hkeep Hq'. split.
  - intros j. rewrite !lookup_insert. case_decide; [subst j|apply Ht].
    simpl. pose proof (Ht id) as Hid. rewrite Hv1, Hv2 in Hid. simpl in Hid. congruence.
  - intros j u1 u2. rewrite !lookup_insert. case_decide; [subst j|apply Hf].
    intros [= <-] [= <-]. done.
  - intros p x Hin. destruct (Hq' p x Hin) as [Hold|[-> Hr]].
    + destruct (Hq p x Hold) as (u & Hu & Hur).
      destruct (decide (x = id)) as [->|Hne].
      * rewrite Hv1 in Hu. injection Hu as <-. exists v1'.
        rewrite lookup_insert_eq. split; [done|]. by apply Hkeep.
      * exists u. by rewrite lookup_insert_ne.
    + exists v1'. by rewrite lookup_insert_eq.
Qed.

Lemma stale_relax_edge cur e g1 g2 q g1' q' :
  stale_sim start g1 g2 q ->
  (∃ cv1, g1 !! cur = Some cv1 ∧ reached cv1) ->
  AStar.relax_edge h goal cur e (g1, q) = Some (g1', q') ->
  ∃ g2', AStar.relax_edge h goal cur e (g2, q) = Some (g2', q') ∧
    stale_sim start g1' g2' q'.
Proof.
  intros S (cv1 & Hcv1 & Hcr) Hr. unfold AStar.relax_edge in *.
  destruct (g1 !! dst_ e) as [sv1|] eqn:Hsv1; [|done]. simpl in Hr.
  destruct (stale_lookup g1 g2 q _ sv1 S Hsv1) as (sv2 & Hsv2 & Hts & Hck & Hop & Hsg).
  rewrite Hsv2. simpl. rewrite <- Hck.
  destruct (is_checked_ sv1) eqn:Hck1.
  { injection Hr as <- <-. by exists g2. }
  rewrite Hcv1 in Hr. simpl in Hr.
  destruct (stale_lookup g1 g2 q _ cv1 S Hcv1) as (cv2 & Hcv2 & Htc & _ & _ & Hcg).
  destruct (Hcg Hcr) as [Hcg' _].
  rewrite Hcv2. simpl. rewrite <- Hcg', <- Hop.
  assert (Htest : negb (is_in_openlist_ sv1)
                  || (Transition_add (g_cost_ cv1) (cost_ e) <? g_cost_ sv1)
                  = negb (is_in_openlist_ sv1)
                    || (Transition_add (g_cost_ cv1) (cost_ e) <? g_cost_ sv2)).
  { destruct (is_in_openlist_ sv1) eqn:Hop1; [|done]. simpl.
    destruct (Hsg (or_intror Hop1)) as [-> _]. done. }
  rewrite <- Htest.
  destruct (negb (is_in_openlist_ sv1)
            || (Transition_add (g_cost_ cv1) (cost_ e) <? g_cost_ sv1)).
  2: { injection Hr as <- <-. by exists g2. }
  destruct (g1 !! goal) as [gv1|] eqn:Hgv1; [|done]. simpl in Hr.
  destruct (stale_lookup g1 g2 q _ gv1 S Hgv1) as (gv2 & Hgv2 & Htg & _).
  rewrite Hgv2. simpl. injection Hr as <- <-.
  assert (Hs : state_ sv2 = state_ sv1).
  { unfold topology in Hts. by injection Hts. }
  assert (Hsg2 : state_ gv2 = state_ gv1).
  { unfold topology in Htg. by injection Htg. }
  rewrite Hs, Hsg2. eexists. split; [done|].
  apply (stale_insert g1 g2 q _ (dst_ e) sv1 sv2); try done.
  - simpl. congruence.
  - intros _. by right.
  - intros p x [Hin| [= -> ->]]%elem_of_put; [by left|].
    right. split; [done|]. by right.
Qed.

Lemma stale_relax_edges cur es g1 g2 q g1' q' :
  stale_sim start g1 g2 q ->
  (∃ cv1, g1 !! cur = Some cv1 ∧ reached cv1) ->
  AStar.relax_edges h goal cur es (g1, q) = Some (g1', q') ->
  ∃ g2', AStar.relax_edges h goal cur es (g2, q) = Some (g2', q') ∧
    stale_sim start g1' g2' q'.
Proof.
  revert g1 g2 q. induction es as [|e es IH]; intros g1 g2 q S Hcur; simpl.
  - intros [= <- <-]. by exists g2.
  - destruct (AStar.relax_edge h goal cur e (g1, q)) as [[ga qa]|] eqn:E; [|done]. simpl.
    intros Hr.
    destruct (stale_relax_edge cur e g1 g2 q ga qa S Hcur E) as (gb & -> & Sa). simpl.
    apply (IH ga gb qa Sa); [|done].
    destruct Hcur as (cv1 & Hcv1 & Hcr).
    destruct (cost_step_relax_edge h goal cur e g1 q ga qa E cur cv1 Hcv1 Hcr)
      as (cv' & ? & ? & _).
    by exists cv'.
Qed.

(** The two stores go through a pass of the loop alike. *)
Lemma stale_search_iter g1 g2 q r1 :
  stale_sim start g1 g2 q ->
  AStar.search_iter tie h goal (g1, q) = Some r1 ->
  match r1 with
  | inl (g1', q') =>
      ∃ g2', AStar.search_iter tie h goal (g2, q) = Some (inl (g2', q')) ∧
        stale_sim start g1' g2' q'
  | inr g1' => g1' = g1 ∧ AStar.search_iter tie h goal (g2, q) = Some (inr g2)
  end.
Proof.
  intros S Hit. unfold AStar.search_iter in *.
  destruct (PriorityQueue.get tie q) as [[cur q1]|] eqn:Hget; [|done]. simpl in *.
  apply get_spec in Hget as (i & p & Hi & -> & Hmin).
  destruct (g1 !! cur) as [cv1|] eqn:Hcv1; [|done]. simpl in Hit.
  destruct (stale_lookup g1 g2 q _ cv1 S Hcv1) as (cv2 & Hcv2 & Htc & Hck & Hop & Hcg).
  rewrite Hcv2. simpl. rewrite <- Hck.
  assert (Hsub : ∀ p' x, (p', x) ∈ delete i q -> (p', x) ∈ q).
  { intros p' x Hin. eapply elem_of_sublist; [exact Hin|apply sublist_delete]. }
  destruct (is_checked_ cv1) eqn:Hck1.
  { injection Hit as <-. exists g2. split; [done|].
    destruct S as [Ht Hf Hq]. split; [done..|]. intros p' x Hin. by apply (Hq p'), Hsub. }
  destruct (cur =? goal).
  { injection Hit as <-. done. }
  assert (Hcr : reached cv1).
  { destruct S as [_ _ Hq]. destruct (Hq p cur) as (u & Hu & Hur);
      [by eapply list_elem_of_lookup_2|]. congruence. }
  destruct (Hcg Hcr) as [Hg Hp].
  assert (Sm : stale_sim start (<[cur := mark_checked cv1]> g1)
                 (<[cur := mark_checked cv2]> g2) (delete i q)).
  { apply (stale_insert g1 g2 q _ cur cv1 cv2); try done.
    - intros _. by left.
    - intros p' x Hin. left. by apply Hsub. }
  destruct (AStar.relax_edges h goal cur (edges_to_ cv1) _) as [[g1' q']|] eqn:Hrel;
    [|done]. simpl in Hit. injection Hit as <-.
  destruct (stale_relax_edges cur (edges_to_ cv1) _ _ _ g1' q' Sm)
    as (g2' & Hrel2 & S'); [|exact Hrel|].
  { exists (mark_checked cv1). rewrite lookup_insert_eq. split; [done|]. by left. }
  assert (He : edges_to_ cv2 = edges_to_ cv1).
  { unfold topology in Htc. by injection Htc. }
  rewrite He, Hrel2. simpl. by exists g2'.
Qed.

Lemma stale_search_loop fuel g1 g2 q g1' found :
  stale_sim start g1 g2 q ->
  AStar.search_loop tie h goal fuel (g1, q) = Some (g1', found) ->
  ∃ g2' q', AStar.search_loop tie h goal fuel (g2, q) = Some (g2', found) ∧
    stale_sim start g1' g2' q'.
Proof.
  revert g1 g2 q. induction fuel as [|fuel IH]; intros g1 g2 q S.
  - simpl. destruct (PriorityQueue.empty q); [|done]. intros [= <- <-]. by exists g2, q.
  - rewrite !search_loop_unfold. cbn [fst snd].
    destruct (PriorityQueue.empty q). { intros [= <- <-]. by exists g2, q. }
    destruct (AStar.search_iter tie h goal (g1, q)) as [r1|] eqn:Hit; [|done]. simpl.
    pose proof (stale_search_iter g1 g2 q r1 S Hit) as Hsim.
    destruct r1 as [[ga qa]|ga].
    + destruct Hsim as (gb & -> & Sa). simpl. by apply IH.
    + destruct Hsim as (-> & ->). simpl. intros [= <- <-]. by exists g2, q.
Qed.

Lemma stale_seed g1 g2 :
  same_topology g1 g2 -> flags_clear g1 -> flags_clear g2 -> is_Some (g1 !! start) ->
  stale_sim start (AStar.seed g1 start).1 (AStar.seed g2 start).1 (AStar.seed g1 start).2.
Proof.
  intros Ht Hc1 Hc2 [sv1 Hsv1].
  destruct (same_topology_lookup g1 g2 start sv1 Ht Hsv1) as (sv2 & Hsv2 & Hts).
  split.
  - eapply same_topology_trans; [|apply same_topology_seed].
    eapply same_topology_trans; [|exact Ht].
    apply same_topology_sym, same_topology_seed.
  - intros id v1 v2. rewrite !lookup_seed. case_decide.
    + subst id. rewrite Hsv1, Hsv2. intros [= <-] [= <-]. simpl.
      destruct (Hc1 start sv1 Hsv1) as [-> _], (Hc2 start sv2 Hsv2) as [-> _]. done.
    + intros Hv1 Hv2. destruct (Hc1 id v1 Hv1) as [E1 E2], (Hc2 id v2 Hv2) as [-> ->].
      split; [done|]. split; [done|]. intros [?|?]; congruence.
  - intros p id [= -> ->]%list_elem_of_singleton.
    exists (seed_start sv1). rewrite lookup_seed, decide_True, Hsv1 by done.
    split; [done|]. by right.
Qed.

Lemma PerformSearch_stale_core g1 g2 :
  graph_wf g1 -> same_topology g1 g2 -> flags_clear g1 -> flags_clear g2 ->
  is_Some (g1 !! start) -> is_Some (g1 !! goal) ->
  ∃ g1' g2' path,
    AStar.PerformSearch tie g1 start goal h = Some (g1', path) ∧
    AStar.PerformSearch tie g2 start goal h = Some (g2', path).
Proof.
  intros Hwf Ht Hc1 Hc2 Hs Hg.
  destruct (PerformSearch_run tie h g1 start goal (fun _ => True))
    as (g1' & found & q1 & Hloop1 & Hrun1 & _ & I1 & Hfin1); [done..|].
  destruct (PerformSearch_run tie h g2 start goal (fun _ => True))
    as (g2x & found2 & q2 & Hloop2 & Hrun2 & _ & I2 & Hfin2); [| | | |done|done|].
  { by eapply graph_wf_same_topology. }
  { done. }
  { by apply (same_topology_is_Some g1 g2). }
  { by apply (same_topology_is_Some g1 g2). }
  set (F := (AStar.search_fuel g1 `max` AStar.search_fuel g2)%nat).
  apply (search_loop_more tie h goal _ F) in Hloop1; [|lia].
  apply (search_loop_more tie h goal _ F) in Hloop2; [|lia].
  pose proof (stale_seed g1 g2 Ht Hc1 Hc2 Hs) as S0.
  assert (Hq : (AStar.seed g2 start).2 = (AStar.seed g1 start).2) by done.
  destruct (AStar.seed g1 start) as [gs1 qs1], (AStar.seed g2 start) as [gs2 qs2].
  simpl in Hq, S0. subst qs2.
  destruct (stale_search_loop F gs1 gs2 qs1 g1' found S0 Hloop1) as (g2' & q' & Hl2 & S').
  rewrite Hloop2 in Hl2. injection Hl2 as -> ->.
  rewrite Hrun1, Hrun2. destruct found.
  - destruct Hfin1 as (i & p & gv & Hi & _ & Hgv & Hck).
    destruct (finish_found_simple h _ start goal g1' q1 i p gv I1 Hi Hgv Hck)
      as (path & Hfin & Hop & (c & Hw & _) & Hnd & Hch & Hps).
    exists g1', g2', path. split; [done|].
    assert (Hin2 : ∀ x, x ∈ GetStateIndex <$> path -> is_Some (g2' !! x)).
    { intros x Hx. apply (same_topology_is_Some g1' g2' x (stale_topo _ _ _ _ S')).
      apply (same_topology_is_Some _ g1' x (inv_topo _ _ _ _ _ _ _ _ I1)).
      by eapply walk_elem. }
    apply (finish_of_chain g2' start goal (GetStateIndex <$> path) path); [|done|done|].
    + apply (parent_chain_ext g1'); [done|].
      intros x xv Hx Hxs Hxv.
      destruct (stale_lookup g1' g2' q' x xv S' Hxv) as (xv' & Hxv' & _ & _ & _ & Hsame).
      exists xv'. split; [done|]. symmetry.
      apply Hsame; [|done].
      destruct (decide (x = goal)) as [->|Hxg].
      * rewrite Hgv in Hxv. injection Hxv as <-. by right.
      * destruct (inv_chain _ _ _ _ _ _ _ _ I1 goal gv Hgv (or_intror Hop))
          as (vs & Hch' & _ & _ & Hint).
        rewrite (parent_chain_unique _ _ _ _ _ Hch Hch') in Hx.
        destruct (Hint x Hx Hxg) as (xv2 & Hxv2 & Hxck).
        rewrite Hxv in Hxv2. injection Hxv2 as <-. by left.
    + rewrite <- Hps. symmetry. apply path_states_agree. intros x Hx.
      pose proof (stale_topo _ _ _ _ S' x) as Hid.
      destruct (g1' !! x) as [a|], (g2' !! x) as [b|]; simpl in *; try done.
      unfold topology in Hid. injection Hid as Hid _ _ _. by rewrite Hid.
  - exists g1', g2', []. done.
Qed.

(** X12: A search reads no cost field and no parent link that it has not
    written itself.  [PerformSearch] returns the same path on two stores with
    clear flags that hold the same vertices, states and edges, whatever their
    cost fields and parents; so the outcome of [Search] does not depend on what
    earlier searches have left in the vertices: on two stores of a well-formed
    graph that differ in search fields only, it returns the same path. *)
Theorem Search_ignores_stale_fields :
  (∀ g1 g2,
     graph_wf g1 -> same_topology g1 g2 -> flags_clear g1 -> flags_clear g2 ->
     is_Some (g1 !! start) -> is_Some (g1 !! goal) ->
     ∃ g1' g2' path,
       AStar.PerformSearch tie g1 start goal h = Some (g1', path) ∧
       AStar.PerformSearch tie g2 start goal h = Some (g2', path)) ∧
  (∀ g1 g2,
     graph_wf g1 -> same_topology g1 g2 ->
     ∃ g1' g2' path,
       AStar.Search tie g1 start goal h = Some (g1', path) ∧
       AStar.Search tie g2 start goal h = Some (g2', path)).
Proof.
  split; [apply PerformSearch_stale_core|].
  intros g1 g2 Hwf Ht. unfold AStar.Search, FindVertex. rewrite !lookup_Reset.
  pose proof (Ht start) as Hs. pose proof (Ht goal) as Hg.
  destruct (g1 !! start) as [sv1|] eqn:Hsv1, (g2 !! start) as [sv2|] eqn:Hsv2;
    simpl in Hs; try done; simpl.
  2: { by eexists _, _, []. }
  destruct (g1 !! goal) as [gv1|] eqn:Hgv1, (g2 !! goal) as [gv2|] eqn:Hgv2;
    simpl in Hg; try done; simpl.
  2: { by eexists _, _, []. }
  apply PerformSearch_stale_core.
  - by apply graph_wf_Reset.
  - eapply same_topology_trans; [|apply same_topology_Reset].
    eapply same_topology_trans; [|exact Ht].
    apply same_topology_sym, same_topology_Reset.
  - intros id v. apply Reset_clear.
  - intros id v. apply Reset_clear.
  - rewrite lookup_Reset, Hsv1. eauto.
  - rewrite lookup_Reset, Hgv1. eauto.
Qed.

End StaleFields.

(** ** [IncSearch]: one call of the neighbour function for each expanded vertex *)

Section IncCalls.
Context {State : Type} `{StateIndexer State}.
Variable tie : list (Z * Z) -> nat.
Variable h : State -> State -> Z.
Variable goal : Z.
Implicit Types (g : Graph State) (q : list (Z * Z)) (nb : State -> list (State * Z)).

(** A relaxation sets no [is_checked_] flag and clears none. *)
Lemma relax_edge_checked cur e g q g' q' id :
  AStar.relax_edge h goal cur e (g, q) = Some (g', q') ->
  is_checked_ <$> g' !! id = is_checked_ <$> g !! id.
Proof.
  intros Hr.
  apply relax_edge_inv in Hr as (sv & Hsv &
    [(-> & -> & _)|(Hck & cv & gv & _ & _ & _ & -> & ->)]); [done|].
  rewrite lookup_insert. case_decide; [subst id|done]. by rewrite Hsv.
Qed.

Lemma relax_edges_checked cur es g q g' q' id :
  AStar.relax_edges h goal cur es (g, q) = Some (g', q') ->
  is_checked_ <$> g' !! id = is_checked_ <$> g !! id.
Proof.
  revert g q. induction es as [|e es IH]; intros g q; simpl.
  - by intros [= <- <-].
  - destruct (AStar.relax_edge h goal cur e (g, q)) as [[g1 q1]|] eqn:E; [|done]. simpl.
    intros Hr. rewrite (IH _ _ Hr). by eapply relax_edge_checked.
Qed.

Lemma calls_inv_inc_iter nb g q calls g' q' calls' :
  keys_ok g -> calls_inv g calls ->
  AStar.inc_iter tie nb h goal (g, q, calls) = Some (inl (g', q', calls')) ->
  calls_inv g' calls'.
Proof.
  intros Hk (Hnd & Hcalled & Hchecked) Hit.
  apply inc_iter_inv in Hit
    as (cur & i & p & cv & Hi & Hmin & Hcv &
        [(Hck & [= -> -> ->])|[(Hck & _ & [=])|
         (Hck & Hne & cv2 & g3 & q3 & Hcv2 & Hrel & [= -> -> ->])]]); [done|].
  set (g1 := <[cur := mark_checked cv]> g) in *.
  set (g2 := AStar.add_neighbours (state_ cv) (nb (state_ cv)) g1) in *.
  assert (Hkey : GetStateIndex (state_ cv) = cur) by by apply (Hk cur cv).
  assert (Hfresh : ∀ s, s ∈ calls -> GetStateIndex s ≠ cur).
  { intros s Hs Heq. destruct (Hcalled s Hs) as (v & Hv & _ & Hvck).
    rewrite Heq, Hcv in Hv. injection Hv as <-. congruence. }
  assert (Hfwd : ∀ id v, g1 !! id = Some v -> is_checked_ v = true ->
            ∃ v3, g3 !! id = Some v3 ∧ state_ v3 = state_ v ∧ is_checked_ v3 = true).
  { intros id v Hv Hvck.
    destruct (add_neighbours_old (state_ cv) (nb (state_ cv)) g1 id v Hv)
      as (v2 & Hv2 & Hsc2 & Hst2).
    fold g2 in Hv2.
    destruct (same_topology_lookup g2 g3 id v2 (relax_edges_topology h _ _ _ _ _ _ _ Hrel) Hv2)
      as (v3 & Hv3 & Ht3).
    exists v3. split; [done|]. split.
    - unfold topology in Ht3. injection Ht3 as -> _ _ _. done.
    - pose proof (relax_edges_checked _ _ _ _ _ _ id Hrel) as Hc.
      rewrite Hv3, Hv2 in Hc. simpl in Hc. injection Hc as ->.
      unfold scratch in Hsc2. injection Hsc2 as -> _ _ _ _ _. done. }
  assert (Hbwd : ∀ id v3, g3 !! id = Some v3 -> is_checked_ v3 = true ->
            ∃ v, g1 !! id = Some v ∧ state_ v = state_ v3 ∧ is_checked_ v = true).
  { intros id v3 Hv3 Hvck.
    destruct (same_topology_lookup g3 g2 id v3
                (same_topology_sym _ _ (relax_edges_topology h _ _ _ _ _ _ _ Hrel)) Hv3)
      as (v2 & Hv2 & Ht2).
    pose proof (relax_edges_checked _ _ _ _ _ _ id Hrel) as Hc.
    rewrite Hv3, Hv2 in Hc. simpl in Hc. injection Hc as Hc.
    destruct (add_neighbours_spec (state_ cv) (nb (state_ cv)) g1) as (Hold & Hnew & _).
    { rewrite Hkey. unfold g1. rewrite lookup_insert_eq. eauto. }
    destruct (g1 !! id) as [v|] eqn:Hv.
    - destruct (Hold id v Hv) as (v2' & Hv2' & Hsc & Hst & _).
      fold g2 in Hv2'. rewrite Hv2 in Hv2'. injection Hv2' as <-.
      exists v. split; [done|]. split.
      + unfold topology in Ht2. injection Ht2 as Hs2 _ _ _. congruence.
      + unfold scratch in Hsc. injection Hsc as Hsc _ _ _ _ _. congruence.
    - destruct (Hnew id v2 Hv2 Hv) as (Hsc & _).
      unfold scratch in Hsc. injection Hsc as Hsc _ _ _ _ _. congruence. }
  split; [|split].
  - csimpl. apply NoDup_cons. split; [|done].
    intros (s & Hs & Hin)%list_elem_of_fmap. apply (Hfresh s Hin). congruence.
  - intros s [->|Hs]%elem_of_cons.
    + rewrite Hkey. destruct (Hfwd cur (mark_checked cv)) as (v3 & ? & ? & ?); [|done|].
      { unfold g1. by rewrite lookup_insert_eq. }
      by exists v3.
    + destruct (Hcalled s Hs) as (v & Hv & Hst & Hvck).
      destruct (Hfwd (GetStateIndex s) v) as (v3 & ? & ? & ?); [|done|].
      { unfold g1. rewrite lookup_insert_ne; [done|]. intros Heq. by apply (Hfresh s Hs). }
      exists v3. split; [done|]. split; [congruence|done].
  - intros id v3 Hv3 Hvck. destruct (Hbwd id v3 Hv3 Hvck) as (v & Hv & Hst & Hc).
    unfold g1 in Hv. rewrite lookup_insert in Hv. case_decide.
    + injection Hv as <-. simpl in Hst. rewrite <- Hst. left.
    + right. rewrite <- Hst. by apply (Hchecked id v).
Qed.

Lemma inc_iter_keys_ok nb g q calls g' q' calls' :
  keys_ok g ->
  AStar.inc_iter tie nb h goal (g, q, calls) = Some (inl (g', q', calls')) -> keys_ok g'.
Proof.
  intros Hk Hit.
  apply inc_iter_inv in Hit
    as (cur & i & p & cv & Hi & Hmin & Hcv &
        [(Hck & [= -> -> ->])|[(Hck & _ & [=])|
         (Hck & Hne & cv2 & g3 & q3 & Hcv2 & Hrel & [= -> -> ->])]]); [done|].
  eapply keys_ok_topology; [by eapply relax_edges_topology|].
  apply keys_ok_add_neighbours. by eapply keys_ok_insert.
Qed.

Lemma calls_inv_steps nb (st st' : Graph State * list (Z * Z) * list State) :
  inc_steps tie nb h goal st st' ->
  keys_ok st.1.1 -> calls_inv st.1.1 st.2 -> calls_inv st'.1.1 st'.2.
Proof.
  induction 1 as [st|[[g q] calls] [[g1 q1] calls1] st2 Hit _ IH]; [done|].
  simpl. intros Hk Hc. apply IH; simpl.
  - by eapply inc_iter_keys_ok.
  - by eapply calls_inv_inc_iter.
Qed.

End IncCalls.

Section IncRun.
Context {State : Type} `{StateIndexer State}.
Variable tie : list (Z * Z) -> nat.
Variable h : State -> State -> Z.
Implicit Types (g : Graph State) (q : list (Z * Z)) (nb : State -> list (State * Z)).

Lemma inc_start_unchecked sstate gstate id v :
  (inc_start sstate gstate).1.1 !! id = Some v -> is_checked_ v = false.
Proof.
  unfold inc_start. cbn [fst]. rewrite lookup_seed. case_decide.
  - destruct (_ !! GetStateIndex sstate) as [sv|] eqn:Hsv; [|done]. intros [= <-].
    by apply lookup_inc_start in Hsv as [(_ & ->)|(_ & _ & ->)].
  - by intros [(_ & ->)|(_ & _ & ->)]%lookup_inc_start.
Qed.

(** X13: In a run of [IncSearch], the neighbour function is called once for each
    vertex that is expanded, on the state of that vertex, and for no other
    state: no two recorded calls are on states of one identity, each recorded
    state is the state of a vertex that the graph built holds as expanded, and
    the state of every expanded vertex is recorded. *)
Theorem IncSearch_calls_once_per_vertex fuel sstate gstate nb g path calls :
  AStar.IncSearch_run tie fuel sstate gstate nb h = Some (g, path, calls) ->
  calls_inv g calls.
Proof.
  rewrite IncSearch_run_unfold. intros Hres.
  destruct (AStar.inc_loop _ _ _ _ _ _) as [[[g' calls'] found]|] eqn:Hloop; [|done].
  simpl in Hres.
  destruct (AStar.finish _ _ _ _) as [[g'' path']|] eqn:Hfin; [|done].
  simpl in Hres. injection Hres as <- <- <-.
  apply finish_store in Hfin as ->.
  destruct (inc_loop_steps tie h _ nb fuel _ _ _ _ Hloop) as [q' Hst].
  apply (calls_inv_steps tie h _ nb _ _ Hst).
  - apply keys_ok_inc_start.
  - split; [constructor|]. split; [by intros s ?%elem_of_nil|].
    intros id v Hv Hck. apply inc_start_unchecked in Hv. congruence.
Qed.

(** X14: When the start state and the goal state have one identity, [IncSearch]
    returns the one-state path of the start state (the state that [AddVertex]
    stored first) without calling the neighbour function. *)
Theorem IncSearch_same_identity fuel sstate gstate nb :
  GetStateIndex sstate = GetStateIndex gstate ->
  ∃ g, AStar.IncSearch_run tie (S fuel) sstate gstate nb h = Some (g, [sstate], []) ∧
    AStar.IncSearch tie (S fuel) sstate gstate nb h = Some [sstate].
Proof.
  intros Hid.
  assert (Hrun : ∃ g, AStar.IncSearch_run tie (S fuel) sstate gstate nb h
                      = Some (g, [sstate], [])).
  { unfold AStar.IncSearch_run, AddVertex, ObtainVertexFromVertexMap.
    rewrite lookup_empty, <- Hid, lookup_insert_eq.
    unfold AStar.seed, PriorityQueue.put. cbn [app].
    cbn [AStar.inc_loop fst snd PriorityQueue.empty].
    unfold AStar.inc_iter. rewrite get_singleton. simpl.
    rewrite lookup_alter_eq, lookup_insert_eq. simpl. rewrite Z.eqb_refl. simpl.
    unfold AStar.ReconstructPath. rewrite reconstruct_loop_start. simpl.
    rewrite lookup_alter_eq, lookup_insert_eq. simpl. eauto. }
  destruct Hrun as [g Hrun]. exists g. split; [done|].
  unfold AStar.IncSearch. by rewrite Hrun.
Qed.

End IncRun.

(** ** Graphs built by the mutators *)

Section Built.
Context {State : Type} `{StateIndexer State}.
Variable tie : list (Z * Z) -> nat.
Variable h : State -> State -> Z.
Implicit Types (g : Graph State).

Lemma built_graph_wf g : built g -> graph_wf g.
Proof.
  induction 1 as [|s g _ IH|a b c g _ IH|id g _ IH].
  - apply graph_wf_empty.
  - by apply graph_wf_AddVertex.
  - by apply graph_wf_AddEdge.
  - by apply graph_wf_RemoveVertex.
Qed.

(** X15: Every graph that calls of [AddVertex], [AddEdge] and [RemoveVertex] build
    from the empty graph keeps the invariant of the container (each vertex is
    stored under the identity of its state, owns at most one edge to a
    destination, and every edge leads to a vertex of the graph that lists its
    source as a predecessor); [Search] returns on it for any two identities, and
    the graph it leaves keeps the invariant too. *)
Theorem Search_returns_on_built_graphs g start goal :
  built g ->
  graph_wf g ∧
  ∃ g' path, AStar.Search tie g start goal h = Some (g', path) ∧ graph_wf g'.
Proof.
  intros Hb. pose proof (built_graph_wf g Hb) as Hwf. split; [done|].
  destruct (Search_returns tie h g start goal Hwf) as (g' & path & Hs & _).
  exists g', path. split; [done|].
  apply (graph_wf_same_topology g); [|done].
  revert Hs. unfold AStar.Search, FindVertex.
  destruct (ResetAllVertices g !! start).
  2: { intros [= <- _]. apply same_topology_Reset. }
  destruct (ResetAllVertices g !! goal).
  2: { intros [= <- _]. apply same_topology_Reset. }
  intros Hp. eapply same_topology_trans; [apply same_topology_Reset|].
  by eapply PerformSearch_topology.
Qed.

End Built.

(** ** [IncSearch] on the graph of a neighbour function: the shortest path *)

Section IncShortest.
Context {State : Type} `{StateIndexer State}.
Variable tie : list (Z * Z) -> nat.
Variable h : State -> State -> Z.
Implicit Types (g : Graph State) (q : list (Z * Z)) (nb : State -> list (State * Z)).

Lemma walk_step g u vs v c i a b :
  walk g u vs v c -> vs !! i = Some a -> vs !! S i = Some b -> ∃ c1, edge_in g a b c1.
Proof.
  intros Hw. revert i. induction Hw as [u Hu|u w vs v c1 c2 He Hw IH]; intros i Ha Hb.
  - by destruct i.
  - destruct (walk_first _ _ _ _ _ Hw) as [_ [tl ->]].
    destruct i as [|i]; simpl in *.
    + injection Ha as <-. injection Hb as <-. eauto.
    + by eapply IH.
Qed.

Lemma path_states_stored g (path : list State) :
  AStar.path_states g (GetStateIndex <$> path) = Some path ->
  Forall (fun s => state_ <$> g !! GetStateIndex s = Some s) path.
Proof.
  intros Hps. apply Forall_lookup. intros k s Hk.
  unfold AStar.path_states in Hps. apply mapM_Some in Hps.
  assert (Hk' : (GetStateIndex <$> path) !! k = Some (GetStateIndex s)).
  { by rewrite list_lookup_fmap, Hk. }
  destruct (Forall2_lookup_l _ _ _ _ _ Hps Hk') as (s' & Hs' & Hst).
  rewrite Hk in Hs'. by injection Hs' as <-.
Qed.

(** X16: Where a well-formed graph [G] is the graph of the neighbour function and
    holds the start and the goal state, with non-negative costs, a consistent
    heuristic and exact sums, and the goal can be reached: [IncSearch], given
    fuel for the edges of [G], returns a path that is a walk of [G] from the
    start to the goal of least cost, and each state of the path after the
    first is a neighbour that the neighbour function lists for the state
    before it. *)
Theorem IncSearch_shortest_path G sstate gstate nb fuel :
  graph_wf G -> prebuilt nb G ->
  state_ <$> G !! GetStateIndex sstate = Some sstate ->
  state_ <$> G !! GetStateIndex gstate = Some gstate ->
  nonneg_costs G -> consistent G h (GetStateIndex gstate) ->
  exact_costs G h (GetStateIndex sstate) (GetStateIndex gstate) ->
  reachable G (GetStateIndex sstate) (GetStateIndex gstate) ->
  (AStar.search_fuel G ≤ fuel)%nat ->
  ∃ path c, AStar.IncSearch tie fuel sstate gstate nb h = Some path ∧
    walk G (GetStateIndex sstate) (GetStateIndex <$> path) (GetStateIndex gstate) c ∧
    (∀ vs w, walk G (GetStateIndex sstate) vs (GetStateIndex gstate) w -> c ≤ w) ∧
    (∀ i s s', path !! i = Some s -> path !! S i = Some s' -> ∃ c', (s', c') ∈ nb s).
Proof.
  intros Hwf Hpre Hs Hg Hnn Hcons Hex Hreach Hfuel.
  destruct (IncSearch_matches_core tie h G sstate gstate nb fuel Hwf
              (prebuilt_prebuilt_off _ _ _ Hpre) Hs Hg Hfuel)
    as (gb & gi & path & calls & Hsearch & _ & Hinc & _).
  set (start := GetStateIndex sstate) in *. set (goal := GetStateIndex gstate) in *.
  set (g0 := (AStar.seed (ResetAllVertices G) start).1).
  assert (Htopo0 : same_topology G g0).
  { eapply same_topology_trans; [apply same_topology_Reset|apply same_topology_seed]. }
  pose proof (exact_costs_topology h _ _ start goal Htopo0 Hex) as Hex0.
  destruct (Search_outcome tie h (opt_inv g0 start) G start goal Hwf)
    as (g' & path' & Hs' & Hout).
  { intros u uv Huv Huck. exfalso. unfold g0 in Huv. rewrite lookup_seed in Huv.
    case_decide.
    - destruct (ResetAllVertices G !! start) eqn:E; [|done]. injection Huv as <-.
      apply Reset_clear in E as [E _]. simpl in Huck. congruence.
    - apply Reset_clear in Huv as [E _]. congruence. }
  { intros g1 q1 g2 q2 I1 Hopt1 Hit.
    eapply opt_inv_search_iter; [exact I1|exact Hopt1| | |exact Hex0|exact Hit].
    - by apply (nonneg_costs_topology G).
    - by apply (consistent_topology h G). }
  rewrite Hsearch in Hs'. injection Hs' as <- <-.
  destruct Hout as [([Hn|Hn] & _)|(_ & _ & Htopo & Hopt & q' & I' & Hfin)].
  { by rewrite Hn in Hs. }
  { by rewrite Hn in Hg. }
  destruct Hfin as [[-> ->]|(i & p & gv & Hi & Hmin & Hgv & Hck & Hop & (c & Hw & Hc)
                               & Hnd & Hch & Hps)].
  { exfalso. apply (exhausted_unreachable h _ start goal gb I').
    by apply (reachable_topology G). }
  assert (HwG : walk G start (GetStateIndex <$> path) goal (g_cost_ gv)).
  { rewrite (Hc Hex0). by eapply walk_topology; [apply same_topology_sym|]. }
  exists path, (g_cost_ gv). split; [done|]. split; [done|]. split.
  - intros vs w Hwalk.
    eapply (popped_optimal _ h start goal start gb q' i p goal gv I' Hopt); try done.
    + by apply (nonneg_costs_topology G).
    + by apply (consistent_topology h G).
    + by apply (walk_topology G).
  - assert (Hstored : Forall (fun s => state_ <$> G !! GetStateIndex s = Some s) path).
    { apply path_states_stored in Hps. eapply Forall_impl; [exact Hps|].
      intros s Hst. simpl in Hst. rewrite <- Hst.
      pose proof (inv_topo _ _ _ _ _ _ _ _ I' (GetStateIndex s)) as Hid.
      pose proof (Htopo (GetStateIndex s)) as Hid0.
      rewrite Hid0 in Hid.
      destruct (gb !! GetStateIndex s) as [a|], (G !! GetStateIndex s) as [b|];
        simpl in *; try done.
      unfold topology in Hid. injection Hid as Hid _ _ _. by rewrite Hid. }
    rewrite Forall_lookup in Hstored.
    intros k s s' Hk Hk'.
    destruct (walk_step G start _ goal _ k (GetStateIndex s) (GetStateIndex s') HwG)
      as (c1 & av & e & Hav & He & Hd & _).
    { by rewrite list_lookup_fmap, Hk. }
    { by rewrite list_lookup_fmap, Hk'. }
    pose proof (Hstored k s Hk) as Hst. rewrite Hav in Hst. simpl in Hst.
    injection Hst as Hst.
    destruct (Hpre _ av Hav) as [Hes Hnbs]. rewrite Hst in Hes, Hnbs.
    rewrite Hes in He. unfold edges_of_neighbours in He.
    apply fold_upsert_dst in He as [(e' & ?%elem_of_nil & _)|(sc & Hsc & Hdsc)]; [done|].
    rewrite Forall_forall in Hnbs. pose proof (Hnbs sc Hsc) as Hscst. simpl in Hscst.
    pose proof (Hstored (S k) s' Hk') as Hst'. simpl in Hst'.
    rewrite <- Hd, Hdsc, Hscst in Hst'. injection Hst' as <-.
    exists sc.2. by destruct sc.
Qed.

End IncShortest.

Section IncEmpty.
Context {State : Type} `{StateIndexer State}.
Variable tie : list (Z * Z) -> nat.
Variable h : State -> State -> Z.

(** X17: Where a well-formed graph [G] is the graph of the neighbour function and
    holds the start and the goal state, [IncSearch], given fuel for the edges
    of [G], returns, and the path it returns is empty exactly when the goal
    cannot be reached from the start in [G]. *)
Theorem IncSearch_empty_iff_unreachable G sstate gstate (nb : State -> list (State * Z)) fuel :
  graph_wf G -> prebuilt nb G ->
  state_ <$> G !! GetStateIndex sstate = Some sstate ->
  state_ <$> G !! GetStateIndex gstate = Some gstate ->
  (AStar.search_fuel G ≤ fuel)%nat ->
  ∃ path, AStar.IncSearch tie fuel sstate gstate nb h = Some path ∧
    (path = [] ↔ ¬ reachable G (GetStateIndex sstate) (GetStateIndex gstate)).
Proof.
  intros Hwf Hpre Hs Hg Hfuel.
  destruct (IncSearch_matches_core tie h G sstate gstate nb fuel Hwf
              (prebuilt_prebuilt_off _ _ _ Hpre) Hs Hg Hfuel)
    as (gb & gi & path & calls & Hsearch & _ & Hinc & _).
  destruct (Search_returns tie h G (GetStateIndex sstate) (GetStateIndex gstate) Hwf)
    as (g' & path' & Hs' & Hiff).
  rewrite Hsearch in Hs'. injection Hs' as <- <-.
  exists path. split; [done|]. rewrite Hiff. split; [|auto].
  intros [Hn|[Hn|Hn]]; [by rewrite Hn in Hs|by rewrite Hn in Hg|done].
Qed.

End IncEmpty.

(** ** What A* does not expand *)

Section WithinOptimum.
Context {State : Type} `{StateIndexer State}.
Variable tie : list (Z * Z) -> nat.
Variable h : State -> State -> Z.
Implicit Types (g : Graph State) (q : list (Z * Z)).

Lemma within_optimum_mark g0 start goal c g q i p cur cv :
  search_inv g0 h start goal c [] g q -> opt_inv g0 start g ->
  within_optimum g0 h start goal g ->
  nonneg_costs g0 -> consistent g0 h goal -> exact_costs g0 h start goal ->
  q !! i = Some (p, cur) -> (∀ x, x ∈ q -> p ≤ x.1) ->
  g !! cur = Some cv -> is_checked_ cv = false ->
  within_optimum g0 h start goal (<[cur := mark_checked cv]> g).
Proof.
  intros I Hopt Hwi Hnn Hcons Hex Hi Hmin Hcv Hck u uv hu hg vs w Huv Huck Hhu Hhg Hw.
  apply (lookup_insert_mark g cur cv u uv Hcv) in Huv
    as (v0 & Hv0 & _ & Hg & _ & [(-> & -> & ->)|(Hne & ->)]).
  2: { by eapply (Hwi u v0). }
  simpl.
  assert (Hin : (p, cur) ∈ q) by by eapply list_elem_of_lookup_2.
  destruct I as [Htopo Hwf Hsin Hgin Hgoal Hstart Hqueue Hfront Hchain Hrel Hpend].
  destruct (decide (cur = start)) as [->|Hcs].
  { destruct (Hstart cv Hcv) as [-> _].
    pose proof (walk_consistent g0 h goal start vs goal w hu hg Hcons Hgin Hw Hhu Hhg).
    lia. }
  assert (Hsck : ∃ sv, g !! start = Some sv ∧ is_checked_ sv = true).
  { apply (same_topology_is_Some g0 g start Htopo) in Hsin as [sv Hsv].
    exists sv. split; [done|].
    destruct (Hstart sv Hsv) as [_ [?|(_ & Hq & _)]]; [done|].
    rewrite Hq in Hin. apply list_elem_of_singleton in Hin. congruence. }
  destruct Hsck as (sv & Hsv & Hsvck).
  set (C := fun x : Z => match g !! x with Some v => is_checked_ v | None => false end).
  destruct (walk_border g0 C start vs goal w Hw) as
    (x & y & vs1 & vs2 & c1 & ce & c2 & Hx & Hy & H1 & Hxy & H2 & ->).
  { unfold C. by rewrite Hsv. }
  { unfold C. destruct (g !! goal) as [gv|] eqn:Hgv; [|done]. by apply Hgoal. }
  unfold C in Hx, Hy.
  destruct (g !! x) as [xv|] eqn:Hxv; [|done].
  pose proof (Hopt x xv Hxv Hx _ _ H1) as Hgx.
  destruct (edge_in_topology g0 g x y ce Htopo Hxy) as (xv' & e & Hxv' & He & Hde & Hce).
  rewrite Hxv in Hxv'. injection Hxv' as <-.
  destruct (Hrel x xv e Hxv Hx He) as [[_ ?%elem_of_nil]|(dv & Hdv & Hd)]; [done|].
  rewrite Hde in Hdv. rewrite Hdv in Hy.
  destruct Hd as [?|[Hdop Hdle]]; [congruence|]. specialize (Hdle Hex).
  destruct (Hfront y dv Hdv Hy Hdop) as [->|(hy & py & Hhy & Hyin & Hpy')]; [congruence|].
  specialize (Hpy' Hex).
  pose proof (Hmin _ Hyin) as Hpy. simpl in Hpy.
  destruct (Hqueue p cur Hin) as (cv' & Hcv' & Hcase).
  rewrite Hcv in Hcv'. injection Hcv' as <-.
  destruct Hcase as [?|(_ & [?|(hc & Hhc & Hpc)])]; [congruence|done|].
  specialize (Hpc Hex).
  rewrite Hhu in Hhc. injection Hhc as <-.
  pose proof (walk_consistent g0 h goal y vs2 goal c2 hy hg Hcons Hgin H2 Hhy Hhg).
  lia.
Qed.

Lemma within_optimum_relax_edge g0 start goal cur e g q g' q' :
  within_optimum g0 h start goal g ->
  AStar.relax_edge h goal cur e (g, q) = Some (g', q') ->
  within_optimum g0 h start goal g'.
Proof.
  intros Hwi Hr.
  apply relax_edge_inv in Hr as (sv & Hsv &
    [(-> & -> & _)|(Hsck & cv' & gv & _ & _ & _ & -> & ->)]); [done|].
  intros u uv hu hg vs w Huv Huck. rewrite lookup_insert in Huv. case_decide as Hd.
  - injection Huv as <-. simpl in Huck. congruence.
  - by eapply Hwi.
Qed.

Lemma within_optimum_relax_edges g0 start goal cur es g q g' q' :
  within_optimum g0 h start goal g ->
  AStar.relax_edges h goal cur es (g, q) = Some (g', q') ->
  within_optimum g0 h start goal g'.
Proof.
  revert g q. induction es as [|e es IH]; intros g q Hwi; simpl.
  - by intros [= <- <-].
  - destruct (AStar.relax_edge h goal cur e (g, q)) as [[g1 q1]|] eqn:E; [|done]. simpl.
    apply IH. by eapply within_optimum_relax_edge.
Qed.

(** X18: With non-negative edge costs, a consistent heuristic and exact sums,
    [Search] expands no vertex that the heuristic rules out: the g-cost of an
    expanded vertex plus its heuristic value is at most the cost of any walk
    from the start to the goal, plus the heuristic value of the goal itself. *)
Theorem Search_expands_within_optimum g start goal :
  graph_wf g -> nonneg_costs g -> consistent g h goal -> exact_costs g h start goal ->
  ∃ g' path, AStar.Search tie g start goal h = Some (g', path) ∧
    ∀ u uv hu hg vs w, g' !! u = Some uv -> is_checked_ uv = true ->
      h_at g h goal u = Some hu -> h_at g h goal goal = Some hg ->
      walk g start vs goal w -> g_cost_ uv + hu ≤ w + hg.
Proof.
  intros Hwf Hnn Hcons Hex.
  set (g0 := (AStar.seed (ResetAllVertices g) start).1).
  assert (Htopo0 : same_topology g g0).
  { eapply same_topology_trans; [apply same_topology_Reset|apply same_topology_seed]. }
  pose proof (exact_costs_topology h _ _ start goal Htopo0 Hex) as Hex0.
  assert (Hclear : ∀ u uv, g0 !! u = Some uv -> is_checked_ uv = false).
  { intros u uv Huv. unfold g0 in Huv. rewrite lookup_seed in Huv. case_decide.
    - destruct (ResetAllVertices g !! start) eqn:E; [|done]. injection Huv as <-.
      by apply Reset_clear in E as [E _].
    - by apply Reset_clear in Huv as [E _]. }
  destruct (Search_outcome tie h
              (fun g1 => opt_inv g0 start g1 ∧ within_optimum g0 h start goal g1)
              g start goal Hwf)
    as (g' & path & Hs & Hout).
  { split.
    - intros u uv Huv Huck. rewrite (Hclear u uv Huv) in Huck. done.
    - intros u uv hu hg vs w Huv Huck. rewrite (Hclear u uv Huv) in Huck. done. }
  { intros g1 q1 g2 q2 I1 [Hopt1 Hwi1] Hit.
    assert (Hnn0 : nonneg_costs g0) by by apply (nonneg_costs_topology g).
    assert (Hcons0 : consistent g0 h goal) by by apply (consistent_topology h g).
    split; [by eapply opt_inv_search_iter|].
    apply search_iter_inv in Hit
      as (cur & i & p & cv & Hi & Hmin & Hcv &
          [(Hck & [= -> ->])|[(Hck & _ & [=])|(Hck & Hne & [ga qa] & Hrel & [= -> ->])]]);
      [done|].
    eapply within_optimum_relax_edges; [|exact Hrel].
    by eapply within_optimum_mark. }
  exists g', path. split; [done|]. intros u uv hu hg vs w Huv Huck Hhu Hhg Hw.
  destruct Hout as [(_ & -> & _)|(_ & _ & _ & [_ Hwi] & _)].
  { destruct (Reset_clear _ _ _ Huv). congruence. }
  apply (Hwi u uv hu hg vs w Huv Huck).
  - by rewrite (h_at_topology g g0 h goal u Htopo0).
  - by rewrite (h_at_topology g g0 h goal goal Htopo0).
  - by apply (walk_topology g).
Qed.

End WithinOptimum.

(** ** [IncSearch]: the path follows the neighbour function *)

Section IncSound.
Context {State : Type} `{StateIndexer State}.
Variable tie : list (Z * Z) -> nat.
Variable h : State -> State -> Z.
Variable nb : State -> list (State * Z).
Variables start goal : Z.
Implicit Types (g : Graph State) (q : list (Z * Z)).

(** The store updated at a vertex that is not expanded, its state and edges
    kept, with a parent as the invariant asks for when it is then reached. *)
Lemma inc_inv_insert g q q' id (v v' : Vertex State) :
  inc_inv nb start g q -> g !! id = Some v -> is_checked_ v = false ->
  topology v' = topology v ->
  (reached v -> reached v') ->
  (reached v' -> id ≠ start ->
     ∃ u uv sc, search_parent_ v' = Some u ∧ g !! u = Some uv ∧ is_checked_ uv = true ∧
       sc ∈ nb (state_ uv) ∧ GetStateIndex sc.1 = id) ->
  (∀ p x, (p, x) ∈ q' -> (p, x) ∈ q ∨ (x = id ∧ reached v')) ->
  inc_inv nb start (<[id := v']> g) q'.
Proof.
  intros [Hk He Hq Hp] Hv Hck Ht Hkeep Hpar Hq'.
  assert (Hst : state_ v' = state_ v) by (unfold topology in Ht; by injection Ht).
  assert (Hes : edges_to_ v' = edges_to_ v) by (unfold topology in Ht; by injection Ht).
  assert (Hother : ∀ u uv, g !! u = Some uv -> is_checked_ uv = true ->
            <[id := v']> g !! u = Some uv).
  { intros u uv Hu Huck. rewrite lookup_insert_ne; [done|]. intros <-. congruence. }
  split.
  - by eapply keys_ok_insert.
  - intros j u. rewrite lookup_insert. case_decide; [subst j|by apply He].
    intros [= <-] _. rewrite Hes. by apply (He id).
  - intros p x Hin. destruct (Hq' p x Hin) as [Hold|[-> Hr]].
    + destruct (Hq p x Hold) as (u & Hu & Hur).
      destruct (decide (x = id)) as [->|Hne].
      * rewrite Hv in Hu. injection Hu as <-. exists v'.
        rewrite lookup_insert_eq. split; [done|]. by apply Hkeep.
      * exists u. by rewrite lookup_insert_ne.
    + exists v'. by rewrite lookup_insert_eq.
  - intros j u. rewrite lookup_insert. case_decide.
    + subst j. intros [= <-] Hr Hns.
      destruct (Hpar Hr Hns) as (a & av & sc & ? & Ha & Hack & ? & ?).
      exists a, av, sc. split; [done|]. split; [by apply Hother|done].
    + intros Hu Hr Hns.
      destruct (Hp j u Hu Hr Hns) as (a & av & sc & ? & Ha & Hack & ? & ?).
      exists a, av, sc. split; [done|]. split; [by apply Hother|done].
Qed.

Lemma inc_inv_relax_edge cur cw e g q g' q' :
  inc_inv nb start g q ->
  g !! cur = Some cw -> is_checked_ cw = true ->
  (∃ sc, sc ∈ nb (state_ cw) ∧ GetStateIndex sc.1 = dst_ e) ->
  AStar.relax_edge h goal cur e (g, q) = Some (g', q') ->
  inc_inv nb start g' q' ∧ g' !! cur = Some cw.
Proof.
  intros I Hcw Hcwck (sc & Hsc & Hd) Hr.
  apply relax_edge_inv in Hr as (sv & Hsv &
    [(-> & -> & _)|(Hck & cv & gv & _ & _ & _ & -> & ->)]); [done|].
  assert (Hne : cur ≠ dst_ e) by (intros ->; congruence).
  split; [|by rewrite lookup_insert_ne].
  apply (inc_inv_insert g q _ (dst_ e) sv); try done.
  - intros _. by right.
  - intros _ _. exists cur, cw, sc. done.
  - intros p x [Hin| [= -> ->]]%elem_of_put; [by left|].
    right. split; [done|]. by right.
Qed.

Lemma inc_inv_relax_edges cur cw es g q g' q' :
  inc_inv nb start g q ->
  g !! cur = Some cw -> is_checked_ cw = true ->
  (∀ e, e ∈ es -> ∃ sc, sc ∈ nb (state_ cw) ∧ GetStateIndex sc.1 = dst_ e) ->
  AStar.relax_edges h goal cur es (g, q) = Some (g', q') ->
  inc_inv nb start g' q'.
Proof.
  revert g q. induction es as [|e es IH]; intros g q I Hcw Hcwck Hes; simpl.
  - by intros [= <- <-].
  - destruct (AStar.relax_edge h goal cur e (g, q)) as [[g1 q1]|] eqn:E; [|done]. simpl.
    destruct (inc_inv_relax_edge cur cw e g q g1 q1 I Hcw Hcwck) as [I1 Hcw1]; [|done|].
    { apply Hes. left. }
    apply IH; [done..|]. intros e' He'. apply Hes. by right.
Qed.

(** The invariant through the calls of [AddEdge] for the neighbours of the
    vertex under expansion. *)
Lemma inc_inv_add_neighbours cur (cv : Vertex State) g q :
  inc_inv nb start g q -> g !! cur = Some cv -> is_checked_ cv = true ->
  edges_to_ cv = [] ->
  ∃ cv2, AStar.add_neighbours (state_ cv) (nb (state_ cv)) g !! cur = Some cv2 ∧
    is_checked_ cv2 = true ∧ state_ cv2 = state_ cv ∧
    (∀ e, e ∈ edges_to_ cv2 ->
       ∃ sc, sc ∈ nb (state_ cv) ∧ GetStateIndex sc.1 = dst_ e) ∧
    inc_inv nb start (AStar.add_neighbours (state_ cv) (nb (state_ cv)) g) q.
Proof.
  intros [Hk He Hq Hp] Hcv Hck Hes.
  assert (Hkey : GetStateIndex (state_ cv) = cur) by by apply (Hk cur cv).
  destruct (add_neighbours_spec (state_ cv) (nb (state_ cv)) g) as (Hold & Hnew & _).
  { rewrite Hkey. eauto. }
  set (g2 := AStar.add_neighbours (state_ cv) (nb (state_ cv)) g) in *.
  destruct (Hold cur cv Hcv) as (cv2 & Hcv2 & Hsc2 & Hst2 & Hes2).
  rewrite decide_True, Hes in Hes2 by done.
  exists cv2. split; [done|]. split.
  { unfold scratch in Hsc2. injection Hsc2 as -> _ _ _ _ _. done. }
  split; [done|]. split.
  { intros e He'. rewrite Hes2 in He'.
    apply fold_upsert_dst in He' as [(e' & ?%elem_of_nil & _)|(sc & Hsc & Hdsc)]; [done|].
    exists sc. done. }
  assert (Hback : ∀ id v2, g2 !! id = Some v2 ->
            (∃ v, g !! id = Some v ∧ scratch v2 = scratch v ∧ state_ v2 = state_ v ∧
                  (id ≠ cur -> edges_to_ v2 = edges_to_ v))
            ∨ (g !! id = None ∧ scratch v2 = (false, false, 0, 0, 0, None) ∧
               edges_to_ v2 = [])).
  { intros id v2 Hv2. destruct (g !! id) as [v|] eqn:Hv.
    - left. destruct (Hold id v Hv) as (v2' & Hv2' & Hsc & Hst & Hev).
      rewrite Hv2 in Hv2'. injection Hv2' as <-. exists v. do 3 (split; [done|]).
      intros Hne. rewrite Hev. rewrite decide_False; [done|congruence].
    - right. destruct (Hnew id v2 Hv2 Hv) as (Hsc & Hev & _). done. }
  assert (Hfwd : ∀ id v, g !! id = Some v ->
            ∃ v2, g2 !! id = Some v2 ∧ scratch v2 = scratch v ∧ state_ v2 = state_ v).
  { intros id v Hv. destruct (Hold id v Hv) as (v2 & ? & ? & ? & _). by exists v2. }
  split.
  - by apply keys_ok_add_neighbours.
  - intros id v2 Hv2 Hck2.
    destruct (Hback id v2 Hv2) as [(v & Hv & Hsc & _ & Hev)|(_ & _ & ?)]; [|done].
    assert (Hvck : is_checked_ v = false).
    { unfold scratch in Hsc. injection Hsc as Hc _ _ _ _ _. congruence. }
    rewrite Hev; [by apply (He id)|]. intros ->. congruence.
  - intros p id Hin. destruct (Hq p id Hin) as (v & Hv & Hr).
    destruct (Hfwd id v Hv) as (v2 & Hv2 & Hsc & _). exists v2. split; [done|].
    by eapply reached_scratch.
  - intros id v2 Hv2 Hr Hns.
    destruct (Hback id v2 Hv2) as [(v & Hv & Hsc & _)|(_ & Hsc & _)].
    2: { unfold scratch in Hsc. injection Hsc as Hc Ho _ _ _ _.
         destruct Hr; congruence. }
    assert (Hrv : reached v).
    { unfold scratch in Hsc. injection Hsc as Hc Ho _ _ _ _.
      destruct Hr; [left|right]; congruence. }
    destruct (Hp id v Hv Hrv Hns) as (u & uv & sc & Hpar & Hu & Huck & Hsc' & Hid).
    destruct (Hfwd u uv Hu) as (uv2 & Huv2 & Hsc2' & Hst2').
    exists u, uv2, sc. split.
    { unfold scratch in Hsc. injection Hsc as _ _ _ _ _ Hpp. congruence. }
    split; [done|]. split.
    { unfold scratch in Hsc2'. injection Hsc2' as Hc _ _ _ _ _. congruence. }
    by rewrite Hst2'.
Qed.

Lemma inc_inv_inc_iter g q calls g' q' calls' :
  inc_inv nb start g q ->
  AStar.inc_iter tie nb h goal (g, q, calls) = Some (inl (g', q', calls')) ->
  inc_inv nb start g' q'.
Proof.
  intros I Hit.
  assert (Hsub : ∀ i p' x, (p', x) ∈ delete i q -> (p', x) ∈ q).
  { intros i p' x Hin. eapply elem_of_sublist; [exact Hin|apply sublist_delete]. }
  apply inc_iter_inv in Hit
    as (cur & i & p & cv & Hi & Hmin & Hcv &
        [(Hck & [= -> -> ->])|[(Hck & _ & [=])|
         (Hck & Hne & cv2 & g3 & q3 & Hcv2 & Hrel & [= -> -> ->])]]).
  - destruct I as [Hk He Hq Hp]. split; [done..| |done].
    intros p' x Hin. by apply (Hq p'), (Hsub i).
  - assert (Hcr : reached cv).
    { destruct (inc_queue _ _ _ _ I p cur) as (u & Hu & Hur);
        [by eapply list_elem_of_lookup_2|]. congruence. }
    assert (Hces : edges_to_ cv = []) by by apply (inc_edgeless _ _ _ _ I cur).
    assert (I1 : inc_inv nb start (<[cur := mark_checked cv]> g) (delete i q)).
    { apply (inc_inv_insert g q _ cur cv); try done.
      - intros _. by left.
      - intros _ Hns. by apply (inc_parent _ _ _ _ I cur cv).
      - intros p' x Hin. left. by apply (Hsub i). }
    destruct (inc_inv_add_neighbours cur (mark_checked cv) _ _ I1)
      as (cv2' & Hcv2' & Hck2 & Hst2 & Hes2 & I2); [by rewrite lookup_insert_eq|done..|].
    simpl in Hcv2', Hst2, Hes2, I2. rewrite Hcv2 in Hcv2'. injection Hcv2' as <-.
    apply (inc_inv_relax_edges cur cv2 (edges_to_ cv2) _ _ _ _ I2 Hcv2 Hck2); [|done].
    intros e He. rewrite Hst2. by apply Hes2.
Qed.

Lemma inc_inv_steps (st st' : Graph State * list (Z * Z) * list State) :
  inc_steps tie nb h goal st st' ->
  inc_inv nb start st.1.1 st.1.2 -> inc_inv nb start st'.1.1 st'.1.2.
Proof.
  induction 1 as [st|[[g q] calls] [[g1 q1] calls1] st2 Hit _ IH]; [done|].
  simpl. intros I. apply IH. simpl. by eapply inc_inv_inc_iter.
Qed.

(** Along the chain of the parents of a reached vertex, each vertex is of the
    identity of a neighbour of the state of the vertex before it. *)
Lemma inc_inv_chain g q v vs :
  inc_inv nb start g q -> parent_chain g start v vs ->
  (∃ vv, g !! v = Some vv ∧ reached vv) ->
  ∀ i a b, vs !! i = Some a -> vs !! S i = Some b ->
    ∃ av sc, g !! a = Some av ∧ sc ∈ nb (state_ av) ∧ GetStateIndex sc.1 = b.
Proof.
  intros I. induction 1 as [|v vv u vs Hne Hv Hp Hch IH]; intros (vv' & Hv' & Hr) i a b Ha Hb.
  { by destruct i. }
  rewrite Hv in Hv'. injection Hv' as <-.
  destruct (inc_parent _ _ _ _ I v vv Hv Hr Hne) as (u' & uv & sc & Hpar & Hu & Huck & Hsc & Hid).
  rewrite Hp in Hpar. injection Hpar as <-.
  destruct (decide (S i < length vs)%nat) as [Hlt|Hge].
  - rewrite lookup_app_l in Ha by lia. rewrite lookup_app_l in Hb by lia.
    apply (IH ltac:(exists uv; split; [done|by left]) i a b Ha Hb).
  - assert (S i = length vs) as Hlen.
    { apply lookup_lt_Some in Hb. rewrite length_app in Hb. simpl in Hb. lia. }
    rewrite Hlen, list_lookup_middle in Hb by done. injection Hb as <-.
    rewrite lookup_app_l in Ha by lia.
    pose proof (parent_chain_last _ _ _ _ Hch) as Hlast.
    rewrite last_lookup, <- Hlen in Hlast. simpl in Hlast.
    rewrite Ha in Hlast. injection Hlast as ->.
    exists uv, sc. done.
Qed.

End IncSound.

Section IncSoundRun.
Context {State : Type} `{StateIndexer State}.
Variable tie : list (Z * Z) -> nat.
Variable h : State -> State -> Z.

(** A run that finds a path ends in a loop state with the goal on the open
    list. *)
Lemma inc_loop_found (nb : State -> list (State * Z)) goal fuel
    (st : Graph State * list (Z * Z) * list State) g' calls' :
  AStar.inc_loop tie nb h goal fuel st = Some (g', calls', true) ->
  ∃ q' p, inc_steps tie nb h goal st (g', q', calls') ∧ (p, goal) ∈ q'.
Proof.
  revert st. induction fuel as [|fuel IH]; intros [[g q] calls]; simpl.
  - by destruct (PriorityQueue.empty q).
  - destruct (PriorityQueue.empty q); [done|].
    destruct (AStar.inc_iter tie nb h goal (g, q, calls)) as [[st1|[g1 c1]]|] eqn:Hit;
      simpl; [| |done].
    + intros Hl. destruct (IH _ Hl) as (q' & p & Hq' & Hin). exists q', p.
      split; [by eapply inc_steps_next|done].
    + intros [= <- <-].
      apply inc_iter_inv in Hit
        as (cur & i & p & cv & Hi & Hmin & Hcv &
            [(Hck & [=])|[(Hck & -> & [= <- <-])|
             (Hck & Hne & cv2 & g3 & q3 & Hcv2 & Hrel & [=])]]).
      exists q, p. split; [apply inc_steps_refl|by eapply list_elem_of_lookup_2].
Qed.

(** The state of a vertex stays along a run. *)
Lemma inc_steps_state (nb : State -> list (State * Z)) goal
    (st st' : Graph State * list (Z * Z) * list State) id v :
  inc_steps tie nb h goal st st' -> st.1.1 !! id = Some v ->
  ∃ v', st'.1.1 !! id = Some v' ∧ state_ v' = state_ v.
Proof.
  intros Hst. revert v.
  induction Hst as [st|[[g q] calls] [[g1 q1] calls1] st2 Hit _ IH]; intros v Hv.
  { by exists v. }
  simpl in Hv.
  assert (∃ v1, g1 !! id = Some v1 ∧ state_ v1 = state_ v) as (v1 & Hv1 & Hst1).
  { apply inc_iter_inv in Hit
      as (cur & i & p & cv & Hi & Hmin & Hcv &
          [(Hck & [= -> -> ->])|[(Hck & _ & [=])|
           (Hck & Hne & cv2 & g3 & q3 & Hcv2 & Hrel & [= -> -> ->])]]); [by exists v|].
    assert (∃ vm, <[cur := mark_checked cv]> g !! id = Some vm ∧ state_ vm = state_ v)
      as (vm & Hvm & Hstm).
    { rewrite lookup_insert. case_decide; [subst id|by exists v].
      rewrite Hcv in Hv. injection Hv as <-. by eexists. }
    destruct (add_neighbours_old (state_ cv) (nb (state_ cv)) _ id vm Hvm)
      as (va & Hva & _ & Hsta).
    destruct (same_topology_lookup _ g3 id va
                (relax_edges_topology h _ _ _ _ _ _ _ Hrel) Hva) as (v3 & Hv3 & Ht3).
    exists v3. split; [done|]. unfold topology in Ht3. injection Ht3 as -> _ _ _.
    congruence. }
  destruct (IH v1 Hv1) as (v' & Hv' & Hst'). exists v'. split; [done|congruence].
Qed.

Lemma inc_inv_start (nb : State -> list (State * Z)) sstate gstate :
  inc_inv nb (GetStateIndex sstate) (inc_start sstate gstate).1.1 (inc_start sstate gstate).1.2.
Proof.
  assert (Hlook : ∀ id v, (inc_start sstate gstate).1.1 !! id = Some v ->
            edges_to_ v = [] ∧ (reached v -> id = GetStateIndex sstate)).
  { intros id v. unfold inc_start. cbn [fst]. rewrite lookup_seed. case_decide.
    - destruct (_ !! GetStateIndex sstate) as [sv|] eqn:Hsv; [|done]. intros [= <-].
      split; [|done].
      by apply lookup_inc_start in Hsv as [(_ & ->)|(_ & _ & ->)].
    - intros [(_ & ->)|(_ & _ & ->)]%lookup_inc_start; (split; [done|]);
        intros [?|?]; done. }
  split.
  - apply keys_ok_inc_start.
  - intros id v Hv _. by destruct (Hlook id v Hv).
  - unfold inc_start, AStar.seed, PriorityQueue.put. cbn [fst snd app].
    intros p id [= -> ->]%list_elem_of_singleton.
    rewrite lookup_alter_eq.
    destruct (_ !! GetStateIndex sstate) as [sv|] eqn:Hsv.
    + exists (seed_start sv). split; [done|]. by right.
    + exfalso. unfold AddVertex in Hsv.
      destruct (ObtainVertex_is_Some sstate (∅ : Graph State)) as [x Hx].
      apply (ObtainVertex_old gstate) in Hx. congruence.
  - intros id v Hv Hr Hns. destruct (Hlook id v Hv) as [_ Hs]. by destruct Hns, Hs.
Qed.

(** X19: Whatever the neighbour function describes, a finite graph or not, and
    whatever the heuristic: a path that [IncSearch] returns begins with the
    start state, ends with a state of the identity of the goal state, and each
    of its states after the first is of the identity of a neighbour that the
    neighbour function lists for the state before it. *)
Theorem IncSearch_path_follows_neighbours fuel sstate gstate
    (nb : State -> list (State * Z)) path :
  AStar.IncSearch tie fuel sstate gstate nb h = Some path -> path ≠ [] ->
  head path = Some sstate ∧
  GetStateIndex <$> last path = Some (GetStateIndex gstate) ∧
  ∀ i s s', path !! i = Some s -> path !! S i = Some s' ->
    ∃ sc, sc ∈ nb s ∧ GetStateIndex sc.1 = GetStateIndex s'.
Proof.
  unfold AStar.IncSearch. rewrite IncSearch_run_unfold. intros Hres Hne.
  destruct (AStar.inc_loop _ _ _ _ _ _) as [[[g calls] found]|] eqn:Hloop; [|done].
  simpl in Hres.
  destruct (AStar.finish _ _ _ _) as [[g' path']|] eqn:Hfin; [|done].
  simpl in Hres. injection Hres as ->.
  set (start := GetStateIndex sstate) in *. set (goal := GetStateIndex gstate) in *.
  unfold AStar.finish in Hfin. destruct found; [|by injection Hfin as _ <-].
  destruct (inc_loop_found nb goal fuel _ _ _ Hloop) as (q' & p & Hst & Hgq).
  pose proof (inc_inv_steps tie h nb start goal _ _ Hst (inc_inv_start nb sstate gstate)) as I.
  simpl in I.
  destruct (AStar.ReconstructPath g start goal) as [vs|] eqn:Hrec; [|done]. simpl in Hfin.
  destruct (AStar.path_states g vs) as [ps|] eqn:Hps; [|done]. simpl in Hfin.
  injection Hfin as _ ->.
  unfold AStar.ReconstructPath in Hrec.
  destruct (reconstruct_loop_sound _ _ _ _ _ _ Hrec) as (vs' & Hch & Hvs).
  rewrite app_nil_r in Hvs. subst vs'.
  unfold AStar.path_states in Hps. apply mapM_Some in Hps.
  assert (Hids : ∀ i s, path !! i = Some s ->
            ∃ v, vs !! i = Some (GetStateIndex s) ∧ g !! GetStateIndex s = Some v ∧
                 state_ v = s).
  { intros i s Hs. destruct (Forall2_lookup_r _ _ _ _ _ Hps Hs) as (x & Hx & Hxs).
    destruct (g !! x) as [v|] eqn:Hv; [|done]. injection Hxs as <-.
    pose proof (inc_keys _ _ _ _ I x v Hv) as Hkey. rewrite Hkey. by exists v. }
  pose proof (Forall2_length _ _ _ Hps) as Hlen.
  split; [|split].
  - destruct path as [|s0 tl]; [done|]. simpl. f_equal.
    destruct (Hids 0%nat s0 eq_refl) as (v & Hv0 & Hv & Hsv).
    pose proof (parent_chain_head _ _ _ _ Hch) as Hhd.
    rewrite head_lookup, Hv0 in Hhd. injection Hhd as Hs0.
    assert (Hs : (inc_start sstate gstate).1.1 !! start
                 = Some (seed_start (new_vertex sstate start))).
    { unfold inc_start. cbn [fst]. rewrite lookup_seed, decide_True by done.
      unfold AddVertex.
      destruct (ObtainVertex_is_Some sstate (∅ : Graph State)) as [x Hx].
      pose proof Hx as Hx'. apply ObtainVertex_lookup in Hx' as [Hx'|(_ & _ & ->)].
      { by rewrite lookup_empty in Hx'. }
      apply (ObtainVertex_old gstate) in Hx. by rewrite Hx. }
    destruct (inc_steps_state nb goal _ _ start _ Hst Hs) as (v' & Hv' & Hst').
    simpl in Hv', Hst'. rewrite Hs0, Hv' in Hv. injection Hv as <-. congruence.
  - rewrite last_lookup.
    destruct (path !! pred (length path)) as [s|] eqn:Hs.
    2: { apply lookup_ge_None in Hs. destruct path; [done|simpl in Hs; lia]. }
    simpl. f_equal.
    destruct (Hids _ s Hs) as (v & Hvl & _).
    pose proof (parent_chain_last _ _ _ _ Hch) as Hlast.
    rewrite last_lookup, Hlen, Hvl in Hlast. by injection Hlast.
  - intros i s s' Hs Hs'.
    destruct (Hids i s Hs) as (v & Hvi & Hv & Hsv).
    destruct (Hids (S i) s' Hs') as (v' & Hvi' & _).
    destruct (inc_inv_chain nb start g q' goal vs I Hch) with (i := i)
      (a := GetStateIndex s) (b := GetStateIndex s') as (av & sc & Hav & Hsc & Hid);
      [|done..|].
    { by apply (inc_queue _ _ _ _ I p goal). }
    rewrite Hv in Hav. injection Hav as <-. rewrite Hsv in Hsc. by exists sc.
Qed.

End IncSoundRun.

(** ** [IncSearch]: the graph it builds *)

Section IncBuilds.
Context {State : Type} `{StateIndexer State}.
Variable tie : list (Z * Z) -> nat.
Variable h : State -> State -> Z.
Implicit Types (g : Graph State) (q : list (Z * Z)) (nb : State -> list (State * Z)).

Lemma built_from_calls_inc_iter nb start goal g q calls g' q' calls' :
  keys_ok g -> built_from_calls nb start goal g calls ->
  AStar.inc_iter tie nb h goal (g, q, calls) = Some (inl (g', q', calls')) ->
  built_from_calls nb start goal g' calls'.
Proof.
  intros Hk Hb Hit.
  apply inc_iter_inv in Hit
    as (cur & i & p & cv & Hi & Hmin & Hcv &
        [(Hck & [= -> -> ->])|[(Hck & _ & [=])|
         (Hck & Hne & cv2 & g3 & q3 & Hcv2 & Hrel & [= -> -> ->])]]); [done|].
  assert (Hkey : GetStateIndex (state_ cv) = cur) by by apply (Hk cur cv).
  intros id v3 Hv3.
  assert (Hin2 : is_Some (AStar.add_neighbours (state_ cv) (nb (state_ cv))
                            (<[cur := mark_checked cv]> g) !! id)).
  { apply (same_topology_is_Some _ g3 id (relax_edges_topology h _ _ _ _ _ _ _ Hrel)).
    eauto. }
  destruct Hin2 as [v2 Hv2].
  destruct (add_neighbours_spec (state_ cv) (nb (state_ cv)) (<[cur := mark_checked cv]> g))
    as (_ & Hnew & _).
  { rewrite Hkey, lookup_insert_eq. eauto. }
  destruct (<[cur := mark_checked cv]> g !! id) as [v1|] eqn:Hv1.
  - assert (Hv : is_Some (g !! id)).
    { rewrite lookup_insert in Hv1. case_decide; [subst id|]; eauto. }
    destruct Hv as [v Hv].
    destruct (Hb id v Hv) as [?|[?|(s & sc & Hs & Hsc & Hid)]]; [by left|by right; left|].
    right. right. exists s, sc. split; [by right|done].
  - destruct (Hnew id v2 Hv2 Hv1) as (_ & _ & sc & Hsc & Hid & _).
    right. right. exists (state_ cv), sc. split; [left|done].
Qed.

(** X20: The graph that a run of [IncSearch] has built holds nothing that the
    run has not explored: each of its vertices is the start, the goal, or of
    the identity of a neighbour listed for a state that the neighbour function
    was called with, and a vertex that was not expanded owns no edge. *)
Theorem IncSearch_builds_what_it_explores fuel sstate gstate nb g path calls :
  AStar.IncSearch_run tie fuel sstate gstate nb h = Some (g, path, calls) ->
  built_from_calls nb (GetStateIndex sstate) (GetStateIndex gstate) g calls ∧
  ∀ id v, g !! id = Some v -> is_checked_ v = false -> edges_to_ v = [].
Proof.
  rewrite IncSearch_run_unfold. intros Hres.
  destruct (AStar.inc_loop _ _ _ _ _ _) as [[[g' calls'] found]|] eqn:Hloop; [|done].
  simpl in Hres.
  destruct (AStar.finish _ _ _ _) as [[g'' path']|] eqn:Hfin; [|done].
  simpl in Hres. injection Hres as <- <- <-.
  apply finish_store in Hfin as ->.
  destruct (inc_loop_steps tie h _ nb fuel _ _ _ _ Hloop) as [q' Hst].
  split.
  - assert (Hgen : ∀ st st', inc_steps tie nb h (GetStateIndex gstate) st st' ->
              keys_ok st.1.1 ->
              built_from_calls nb (GetStateIndex sstate) (GetStateIndex gstate) st.1.1 st.2 ->
              built_from_calls nb (GetStateIndex sstate) (GetStateIndex gstate) st'.1.1 st'.2).
    { clear. induction 1 as [st|[[g q] calls] [[g1 q1] calls1] st2 Hit _ IH]; [done|].
      simpl. intros Hk Hb. apply IH; simpl.
      - by eapply inc_iter_keys_ok.
      - by eapply built_from_calls_inc_iter. }
    apply (Hgen _ _ Hst); [apply keys_ok_inc_start|].
    intros id v. unfold inc_start. cbn [fst snd]. rewrite lookup_seed. case_decide.
    + by left.
    + intros [(-> & _)|(-> & _)]%lookup_inc_start; [by left|by right; left].
  - pose proof (inc_inv_steps tie h nb (GetStateIndex sstate) (GetStateIndex gstate)
                  _ _ Hst (inc_inv_start nb sstate gstate)) as I.
    apply (inc_edgeless _ _ _ _ I).
Qed.

End IncBuilds.

(** ** The queue with ties broken by the item *)

Section DynamicQueue.
Implicit Types (q : list (Z * Z)) (e x : Z * Z).

Lemma pair_le_spec e x :
  DynamicPriorityQueue.pair_le e x = true ↔ e.1 < x.1 ∨ (e.1 = x.1 ∧ e.2 ≤ x.2).
Proof.
  unfold DynamicPriorityQueue.pair_le.
  rewrite orb_true_iff, andb_true_iff, Z.ltb_lt, Z.eqb_eq, Z.leb_le. done.
Qed.

Lemma least_spec e es :
  DynamicPriorityQueue.least e es ∈ e :: es ∧
  ∀ x, x ∈ e :: es -> DynamicPriorityQueue.pair_le (DynamicPriorityQueue.least e es) x = true.
Proof.
  revert e. induction es as [|y es IH]; intros e; simpl.
  - split; [left|]. intros x ->%list_elem_of_singleton. apply pair_le_spec. lia.
  - destruct (DynamicPriorityQueue.pair_le e y) eqn:Hey.
    + destruct (IH e) as [Hin Hle]. split.
      * apply elem_of_cons in Hin as [->|Hin]; [left|right; by right].
      * intros x [->|[->|Hx]%elem_of_cons]%elem_of_cons.
        -- apply Hle. left.
        -- pose proof (Hle e (list_elem_of_here _ _)) as H1.
           apply pair_le_spec in H1, Hey. apply pair_le_spec. lia.
        -- apply Hle. by right.
    + destruct (IH y) as [Hin Hle]. split; [by right|].
      intros x [->|Hx]%elem_of_cons; [|by apply Hle].
      pose proof (Hle y (list_elem_of_here _ _)) as H1.
      apply pair_le_spec in H1. apply pair_le_spec.
      assert (Hye : ¬ (e.1 < y.1 ∨ (e.1 = y.1 ∧ e.2 ≤ y.2))).
      { rewrite <- pair_le_spec. by rewrite Hey. }
      lia.
Qed.

Lemma remove_first_Permutation e q :
  e ∈ q -> q ≡ₚ e :: DynamicPriorityQueue.remove_first e q.
Proof.
  induction q as [|x q IH]; [by intros ?%elem_of_nil|]. simpl.
  destruct (decide (x = e)) as [->|Hne]; [done|].
  intros [->|Hin]%elem_of_cons; [done|]. rewrite (IH Hin) at 1. apply Permutation_swap.
Qed.

(** X21: On a non-empty [DynamicPriorityQueue] (both types at the integers),
    [get] returns the item of the entry that is least in the lexicographic order
    of (priority, item): no entry has a lower priority, and among the entries of
    that priority none has a lower item; exactly one copy of that entry leaves
    the queue. *)
Theorem DynamicPriorityQueue_get_least q :
  q ≠ [] ->
  ∃ item rest p, DynamicPriorityQueue.get q = Some (item, rest) ∧
    q ≡ₚ (p, item) :: rest ∧
    ∀ e, e ∈ q -> p < e.1 ∨ (p = e.1 ∧ item ≤ e.2).
Proof.
  destruct q as [|e es]; [done|]. intros _.
  destruct (least_spec e es) as [Hin Hle].
  exists (DynamicPriorityQueue.least e es).2,
    (DynamicPriorityQueue.remove_first (DynamicPriorityQueue.least e es) (e :: es)),
    (DynamicPriorityQueue.least e es).1.
  split; [done|]. split.
  - rewrite <- surjective_pairing. by apply remove_first_Permutation.
  - intros x Hx. apply pair_le_spec. by apply Hle.
Qed.

End DynamicQueue.

(** ** The further properties on the graph of the scenario *)

Lemma scenario_searched_topology : same_topology scenario_graph scenario_searched.
Proof.
  eapply same_topology_trans; [apply same_topology_Reset|].
  apply (PerformSearch_topology first_put zero_heuristic (ResetAllVertices scenario_graph)
           1 5 _ [1; 2; 3; 4; 5]).
  vm_compute. reflexivity.
Qed.

Lemma scenario_unreachable : ¬ reachable scenario_graph 5 1.
Proof.
  destruct (Search_returns first_put zero_heuristic scenario_graph 5 1 scenario_graph_wf)
    as (g' & path & Hs & Hiff).
  vm_compute in Hs. injection Hs as _ <-.
  destruct (proj1 Hiff eq_refl) as [Hn|[Hn|Hn]]; [vm_compute in Hn; discriminate..|done].
Qed.

Lemma get_yields_least_witness :
  ∃ item rest p, PriorityQueue.get first_put [(3, 7); (1, 9)] = Some (item, rest) ∧
    [(3, 7); (1, 9)] ≡ₚ (p, item) :: rest ∧ (∀ e, e ∈ [(3, 7); (1, 9)] -> p ≤ e.1) ∧
    S (PriorityQueue.size rest) = PriorityQueue.size [(3, 7); (1, 9)].
Proof.
  apply (get_yields_least first_put [(3, 7); (1, 9)]). discriminate.
Defined.

Lemma put_then_get_witness :
  PriorityQueue.get first_put (PriorityQueue.put 2 3 [(5, 1)]) = Some (2, [(5, 1)]).
Proof.
  apply (put_then_get first_put [(5, 1)] 2 3).
  intros e He. apply list_elem_of_singleton in He. subst e. simpl. lia.
Defined.

Lemma ReconstructPath_follows_parents_witness :
  parent_chain scenario_searched 1 5 [1; 2; 3; 4; 5] ∧
  head [1; 2; 3; 4; 5] = Some 1 ∧ last [1; 2; 3; 4; 5] = Some 5 ∧
  NoDup [1; 2; 3; 4; 5].
Proof.
  assert (Hch : parent_chain scenario_searched 1 5 [1; 2; 3; 4; 5]).
  { apply (proj1 (ReconstructPath_follows_parents scenario_searched 1 5 [1; 2; 3; 4; 5])).
    vm_compute. reflexivity. }
  split; [exact Hch|].
  exact (proj2 (ReconstructPath_follows_parents scenario_searched 1 5 [1; 2; 3; 4; 5]) Hch).
Defined.

Lemma Search_keeps_topology_witness : same_topology scenario_graph scenario_searched.
Proof.
  apply (Search_keeps_topology first_put zero_heuristic scenario_graph 1 5
           scenario_searched [1; 2; 3; 4; 5]).
  vm_compute. reflexivity.
Defined.

Lemma Search_path_is_simple_walk_witness :
  ∃ g' path, AStar.Search first_put scenario_graph 1 5 zero_heuristic = Some (g', path) ∧
    (path ≠ [] ->
     ∃ c, walk scenario_graph 1 (GetStateIndex <$> path) 5 c ∧
       (exact_costs scenario_graph zero_heuristic 1 5 -> g_cost_ <$> g' !! 5 = Some c) ∧
       NoDup (GetStateIndex <$> path) ∧
       Forall (fun s => state_ <$> scenario_graph !! GetStateIndex s = Some s) path).
Proof.
  exact (Search_path_is_simple_walk first_put zero_heuristic scenario_graph 1 5
           scenario_graph_wf).
Defined.

Lemma Search_leaves_goal_unchecked_witness :
  ∃ g' path, AStar.Search first_put scenario_graph 1 5 zero_heuristic = Some (g', path) ∧
    (∀ gv, g' !! 5 = Some gv -> is_checked_ gv = false) ∧
    (path ≠ [] -> ∃ gv, g' !! 5 = Some gv ∧ is_in_openlist_ gv = true).
Proof.
  exact (Search_leaves_goal_unchecked first_put zero_heuristic scenario_graph 1 5
           scenario_graph_wf).
Defined.

Lemma Search_expanded_costs_are_shortest_witness :
  ∃ g' path, AStar.Search first_put scenario_graph 1 5 zero_heuristic = Some (g', path) ∧
    ∀ u uv, g' !! u = Some uv -> is_checked_ uv = true ->
      (∃ vs, walk scenario_graph 1 vs u (g_cost_ uv)) ∧
      ∀ vs c, walk scenario_graph 1 vs u c -> g_cost_ uv ≤ c.
Proof.
  apply (Search_expanded_costs_are_shortest first_put zero_heuristic scenario_graph 1 5).
  - exact scenario_graph_wf.
  - exact scenario_nonneg.
  - apply consistent_zero; [reflexivity|exact scenario_nonneg].
  - apply scenario_exact.
Defined.

Lemma Search_failure_expands_reachable_witness :
  ∃ g', AStar.Search first_put scenario_graph 5 1 zero_heuristic = Some (g', []) ∧
    ∀ u, (∃ uv, g' !! u = Some uv ∧ is_checked_ uv = true) ↔ reachable scenario_graph 5 u.
Proof.
  apply (Search_failure_expands_reachable first_put zero_heuristic scenario_graph 5 1).
  - exact scenario_graph_wf.
  - vm_compute. eauto.
  - vm_compute. eauto.
  - exact scenario_unreachable.
Defined.

Lemma g_cost_never_grows_witness :
  ∃ st1 st2,
    AStar.search_iter first_put zero_heuristic 5
      (AStar.seed (ResetAllVertices scenario_graph) 1) = Some (inl st1) ∧
    AStar.search_iter first_put zero_heuristic 5 st1 = Some (inl st2) ∧
    cost_step st1.1 st2.1.
Proof.
  eexists _, _. split; [vm_compute; reflexivity|]. split; [vm_compute; reflexivity|].
  apply (proj1 (g_cost_never_grows first_put zero_heuristic 5)).
  eapply search_steps_next; [vm_compute; reflexivity|apply search_steps_refl].
Defined.

Lemma open_list_bounded_witness :
  ∃ st,
    AStar.search_iter first_put zero_heuristic 5
      (AStar.seed (ResetAllVertices scenario_graph) 1) = Some (inl st) ∧
    Z.of_nat (PriorityQueue.size st.2)
      ≤ GetGraphEdgeNumber (ResetAllVertices scenario_graph) + 1.
Proof.
  eexists. split; [vm_compute; reflexivity|].
  apply (open_list_bounded first_put zero_heuristic 5 (ResetAllVertices scenario_graph) 1).
  - intros id v. apply Reset_clear.
  - eapply search_steps_next; [vm_compute; reflexivity|apply search_steps_refl].
Defined.

Lemma Search_books_costs_witness :
  ∃ g' path, AStar.Search first_put scenario_graph 1 5 zero_heuristic = Some (g', path) ∧
    costs_booked zero_heuristic 1 5 g'.
Proof.
  exact (Search_books_costs first_put zero_heuristic 1 5 scenario_graph scenario_graph_wf).
Defined.

Lemma Search_ignores_stale_fields_witness :
  (∃ g1' g2' path,
     AStar.PerformSearch first_put (ResetAllVertices scenario_graph) 1 5 zero_heuristic
       = Some (g1', path) ∧
     AStar.PerformSearch first_put (ResetAllVertices scenario_searched) 1 5 zero_heuristic
       = Some (g2', path)) ∧
  (∃ g1' g2' path,
     AStar.Search first_put scenario_graph 1 5 zero_heuristic = Some (g1', path) ∧
     AStar.Search first_put scenario_searched 1 5 zero_heuristic = Some (g2', path)).
Proof.
  split.
  - apply (proj1 (Search_ignores_stale_fields first_put zero_heuristic 1 5)).
    + apply graph_wf_Reset, scenario_graph_wf.
    + eapply same_topology_trans; [|apply same_topology_Reset].
      eapply same_topology_trans; [|exact scenario_searched_topology].
      apply same_topology_sym, same_topology_Reset.
    + intros id v. apply Reset_clear.
    + intros id v. apply Reset_clear.
    + vm_compute. eauto.
    + vm_compute. eauto.
  - apply (proj2 (Search_ignores_stale_fields first_put zero_heuristic 1 5)).
    + exact scenario_graph_wf.
    + exact scenario_searched_topology.
Defined.

Lemma IncSearch_calls_once_per_vertex_witness :
  ∃ g path calls,
    AStar.IncSearch_run first_put 6 1 5 scenario_neighbours zero_heuristic
      = Some (g, path, calls) ∧
    calls_inv g calls.
Proof.
  eexists _, _, _. split; [vm_compute; reflexivity|].
  apply (IncSearch_calls_once_per_vertex first_put zero_heuristic 6 1 5 scenario_neighbours
           _ [1; 2; 3; 4; 5]).
  vm_compute. reflexivity.
Defined.

Lemma IncSearch_same_identity_witness :
  ∃ g, AStar.IncSearch_run first_put 1 ((1, 1) : Z * Z) (1, 2) (fun _ => []) (fun _ _ => 0)
         = Some (g, [(1, 1)], []) ∧
    AStar.IncSearch first_put 1 ((1, 1) : Z * Z) (1, 2) (fun _ => []) (fun _ _ => 0)
      = Some [(1, 1)].
Proof.
  apply (IncSearch_same_identity first_put (fun _ _ => 0) 0 ((1, 1) : Z * Z) (1, 2)
           (fun _ => [])).
  reflexivity.
Defined.

Lemma Search_returns_on_built_graphs_witness :
  graph_wf scenario_graph ∧
  ∃ g' path, AStar.Search first_put scenario_graph 1 5 zero_heuristic = Some (g', path) ∧
    graph_wf g'.
Proof.
  apply (Search_returns_on_built_graphs first_put zero_heuristic scenario_graph 1 5).
  unfold scenario_graph. repeat apply built_AddEdge. apply built_empty.
Defined.

Lemma IncSearch_shortest_path_witness :
  ∃ path c, AStar.IncSearch first_put 6 1 5 scenario_neighbours zero_heuristic = Some path ∧
    walk scenario_graph 1 (GetStateIndex <$> path) 5 c ∧
    (∀ vs w, walk scenario_graph 1 vs 5 w -> c ≤ w) ∧
    (∀ i s s', path !! i = Some s -> path !! S i = Some s' ->
       ∃ c', (s', c') ∈ scenario_neighbours s).
Proof.
  refine (IncSearch_shortest_path first_put zero_heuristic scenario_graph 1 5
            scenario_neighbours 6 _ _ _ _ _ _ _ _ _).
  - exact scenario_graph_wf.
  - exact scenario_prebuilt.
  - vm_compute. reflexivity.
  - vm_compute. reflexivity.
  - exact scenario_nonneg.
  - apply consistent_zero; [reflexivity|exact scenario_nonneg].
  - apply scenario_exact.
  - exact scenario_reachable.
  - vm_compute. lia.
Defined.

Lemma IncSearch_empty_iff_unreachable_witness :
  ∃ path, AStar.IncSearch first_put 6 5 1 scenario_neighbours zero_heuristic = Some path ∧
    (path = [] ↔ ¬ reachable scenario_graph 5 1).
Proof.
  refine (IncSearch_empty_iff_unreachable first_put zero_heuristic scenario_graph 5 1
            scenario_neighbours 6 _ _ _ _ _).
  - exact scenario_graph_wf.
  - exact scenario_prebuilt.
  - vm_compute. reflexivity.
  - vm_compute. reflexivity.
  - vm_compute. lia.
Defined.

Lemma Search_expands_within_optimum_witness :
  ∃ g' path, AStar.Search first_put scenario_graph 1 5 zero_heuristic = Some (g', path) ∧
    ∀ u uv hu hg vs w, g' !! u = Some uv -> is_checked_ uv = true ->
      h_at scenario_graph zero_heuristic 5 u = Some hu ->
      h_at scenario_graph zero_heuristic 5 5 = Some hg ->
      walk scenario_graph 1 vs 5 w -> g_cost_ uv + hu ≤ w + hg.
Proof.
  apply (Search_expands_within_optimum first_put zero_heuristic scenario_graph 1 5).
  - exact scenario_graph_wf.
  - exact scenario_nonneg.
  - apply consistent_zero; [reflexivity|exact scenario_nonneg].
  - apply scenario_exact.
Defined.

Lemma IncSearch_path_follows_neighbours_witness :
  head [1; 2; 3; 4; 5] = Some 1 ∧
  GetStateIndex <$> last [1; 2; 3; 4; 5] = Some (GetStateIndex 5) ∧
  ∀ i s s', [1; 2; 3; 4; 5] !! i = Some s -> [1; 2; 3; 4; 5] !! S i = Some s' ->
    ∃ sc, sc ∈ scenario_neighbours s ∧ GetStateIndex sc.1 = GetStateIndex s'.
Proof.
  apply (IncSearch_path_follows_neighbours first_put zero_heuristic 6 1 5
           scenario_neighbours [1; 2; 3; 4; 5]).
  - vm_compute. reflexivity.
  - discriminate.
Defined.

Lemma IncSearch_builds_what_it_explores_witness :
  ∃ g path calls,
    AStar.IncSearch_run first_put 6 1 5 scenario_neighbours zero_heuristic
      = Some (g, path, calls) ∧
    built_from_calls scenario_neighbours (GetStateIndex 1) (GetStateIndex 5) g calls ∧
    ∀ id v, g !! id = Some v -> is_checked_ v = false -> edges_to_ v = [].
Proof.
  eexists _, _, _. split; [vm_compute; reflexivity|].
  apply (IncSearch_builds_what_it_explores first_put zero_heuristic 6 1 5 scenario_neighbours
           _ [1; 2; 3; 4; 5]).
  vm_compute. reflexivity.
Defined.

Lemma DynamicPriorityQueue_get_least_witness :
  ∃ item rest p, DynamicPriorityQueue.get [(2, 9); (1, 8); (1, 4)] = Some (item, rest) ∧
    [(2, 9); (1, 8); (1, 4)] ≡ₚ (p, item) :: rest ∧
    ∀ e, e ∈ [(2, 9); (1, 8); (1, 4)] -> p < e.1 ∨ (p = e.1 ∧ item ≤ e.2).
Proof.
  apply (DynamicPriorityQueue_get_least [(2, 9); (1, 8); (1, 4)]). discriminate.
Defined.
